(** * Prompt versioning and dataset aggregates of the lmsdk worker

    A shallow embedding of the prompt service (version ledger, router),
    the dataset service (record store, record counter, schema inference)
    and of the repositories under them, with the properties the design
    document states about them.

    The D1 database is a record of five tables; a table is the list of its
    rows in rowid order.  A repository method is a computation over that
    record: it reads the tables, returns a value or throws, and leaves the
    tables as the statements it issued left them.  No transaction surrounds
    a service method, so a throw keeps the writes made before it.

    The table declarations (worker/db/schema.ts) are not among the
    sources.  The tests show the two unique indexes of the Prompts table,
    on the name and on the slug of a tenant and project, and these are
    modelled: a write they reject throws and writes nothing.

    Not modelled: the [createdAt]/[updatedAt] columns (wall-clock time),
    and with them the order of a list that is sorted by one of them, so
    that such a list is described up to its order; and the interleaving
    of concurrent requests. *)

From stdpp Require Import base decidable option list strings gmap fin_maps pretty.
From Stdlib Require Import ZArith Lia Ascii Sorted.

Local Open Scope Z_scope.

(** ** Identifiers (worker/shared/entity-id.ts, worker/prompts/prompt-version-id.ts) *)

Module ProjectId.
Record t := mk { id : Z; tenantId : Z; userId : string }.
End ProjectId.

Module EntityId.
Record t := mk { id : Z; projectId : Z; tenantId : Z; userId : string }.

(** [new EntityId(id, projectId)] *)
Definition new (i : Z) (p : ProjectId.t) : t :=
  {| id := i; projectId := ProjectId.id p;
     tenantId := ProjectId.tenantId p; userId := ProjectId.userId p |}.

Definition getProjectId (e : t) : ProjectId.t :=
  ProjectId.mk (projectId e) (tenantId e) (userId e).
End EntityId.

Module PromptVersionId.
Record t := mk
  { version : Z; promptId : Z; projectId : Z; tenantId : Z; userId : string }.

Definition new (v : Z) (e : EntityId.t) : t :=
  {| version := v; promptId := EntityId.id e;
     projectId := EntityId.projectId e; tenantId := EntityId.tenantId e;
     userId := EntityId.userId e |}.

Definition getPromptId (v : t) : EntityId.t :=
  EntityId.new (promptId v) (ProjectId.mk (projectId v) (tenantId v) (userId v)).
End PromptVersionId.

(** ** JSON values

    What [JSON.parse] returns.  An object is the list of its own entries in
    [Object.entries] order; numbers are kept as integers, which is all that
    [typeof] and the record counter look at. *)

#[local] Set Warnings "-register-all".
Inductive json :=
| JNull
| JBool (b : bool)
| JNum (n : Z)
| JStr (s : string)
| JArr (items : list json)
| JObj (entries : list (string * json)).
#[local] Set Warnings "register-all".

(** A persisted schema column: a string, seen through what [JSON.parse]
    makes of it. *)
Inductive schema_text :=
| TextEmpty                 (* the empty string *)
| TextInvalid (s : string)  (* a non-empty string that JSON.parse rejects *)
| TextJson (j : json).      (* a string that parses to [j] *)

(** ** Rows (worker/db/schema.ts is used through these columns only) *)

Module Prompt.
Record t := mk
  { id : Z; tenantId : Z; projectId : Z;
    name : string; slug : string; provider : string; model : string;
    body : string; latestVersion : Z; isActive : bool }.
End Prompt.

Module PromptVersion.
Record t := mk
  { id : Z; promptId : Z; tenantId : Z; projectId : Z; version : Z;
    name : string; provider : string; model : string; body : string;
    slug : string }.
End PromptVersion.

Module PromptRouter.
Record t := mk
  { id : Z; promptId : Z; tenantId : Z; projectId : Z; version : Z }.
End PromptRouter.

Module DataSet.
Record t := mk
  { id : Z; tenantId : Z; projectId : Z; name : string; slug : string;
    isDeleted : bool; countOfRecords : Z; schema : schema_text }.
End DataSet.

Module DataSetRecord.
Record t := mk
  { id : Z; tenantId : Z; projectId : Z; dataSetId : Z;
    variables : json; isDeleted : bool }.
End DataSetRecord.

Global Instance Prompt_eq_dec : EqDecision Prompt.t.
Proof. solve_decision. Defined.
Global Instance PromptVersion_eq_dec : EqDecision PromptVersion.t.
Proof. solve_decision. Defined.
Global Instance PromptRouter_eq_dec : EqDecision PromptRouter.t.
Proof. solve_decision. Defined.

(** The columns [toWhereClause] asks of a table:
    [T extends { id; tenantId; projectId }]. *)
Class Row (A : Type) := {
  row_id : A → Z;
  row_tenantId : A → Z;
  row_projectId : A → Z;
}.

Global Instance Prompt_row : Row Prompt.t :=
  {| row_id := Prompt.id; row_tenantId := Prompt.tenantId;
     row_projectId := Prompt.projectId |}.
Global Instance PromptVersion_row : Row PromptVersion.t :=
  {| row_id := PromptVersion.id; row_tenantId := PromptVersion.tenantId;
     row_projectId := PromptVersion.projectId |}.
Global Instance PromptRouter_row : Row PromptRouter.t :=
  {| row_id := PromptRouter.id; row_tenantId := PromptRouter.tenantId;
     row_projectId := PromptRouter.projectId |}.
Global Instance DataSet_row : Row DataSet.t :=
  {| row_id := DataSet.id; row_tenantId := DataSet.tenantId;
     row_projectId := DataSet.projectId |}.
Global Instance DataSetRecord_row : Row DataSetRecord.t :=
  {| row_id := DataSetRecord.id; row_tenantId := DataSetRecord.tenantId;
     row_projectId := DataSetRecord.projectId |}.

(** ** The database *)

Record DB := mkDB {
  prompts : list Prompt.t;
  promptVersions : list PromptVersion.t;
  promptRouters : list PromptRouter.t;
  dataSets : list DataSet.t;
  dataSetRecords : list DataSetRecord.t;
}.

Definition set_prompts (f : list Prompt.t → list Prompt.t) (db : DB) : DB :=
  mkDB (f (prompts db)) (promptVersions db) (promptRouters db)
       (dataSets db) (dataSetRecords db).
Definition set_promptVersions
    (f : list PromptVersion.t → list PromptVersion.t) (db : DB) : DB :=
  mkDB (prompts db) (f (promptVersions db)) (promptRouters db)
       (dataSets db) (dataSetRecords db).
Definition set_promptRouters
    (f : list PromptRouter.t → list PromptRouter.t) (db : DB) : DB :=
  mkDB (prompts db) (promptVersions db) (f (promptRouters db))
       (dataSets db) (dataSetRecords db).
Definition set_dataSets (f : list DataSet.t → list DataSet.t) (db : DB) : DB :=
  mkDB (prompts db) (promptVersions db) (promptRouters db)
       (f (dataSets db)) (dataSetRecords db).
Definition set_dataSetRecords
    (f : list DataSetRecord.t → list DataSetRecord.t) (db : DB) : DB :=
  mkDB (prompts db) (promptVersions db) (promptRouters db)
       (dataSets db) (f (dataSetRecords db)).

(** Modelled from the spec: the table declarations (worker/db/schema.ts) are
    not among the sources; an inserted row gets a fresh integer id, here the
    successor of the largest id in its table, as SQLite numbers the rows of
    an integer primary key. *)
Definition next_id `{Row A} (table : list A) : Z :=
  1 + foldr Z.max 0 (row_id <$> table).

(** [UPDATE table SET ... WHERE cond]: every row the condition holds of is
    rewritten, the others stay. *)
Definition update_where {A} (cond : A → Prop) `{!∀ r, Decision (cond r)}
    (set : A → A) (table : list A) : list A :=
  (λ r, if decide (cond r) then set r else r) <$> table.

(** [SELECT ... WHERE cond LIMIT 1], destructured as [const [row] = ...]. *)
Definition select_first {A} (cond : A → Prop) `{!∀ r, Decision (cond r)}
    (table : list A) : option A :=
  head (filter cond table).

(** ** Computations: a state of type [DB], and [throw new Error(message)] *)

Inductive Outcome (A : Type) :=
| Returned (a : A)
| Thrown (message : string).
Global Arguments Returned {A} a.
Global Arguments Thrown {A} message.

Definition M (A : Type) : Type := DB → Outcome A * DB.

Global Instance M_ret : MRet M := λ A a db, (Returned a, db).
Global Instance M_bind : MBind M := λ A B k c db,
  match c db with
  | (Returned a, db') => k a db'
  | (Thrown e, db') => (Thrown e, db')
  end.

Global Instance M_fmap : FMap M := λ A B f c,
  mbind (M := M) (λ a, mret (f a)) c.

Definition throw {A} (message : string) : M A := λ db, (Thrown message, db).
Definition query {A} (f : DB → A) : M A := λ db, (Returned (f db), db).
Definition execute (f : DB → DB) : M unit := λ db, (Returned tt, f db).

(** ** EntityId.toWhereClause, PromptVersionId.toWhereClause *)

Definition toWhereClause `{Row A} (e : EntityId.t) (r : A) : Prop :=
  row_tenantId r = EntityId.tenantId e ∧
  row_projectId r = EntityId.projectId e ∧
  row_id r = EntityId.id e.

Global Instance toWhereClause_dec `{Row A} e (r : A) :
  Decision (toWhereClause e r).
Proof. unfold toWhereClause. apply _. Defined.

Definition versionWhereClause (v : PromptVersionId.t) (r : PromptVersion.t) : Prop :=
  PromptVersion.tenantId r = PromptVersionId.tenantId v ∧
  PromptVersion.projectId r = PromptVersionId.projectId v ∧
  PromptVersion.promptId r = PromptVersionId.promptId v ∧
  PromptVersion.version r = PromptVersionId.version v.

Global Instance versionWhereClause_dec v r : Decision (versionWhereClause v r).
Proof. unfold versionWhereClause. apply _. Defined.

(** ** PromptRepository (worker/prompts/prompt.repository.ts) *)

Module NewPrompt.
Record t := mk
  { tenantId : Z; projectId : Z; name : string; slug : string;
    provider : string; model : string; body : string;
    latestVersion : Z; isActive : bool }.
End NewPrompt.

Module NewPromptVersion.
Record t := mk
  { promptId : Z; tenantId : Z; projectId : Z; version : Z;
    name : string; provider : string; model : string; body : string;
    slug : string }.
End NewPromptVersion.

Module NewPromptRouter.
Record t := mk { promptId : Z; tenantId : Z; projectId : Z; version : Z }.
End NewPromptRouter.

(** The [data] argument of [PromptRepository.updatePrompt], as
    [PromptService.updatePrompt] fills it. *)
Module PromptData.
Record t := mk
  { name : string; provider : string; model : string; body : string;
    latestVersion : Z }.
End PromptData.

Module PromptRepository.

Definition activePrompt (p : Prompt.t) : Prop := Prompt.isActive p = true.

Definition promptInProject (projectId : ProjectId.t) (p : Prompt.t) : Prop :=
  Prompt.tenantId p = ProjectId.tenantId projectId ∧
  Prompt.projectId p = ProjectId.id projectId.

(** [ORDER BY updatedAt DESC] is left out with the timestamps: the rows
    come in table order, which is not the order of the code, and the
    list is described up to its order. *)
Definition findPrompts (projectId : ProjectId.t) (activeOnly : bool)
    : M (list Prompt.t) :=
  query (λ db,
    filter (λ p, promptInProject projectId p ∧
                 (activeOnly = true → activePrompt p)) (prompts db)).

Definition findPromptById (promptId : EntityId.t) : M (option Prompt.t) :=
  query (λ db, select_first (toWhereClause promptId) (prompts db)).

Definition slugWhereClause (projectId : ProjectId.t) (slug : string)
    (p : Prompt.t) : Prop :=
  Prompt.slug p = slug ∧
  Prompt.tenantId p = ProjectId.tenantId projectId ∧
  Prompt.projectId p = ProjectId.id projectId.

Definition findPromptBySlug (projectId : ProjectId.t) (slug : string)
    : M (option Prompt.t) :=
  query (λ db, select_first (slugWhereClause projectId slug) (prompts db)).

Definition insertPrompt (i : Z) (d : NewPrompt.t) : Prompt.t :=
  {| Prompt.id := i;
     Prompt.tenantId := NewPrompt.tenantId d;
     Prompt.projectId := NewPrompt.projectId d;
     Prompt.name := NewPrompt.name d;
     Prompt.slug := NewPrompt.slug d;
     Prompt.provider := NewPrompt.provider d;
     Prompt.model := NewPrompt.model d;
     Prompt.body := NewPrompt.body d;
     Prompt.latestVersion := NewPrompt.latestVersion d;
     Prompt.isActive := NewPrompt.isActive d |}.

(** Modelled from the spec: the table declarations (worker/db/schema.ts)
    are not among the sources.  The tests of [createPrompt]
    (tests/worker/prompts/service/create-prompt.test.ts) show two unique
    indexes on the Prompts table: a tenant and project hold a name once
    and a slug once.  A statement that writes a row with the name, or
    with the slug, of another row of its tenant and project is rejected
    by the database: it throws, and it writes nothing. *)
Definition nameHeld (tenantId projectId : Z) (name : string)
    (table : list Prompt.t) : Prop :=
  Exists (λ p, Prompt.tenantId p = tenantId ∧ Prompt.projectId p = projectId ∧
               Prompt.name p = name) table.

Definition slugHeld (tenantId projectId : Z) (slug : string)
    (table : list Prompt.t) : Prop :=
  Exists (λ p, Prompt.tenantId p = tenantId ∧ Prompt.projectId p = projectId ∧
               Prompt.slug p = slug) table.

Global Instance nameHeld_dec tenantId projectId name table :
  Decision (nameHeld tenantId projectId name table).
Proof. unfold nameHeld. apply _. Defined.

Global Instance slugHeld_dec tenantId projectId slug table :
  Decision (slugHeld tenantId projectId slug table).
Proof. unfold slugHeld. apply _. Defined.

(** Modelled from the spec: the error of the database for a write that a
    unique index rejects; the sources do not show its message, which is
    none of the messages the services throw themselves. *)
Definition uniqueConstraintFailed : string := "UNIQUE constraint failed".

(** The rows an [UPDATE ... WHERE entityId] leaves alone. *)
Definition otherPrompts (promptId : EntityId.t) (table : list Prompt.t)
    : list Prompt.t :=
  filter (λ p, ¬ toWhereClause promptId p) table.

Definition createPrompt (data : NewPrompt.t) : M Prompt.t := λ db,
  if decide (nameHeld (NewPrompt.tenantId data) (NewPrompt.projectId data)
               (NewPrompt.name data) (prompts db) ∨
             slugHeld (NewPrompt.tenantId data) (NewPrompt.projectId data)
               (NewPrompt.slug data) (prompts db))
  then (Thrown uniqueConstraintFailed, db)
  else
    let prompt := insertPrompt (next_id (prompts db)) data in
    (Returned prompt, set_prompts (λ t, t ++ [prompt]) db).

Definition setPromptData (d : PromptData.t) (p : Prompt.t) : Prompt.t :=
  {| Prompt.id := Prompt.id p;
     Prompt.tenantId := Prompt.tenantId p;
     Prompt.projectId := Prompt.projectId p;
     Prompt.name := PromptData.name d;
     Prompt.slug := Prompt.slug p;
     Prompt.provider := PromptData.provider d;
     Prompt.model := PromptData.model d;
     Prompt.body := PromptData.body d;
     Prompt.latestVersion := PromptData.latestVersion d;
     Prompt.isActive := Prompt.isActive p |}.

(** The statement writes the name; the slug stays.  The id is the primary
    key, so the rows it writes do not collide with one another. *)
Definition updatePrompt (promptId : EntityId.t) (data : PromptData.t)
    : M unit := λ db,
  if decide (Exists (toWhereClause promptId) (prompts db) ∧
             nameHeld (EntityId.tenantId promptId) (EntityId.projectId promptId)
               (PromptData.name data) (otherPrompts promptId (prompts db)))
  then (Thrown uniqueConstraintFailed, db)
  else
    execute (set_prompts
               (update_where (toWhereClause promptId) (setPromptData data))) db.

Definition setPromptInactive (p : Prompt.t) : Prompt.t :=
  {| Prompt.id := Prompt.id p;
     Prompt.tenantId := Prompt.tenantId p;
     Prompt.projectId := Prompt.projectId p;
     Prompt.name := Prompt.name p;
     Prompt.slug := Prompt.slug p;
     Prompt.provider := Prompt.provider p;
     Prompt.model := Prompt.model p;
     Prompt.body := Prompt.body p;
     Prompt.latestVersion := Prompt.latestVersion p;
     Prompt.isActive := false |}.

Definition deactivatePrompt (promptId : EntityId.t) : M unit :=
  execute (set_prompts (update_where (toWhereClause promptId) setPromptInactive)).

Definition setPromptName (name slug : string) (p : Prompt.t) : Prompt.t :=
  {| Prompt.id := Prompt.id p;
     Prompt.tenantId := Prompt.tenantId p;
     Prompt.projectId := Prompt.projectId p;
     Prompt.name := name;
     Prompt.slug := slug;
     Prompt.provider := Prompt.provider p;
     Prompt.model := Prompt.model p;
     Prompt.body := Prompt.body p;
     Prompt.latestVersion := Prompt.latestVersion p;
     Prompt.isActive := Prompt.isActive p |}.

(** The statement writes the name and the slug. *)
Definition renamePrompt (promptId : EntityId.t) (name slug : string)
    : M unit := λ db,
  if decide (Exists (toWhereClause promptId) (prompts db) ∧
             (nameHeld (EntityId.tenantId promptId) (EntityId.projectId promptId)
                name (otherPrompts promptId (prompts db)) ∨
              slugHeld (EntityId.tenantId promptId) (EntityId.projectId promptId)
                slug (otherPrompts promptId (prompts db))))
  then (Thrown uniqueConstraintFailed, db)
  else
    execute (set_prompts
               (update_where (toWhereClause promptId) (setPromptName name slug)))
      db.

Definition versionOfPrompt (promptId : EntityId.t) (v : PromptVersion.t) : Prop :=
  PromptVersion.promptId v = EntityId.id promptId ∧
  PromptVersion.tenantId v = EntityId.tenantId promptId ∧
  PromptVersion.projectId v = EntityId.projectId promptId.

(** Insertion into a list that is descending in [key]: the
    [ORDER BY version DESC] of [findPromptVersions].  SQL leaves the order
    of rows with equal keys open. *)
Fixpoint insert_desc {A} (key : A → Z) (x : A) (l : list A) : list A :=
  match l with
  | [] => [x]
  | y :: l' => if decide (key y < key x) then x :: l else y :: insert_desc key x l'
  end.

Definition order_desc {A} (key : A → Z) (l : list A) : list A :=
  foldr (insert_desc key) [] l.

Definition findPromptVersions (promptId : EntityId.t)
    : M (list PromptVersion.t) :=
  query (λ db,
    order_desc PromptVersion.version
      (filter (versionOfPrompt promptId) (promptVersions db))).

(** [findPromptVersion(promptId, version)] *)
Definition findPromptVersion (promptId : EntityId.t) (version : Z)
    : M (option PromptVersion.t) :=
  query (λ db,
    select_first (λ v, versionOfPrompt promptId v ∧ PromptVersion.version v = version)
      (promptVersions db)).

(** [findPromptVersion(versionId)], the [instanceof PromptVersionId] branch *)
Definition findPromptVersionOfId (versionId : PromptVersionId.t)
    : M (option PromptVersion.t) :=
  query (λ db, select_first (versionWhereClause versionId) (promptVersions db)).

Definition findPromptVersionById (projectId : ProjectId.t) (versionId : Z)
    : M (option PromptVersion.t) :=
  query (λ db,
    select_first (λ v, PromptVersion.id v = versionId ∧
                       PromptVersion.tenantId v = ProjectId.tenantId projectId ∧
                       PromptVersion.projectId v = ProjectId.id projectId)
      (promptVersions db)).

Definition insertPromptVersion (i : Z) (d : NewPromptVersion.t) : PromptVersion.t :=
  {| PromptVersion.id := i;
     PromptVersion.promptId := NewPromptVersion.promptId d;
     PromptVersion.tenantId := NewPromptVersion.tenantId d;
     PromptVersion.projectId := NewPromptVersion.projectId d;
     PromptVersion.version := NewPromptVersion.version d;
     PromptVersion.name := NewPromptVersion.name d;
     PromptVersion.provider := NewPromptVersion.provider d;
     PromptVersion.model := NewPromptVersion.model d;
     PromptVersion.body := NewPromptVersion.body d;
     PromptVersion.slug := NewPromptVersion.slug d |}.

Definition createPromptVersion (data : NewPromptVersion.t)
    : M PromptVersion.t := λ db,
  let version := insertPromptVersion (next_id (promptVersions db)) data in
  (Returned version, set_promptVersions (λ t, t ++ [version]) db).

Definition routerOfPrompt (promptId : EntityId.t) (r : PromptRouter.t) : Prop :=
  PromptRouter.promptId r = EntityId.id promptId ∧
  PromptRouter.tenantId r = EntityId.tenantId promptId ∧
  PromptRouter.projectId r = EntityId.projectId promptId.

Definition findPromptRouter (promptId : EntityId.t)
    : M (option PromptRouter.t) :=
  query (λ db, select_first (routerOfPrompt promptId) (promptRouters db)).

Definition insertPromptRouter (i : Z) (d : NewPromptRouter.t) : PromptRouter.t :=
  {| PromptRouter.id := i;
     PromptRouter.promptId := NewPromptRouter.promptId d;
     PromptRouter.tenantId := NewPromptRouter.tenantId d;
     PromptRouter.projectId := NewPromptRouter.projectId d;
     PromptRouter.version := NewPromptRouter.version d |}.

Definition createPromptRouter (data : NewPromptRouter.t)
    : M PromptRouter.t := λ db,
  let router := insertPromptRouter (next_id (promptRouters db)) data in
  (Returned router, set_promptRouters (λ t, t ++ [router]) db).

Definition routerWhereClause (promptId : EntityId.t) (routerId : Z)
    (r : PromptRouter.t) : Prop :=
  PromptRouter.id r = routerId ∧
  PromptRouter.tenantId r = EntityId.tenantId promptId ∧
  PromptRouter.projectId r = EntityId.projectId promptId.

Definition setRouterVersionColumn (version : Z) (r : PromptRouter.t)
    : PromptRouter.t :=
  {| PromptRouter.id := PromptRouter.id r;
     PromptRouter.promptId := PromptRouter.promptId r;
     PromptRouter.tenantId := PromptRouter.tenantId r;
     PromptRouter.projectId := PromptRouter.projectId r;
     PromptRouter.version := version |}.

Definition updatePromptRouterVersion (promptId : EntityId.t) (routerId version : Z)
    : M unit :=
  execute (set_promptRouters
    (update_where (routerWhereClause promptId routerId)
                  (setRouterVersionColumn version))).

End PromptRepository.

(** ** PromptService (worker/prompts/prompt.service.ts) *)

Module CreatePromptInput.
Record t := mk
  { name : string; slug : string; provider : string; model : string;
    body : string }.
End CreatePromptInput.

(** [UpdatePromptInput]: every field is optional; [None] is [undefined]. *)
Module UpdatePromptInput.
Record t := mk
  { name : option string; provider : option string; model : option string;
    body : option string }.
End UpdatePromptInput.

(** [a ?? b] *)
Definition nullish {A} (a : option A) (b : A) : A := default b a.
Infix "??" := nullish (at level 45, left associativity).

(** [String.prototype.toLowerCase] and [split(/[^a-z0-9]/)] on a string of
    ASCII characters, which is what a Rocq [string] holds. *)
Definition toLowerCaseChar (c : ascii) : ascii :=
  let n := nat_of_ascii c in
  if decide (65 ≤ n ≤ 90)%nat then ascii_of_nat (n + 32) else c.

Fixpoint toLowerCase (s : string) : string :=
  match s with
  | EmptyString => EmptyString
  | String c s' => String (toLowerCaseChar c) (toLowerCase s')
  end.

Definition isSlugChar (c : ascii) : bool :=
  let n := nat_of_ascii c in
  bool_decide (97 ≤ n ≤ 122)%nat || bool_decide (48 ≤ n ≤ 57)%nat.

Fixpoint splitNonSlug (s : string) : list string :=
  match s with
  | EmptyString => [EmptyString]
  | String c s' =>
      if isSlugChar c then
        match splitNonSlug s' with
        | segment :: rest => String c segment :: rest
        | [] => [String c EmptyString]
        end
      else EmptyString :: splitNonSlug s'
  end.

Definition generateSlug (name : string) : string :=
  String.concat "-"
    (filter (λ segment, segment ≠ EmptyString) (splitNonSlug (toLowerCase name))).

Module PromptService.
Import PromptRepository.

Definition createPrompt (projectId : ProjectId.t) (input : CreatePromptInput.t)
    : M Prompt.t :=
  let version := 1 in
  prompt ← PromptRepository.createPrompt
    {| NewPrompt.tenantId := ProjectId.tenantId projectId;
       NewPrompt.projectId := ProjectId.id projectId;
       NewPrompt.name := CreatePromptInput.name input;
       NewPrompt.slug := CreatePromptInput.slug input;
       NewPrompt.provider := CreatePromptInput.provider input;
       NewPrompt.model := CreatePromptInput.model input;
       NewPrompt.body := CreatePromptInput.body input;
       NewPrompt.latestVersion := version;
       NewPrompt.isActive := true |};
  _ ← createPromptVersion
    {| NewPromptVersion.promptId := Prompt.id prompt;
       NewPromptVersion.tenantId := ProjectId.tenantId projectId;
       NewPromptVersion.projectId := ProjectId.id projectId;
       NewPromptVersion.version := version;
       NewPromptVersion.name := CreatePromptInput.name input;
       NewPromptVersion.provider := CreatePromptInput.provider input;
       NewPromptVersion.model := CreatePromptInput.model input;
       NewPromptVersion.body := CreatePromptInput.body input;
       NewPromptVersion.slug := CreatePromptInput.slug input |};
  _ ← createPromptRouter
    {| NewPromptRouter.promptId := Prompt.id prompt;
       NewPromptRouter.tenantId := ProjectId.tenantId projectId;
       NewPromptRouter.projectId := ProjectId.id projectId;
       NewPromptRouter.version := version |};
  mret prompt.

(** The router step shared by [updatePrompt] and [setRouterVersion]:
    overwrite the router found for the prompt, or insert one. *)
Definition pointRouter (promptId : EntityId.t) (version : Z) : M unit :=
  existingRouter ← findPromptRouter promptId;
  match existingRouter with
  | Some router =>
      updatePromptRouterVersion promptId (PromptRouter.id router) version
  | None =>
      _ ← createPromptRouter
        {| NewPromptRouter.promptId := EntityId.id promptId;
           NewPromptRouter.tenantId := EntityId.tenantId promptId;
           NewPromptRouter.projectId := EntityId.projectId promptId;
           NewPromptRouter.version := version |};
      mret tt
  end.

Definition updatePrompt (promptId : EntityId.t) (input : UpdatePromptInput.t)
    : M Z :=
  currentPrompt ← findPromptById promptId;
  match currentPrompt with
  | None => throw "Prompt not found"
  | Some currentPrompt =>
      let newVersion := Prompt.latestVersion currentPrompt + 1 in
      _ ← PromptRepository.updatePrompt promptId
        {| PromptData.name :=
             UpdatePromptInput.name input ?? Prompt.name currentPrompt;
           PromptData.provider :=
             UpdatePromptInput.provider input ?? Prompt.provider currentPrompt;
           PromptData.model :=
             UpdatePromptInput.model input ?? Prompt.model currentPrompt;
           PromptData.body :=
             UpdatePromptInput.body input ?? Prompt.body currentPrompt;
           PromptData.latestVersion := newVersion |};
      _ ← createPromptVersion
        {| NewPromptVersion.promptId := EntityId.id promptId;
           NewPromptVersion.tenantId := EntityId.tenantId promptId;
           NewPromptVersion.projectId := EntityId.projectId promptId;
           NewPromptVersion.version := newVersion;
           NewPromptVersion.name :=
             UpdatePromptInput.name input ?? Prompt.name currentPrompt;
           NewPromptVersion.provider :=
             UpdatePromptInput.provider input ?? Prompt.provider currentPrompt;
           NewPromptVersion.model :=
             UpdatePromptInput.model input ?? Prompt.model currentPrompt;
           NewPromptVersion.body :=
             UpdatePromptInput.body input ?? Prompt.body currentPrompt;
           NewPromptVersion.slug := Prompt.slug currentPrompt |};
      _ ← pointRouter promptId newVersion;
      mret 1   (* { count: 1 } *)
  end.

Definition getPromptById (promptId : EntityId.t)
    : M (option (Prompt.t * option PromptVersion.t)) :=
  prompt ← findPromptById promptId;
  match prompt with
  | None => mret None
  | Some prompt =>
      latestVersion ← findPromptVersion promptId (Prompt.latestVersion prompt);
      mret (Some (prompt, latestVersion))
  end.

Definition getPromptVersion (versionId : PromptVersionId.t)
    : M (option PromptVersion.t) :=
  findPromptVersionOfId versionId.

Definition getPromptVersionById (projectId : ProjectId.t) (versionId : Z)
    : M (option PromptVersion.t) :=
  findPromptVersionById projectId versionId.

Definition listPromptVersions (promptId : EntityId.t)
    : M (list PromptVersion.t) :=
  findPromptVersions promptId.

Definition listPrompts (projectId : ProjectId.t) : M (list Prompt.t) :=
  findPrompts projectId true.

Definition deactivatePrompt (promptId : EntityId.t) : M unit :=
  PromptRepository.deactivatePrompt promptId.

Definition getPromptBySlug (projectId : ProjectId.t) (slug : string)
    : M (option Prompt.t) :=
  findPromptBySlug projectId slug.

(** [null] is [None]: [return version ?? null]. *)
Definition getActivePromptVersion (promptId : EntityId.t)
    : M (option PromptVersion.t) :=
  router ← findPromptRouter promptId;
  match router with
  | None => mret None
  | Some router => findPromptVersion promptId (PromptRouter.version router)
  end.

Definition getActiveRouterVersion (promptId : EntityId.t) : M (option Z) :=
  router ← findPromptRouter promptId;
  mret (PromptRouter.version <$> router).

Definition setRouterVersion (promptId : EntityId.t) (version : Z) : M unit :=
  versionExists ← findPromptVersion promptId version;
  match versionExists with
  | None => throw "Version not found"
  | Some _ => pointRouter promptId version
  end.

(** The [while (true)] loop of [copyPrompt], entered with the variables
    [newName], [newSlug] and [copyNumber]; [fuel] bounds the number of
    probes, and [None] is a loop that has not reached its [break]. *)
Fixpoint copyPromptLoop (fuel : nat) (projectId : ProjectId.t)
    (sourcePrompt : Prompt.t) (newName newSlug : string) (copyNumber : Z)
    : M (option (string * string)) :=
  match fuel with
  | O => mret None
  | S fuel =>
      existingPrompt ← findPromptBySlug projectId newSlug;
      match existingPrompt with
      | None => mret (Some (newName, newSlug))
      | Some _ =>
          let copyNumber := copyNumber + 1 in
          copyPromptLoop fuel projectId sourcePrompt
            (Prompt.name sourcePrompt +:+ " Copy " +:+ pretty copyNumber)
            (Prompt.slug sourcePrompt +:+ "-copy-" +:+ pretty copyNumber)
            copyNumber
      end
  end.

Definition copyPrompt (fuel : nat) (promptId : EntityId.t)
    : M (option Prompt.t) :=
  sourcePrompt ← findPromptById promptId;
  match sourcePrompt with
  | None => throw "Source prompt not found"
  | Some sourcePrompt =>
      let projectId := EntityId.getProjectId promptId in
      names ← copyPromptLoop fuel projectId sourcePrompt
        (Prompt.name sourcePrompt +:+ " Copy")
        (Prompt.slug sourcePrompt +:+ "-copy") 1;
      match names with
      | None => mret None
      | Some (newName, newSlug) =>
          newPrompt ← PromptRepository.createPrompt
            {| NewPrompt.tenantId := EntityId.tenantId promptId;
               NewPrompt.projectId := EntityId.projectId promptId;
               NewPrompt.name := newName;
               NewPrompt.slug := newSlug;
               NewPrompt.provider := Prompt.provider sourcePrompt;
               NewPrompt.model := Prompt.model sourcePrompt;
               NewPrompt.body := Prompt.body sourcePrompt;
               NewPrompt.latestVersion := 1;
               NewPrompt.isActive := true |};
          _ ← createPromptVersion
            {| NewPromptVersion.promptId := Prompt.id newPrompt;
               NewPromptVersion.tenantId := EntityId.tenantId promptId;
               NewPromptVersion.projectId := EntityId.projectId promptId;
               NewPromptVersion.version := 1;
               NewPromptVersion.name := newName;
               NewPromptVersion.provider := Prompt.provider sourcePrompt;
               NewPromptVersion.model := Prompt.model sourcePrompt;
               NewPromptVersion.body := Prompt.body sourcePrompt;
               NewPromptVersion.slug := newSlug |};
          _ ← createPromptRouter
            {| NewPromptRouter.promptId := Prompt.id newPrompt;
               NewPromptRouter.tenantId := EntityId.tenantId promptId;
               NewPromptRouter.projectId := EntityId.projectId promptId;
               NewPromptRouter.version := 1 |};
          mret (Some newPrompt)
      end
  end.

Definition renamePrompt (promptId : EntityId.t) (name : string)
    : M Prompt.t :=
  existingPrompt ← findPromptById promptId;
  match existingPrompt with
  | None => throw "Prompt not found"
  | Some _ =>
      let generatedSlug := generateSlug name in
      let projectId := EntityId.getProjectId promptId in
      slugConflict ← findPromptBySlug projectId generatedSlug;
      match slugConflict with
      | Some conflict =>
          if decide (Prompt.id conflict ≠ EntityId.id promptId)
          then throw "Slug already in use"
          else mret tt
      | None => mret tt
      end;;
      PromptRepository.renamePrompt promptId name generatedSlug;;
      updatedPrompt ← findPromptById promptId;
      match updatedPrompt with
      | None => throw "Failed to retrieve updated prompt"
      | Some updatedPrompt => mret updatedPrompt
      end
  end.

End PromptService.

(** ** Plain JavaScript objects used as maps

    [collectFields] and the schema keep their entries in object literals
    [{}], read and written with [object[key]].  The own properties of such
    an object are a finite map; a read that finds no own property goes on
    to the prototype, and a write to [__proto__] that finds no own property
    reaches the accessor of [Object.prototype] instead of creating one. *)

(** The property names of [Object.prototype]. *)
Definition Object_prototype_names : list string :=
  [ "constructor"; "__defineGetter__"; "__defineSetter__"; "hasOwnProperty";
    "__lookupGetter__"; "__lookupSetter__"; "isPrototypeOf";
    "propertyIsEnumerable"; "toString"; "valueOf"; "__proto__";
    "toLocaleString" ].

(** The own entry of a parsed object under [key]. *)
Fixpoint entry (key : string) (entries : list (string * json)) : option json :=
  match entries with
  | [] => None
  | (k, v) :: rest => if decide (k = key) then Some v else entry key rest
  end.

(** What [object[key]] evaluates to. *)
Inductive jsvalue :=
| Undefined
| Value (v : json)
| Builtin.   (* a function of Object.prototype *)

(** [!x] is [negb (truthy x)]. *)
Definition truthy (x : jsvalue) : bool :=
  match x with
  | Undefined => false
  | Builtin => true
  | Value JNull => false
  | Value (JBool b) => b
  | Value (JNum n) => bool_decide (n ≠ 0)
  | Value (JStr s) => bool_decide (s ≠ "")
  | Value (JArr _) => true
  | Value (JObj _) => true
  end.

(** [x.type] for a value that [!x] let through: only a parsed object can
    have the property. *)
Definition typeProperty (x : jsvalue) : jsvalue :=
  match x with
  | Value (JObj entries) => from_option Value Undefined (entry "type" entries)
  | _ => Undefined
  end.

(** [x !== s] for a string [s]. *)
Definition differsFrom (x : jsvalue) (s : string) : bool :=
  match x with
  | Value (JStr t) => bool_decide (t ≠ s)
  | _ => true
  end.

(** The object literal [{ type }]. *)
Definition typeObject (type : string) : json := JObj [("type", JStr type)].

(** [DataSetSchema]: the [fields] object.  [protoType] is [Some t] once an
    assignment to [fields.__proto__] has made the object [{ type: t }] its
    prototype; until then the prototype is [Object.prototype]. *)
Record DataSetSchema := mkSchema {
  fields : gmap string json;
  protoType : option string;
}.

Definition emptySchema : DataSetSchema := mkSchema ∅ None.   (* { fields: {} } *)

(** [schema.fields[path]] *)
Definition getField (schema : DataSetSchema) (path : string) : jsvalue :=
  match fields schema !! path with
  | Some v => Value v
  | None =>
      match protoType schema with
      | Some t =>
          if decide (path = "type") then Value (JStr t)
          else if decide (path = "__proto__") then Value (typeObject t)
          else if decide (path ∈ Object_prototype_names) then Builtin
          else Undefined
      | None =>
          if decide (path = "__proto__") then Value (JObj [])
          else if decide (path ∈ Object_prototype_names) then Builtin
          else Undefined
      end
  end.

(** [schema.fields[path] = { type }] *)
Definition setField (schema : DataSetSchema) (path type : string) : DataSetSchema :=
  if decide (path = "__proto__" ∧ fields schema !! path = None)
  then mkSchema (fields schema) (Some type)
  else mkSchema (<[path := typeObject type]> (fields schema)) (protoType schema).

(** [fields[path] = type] in [collectFields], where [fields] starts as [{}]
    and [type] is a string: the setter of [__proto__] ignores a string. *)
Definition setString (fields : gmap string string) (path type : string)
    : gmap string string :=
  if decide (path = "__proto__") then fields else <[path := type]> fields.

(** [Object.assign(target, source)]: every own entry of [source] is
    assigned to [target]. *)
Definition Object_assign (target source : gmap string string)
    : gmap string string :=
  map_fold (λ key value target, setString target key value) target source.

(** ** Schema inference (DataSetService, worker/datasets/dataset.service.ts) *)

(** [prefix || "value"] *)
Definition pathOf (prefix : string) : string :=
  if decide (prefix = "") then "value" else prefix.

(** [prefix ? `${prefix}.${key}` : key] *)
Definition nextPrefixOf (prefix key : string) : string :=
  if decide (prefix = "") then key else prefix +:+ "." +:+ key.

Fixpoint collectFields (value : json) (prefix : string) : gmap string string :=
  let path := pathOf prefix in
  match value with
  | JNull => setString ∅ path "null"
  | JArr _ => setString ∅ path "array"
  | JObj entries =>
      match entries, bool_decide (prefix ≠ "") with
      | [], true => setString ∅ path "object"
      | _, _ =>
          (fix loop (entries : list (string * json)) (fields : gmap string string) :=
             match entries with
             | [] => fields
             | (key, next) :: entries =>
                 loop entries
                   (Object_assign fields (collectFields next (nextPrefixOf prefix key)))
             end) entries ∅
      end
  | JBool _ => setString ∅ path "boolean"
  | JNum _ => setString ∅ path "number"
  | JStr _ => setString ∅ path "string"
  end.

(** The body of the loop of [mergeSchema] for one [[path, type]]. *)
Definition mergeField (schema : DataSetSchema) (path type : string)
    : DataSetSchema :=
  let existing := getField schema path in
  if negb (truthy existing) then setField schema path type
  else if differsFrom (typeProperty existing) type
          && differsFrom (typeProperty existing) "mixed"
       then setField schema path "mixed"
       else schema.

(** [mergeSchema] mutates its argument; the schema it leaves is returned.
    The loop visits every entry of [collectFields(variables)] once. *)
Definition mergeSchema (schema : DataSetSchema) (variables : json)
    : DataSetSchema :=
  map_fold (λ path type schema, mergeField schema path type)
    schema (collectFields variables "").

(** [getFieldType] inside [parseSchema]; [None] is [null].
    [String(typeValue)] is the decimal numeral of the integer a JSON
    number is kept as; the numbers that JavaScript rounds or prints with
    an exponent (from 2^53 on) are outside the model. *)
Definition getFieldType (field : json) : option string :=
  match field with
  | JStr s => Some s
  | JObj entries =>
      match entry "type" entries with
      | None => None
      | Some (JStr typeValue) => Some typeValue
      | Some (JNum typeValue) => Some (pretty typeValue)
      | Some _ => Some "unknown"
      end
  | _ => None
  end.

(** [Object.entries] of an array: its indices, as strings, with its items. *)
Definition arrayEntries (items : list json) : list (string * json) :=
  imap (λ i item, (pretty i, item)) items.

(** [{ ...object }]: the own entries become own properties. *)
Definition spread (entries : list (string * json)) : gmap string json :=
  foldl (λ object '(key, value), <[key := value]> object) ∅ entries.

(** The last loop of [parseSchema], over [Object.entries(parsed)]. *)
Definition legacyFields (entries : list (string * json)) : DataSetSchema :=
  foldl (λ schema '(key, field),
           match getFieldType field with
           | None => schema
           | Some type =>
               if decide (type = "") then schema else setField schema key type
           end) emptySchema entries.

Definition parseSchema (value : schema_text) : DataSetSchema :=
  match value with
  | TextEmpty => emptySchema
  | TextInvalid _ => emptySchema
  | TextJson parsed =>
      match parsed with
      | JObj entries =>
          match entry "fields" entries with
          | Some (JObj parsedFields) => mkSchema (spread parsedFields) None
          | Some (JArr parsedFields) =>
              mkSchema (spread (arrayEntries parsedFields)) None
          | _ => legacyFields entries
          end
      | JArr items => legacyFields (arrayEntries items)
      | _ => emptySchema
      end
  end.

(** [JSON.stringify(schema)], as the stored column reads back. *)
Definition stringifySchema (schema : DataSetSchema) : schema_text :=
  TextJson (JObj [("fields", JObj (map_to_list (fields schema)))]).

(** ** DataSetRepository (worker/datasets/dataset.repository.ts) *)

Definition setCountOfRecords (f : Z → Z) (d : DataSet.t) : DataSet.t :=
  {| DataSet.id := DataSet.id d;
     DataSet.tenantId := DataSet.tenantId d;
     DataSet.projectId := DataSet.projectId d;
     DataSet.name := DataSet.name d;
     DataSet.slug := DataSet.slug d;
     DataSet.isDeleted := DataSet.isDeleted d;
     DataSet.countOfRecords := f (DataSet.countOfRecords d);
     DataSet.schema := DataSet.schema d |}.

Definition setDataSetDeleted (d : DataSet.t) : DataSet.t :=
  {| DataSet.id := DataSet.id d;
     DataSet.tenantId := DataSet.tenantId d;
     DataSet.projectId := DataSet.projectId d;
     DataSet.name := DataSet.name d;
     DataSet.slug := DataSet.slug d;
     DataSet.isDeleted := true;
     DataSet.countOfRecords := DataSet.countOfRecords d;
     DataSet.schema := DataSet.schema d |}.

Definition setSchema (schema : schema_text) (d : DataSet.t) : DataSet.t :=
  {| DataSet.id := DataSet.id d;
     DataSet.tenantId := DataSet.tenantId d;
     DataSet.projectId := DataSet.projectId d;
     DataSet.name := DataSet.name d;
     DataSet.slug := DataSet.slug d;
     DataSet.isDeleted := DataSet.isDeleted d;
     DataSet.countOfRecords := DataSet.countOfRecords d;
     DataSet.schema := schema |}.

Module NewDataSet.
Record t := mk
  { tenantId : Z; projectId : Z; name : string; slug : string;
    isDeleted : bool; countOfRecords : Z; schema : schema_text }.
End NewDataSet.

Definition insertDataSet (i : Z) (d : NewDataSet.t) : DataSet.t :=
  {| DataSet.id := i;
     DataSet.tenantId := NewDataSet.tenantId d;
     DataSet.projectId := NewDataSet.projectId d;
     DataSet.name := NewDataSet.name d;
     DataSet.slug := NewDataSet.slug d;
     DataSet.isDeleted := NewDataSet.isDeleted d;
     DataSet.countOfRecords := NewDataSet.countOfRecords d;
     DataSet.schema := NewDataSet.schema d |}.

(** The rows [findBySlug] selects. *)
Definition liveSlugOf (tenantId projectId : Z) (slug : string) (d : DataSet.t)
    : Prop :=
  DataSet.tenantId d = tenantId ∧
  DataSet.projectId d = projectId ∧
  DataSet.slug d = slug ∧
  DataSet.isDeleted d = false.

Module DataSetRepository.

Definition findById (entityId : EntityId.t) : M (option DataSet.t) :=
  query (λ db,
    select_first (λ d, toWhereClause entityId d ∧ DataSet.isDeleted d = false)
      (dataSets db)).

Definition incrementRecordCount (entityId : EntityId.t) : M unit :=
  execute (set_dataSets
    (update_where (toWhereClause entityId) (setCountOfRecords (λ c, c + 1)))).

Definition incrementRecordCountBy (entityId : EntityId.t) (amount : Z)
    : M unit :=
  if decide (amount = 0) then mret tt
  else execute (set_dataSets
    (update_where (toWhereClause entityId) (setCountOfRecords (λ c, c + amount)))).

Definition decrementRecordCount (entityId : EntityId.t) : M unit :=
  execute (set_dataSets
    (update_where (toWhereClause entityId) (setCountOfRecords (λ c, c - 1)))).

Definition softDelete (entityId : EntityId.t) : M unit :=
  execute (set_dataSets (update_where (toWhereClause entityId) setDataSetDeleted)).

Definition updateSchema (entityId : EntityId.t) (schema : schema_text)
    : M unit :=
  execute (set_dataSets (update_where (toWhereClause entityId) (setSchema schema))).

(** [findBySlug({ tenantId, projectId, slug })] *)
Definition findBySlug (tenantId projectId : Z) (slug : string)
    : M (option DataSet.t) :=
  query (λ db, select_first (liveSlugOf tenantId projectId slug) (dataSets db)).

Definition create (newDataSet : NewDataSet.t) : M DataSet.t := λ db,
  let dataset := insertDataSet (next_id (dataSets db)) newDataSet in
  (Returned dataset, set_dataSets (λ t, t ++ [dataset]) db).

End DataSetRepository.

(** ** DataSetRecordRepository (worker/datasets/dataset-record.repository.ts) *)

Module NewDataSetRecord.
Record t := mk
  { tenantId : Z; projectId : Z; dataSetId : Z; variables : json;
    isDeleted : bool }.
End NewDataSetRecord.

(** [Pagination] of worker/types/common.ts, as the service reads it. *)
Module Pagination.
Record t := mk { page : Z; pageSize : Z }.
End Pagination.

Definition insertDataSetRecord (i : Z) (d : NewDataSetRecord.t) : DataSetRecord.t :=
  {| DataSetRecord.id := i;
     DataSetRecord.tenantId := NewDataSetRecord.tenantId d;
     DataSetRecord.projectId := NewDataSetRecord.projectId d;
     DataSetRecord.dataSetId := NewDataSetRecord.dataSetId d;
     DataSetRecord.variables := NewDataSetRecord.variables d;
     DataSetRecord.isDeleted := NewDataSetRecord.isDeleted d |}.

Definition setRecordDeleted (r : DataSetRecord.t) : DataSetRecord.t :=
  {| DataSetRecord.id := DataSetRecord.id r;
     DataSetRecord.tenantId := DataSetRecord.tenantId r;
     DataSetRecord.projectId := DataSetRecord.projectId r;
     DataSetRecord.dataSetId := DataSetRecord.dataSetId r;
     DataSetRecord.variables := DataSetRecord.variables r;
     DataSetRecord.isDeleted := true |}.

(** The rows [listByDataSet], [listByDataSetPaginated] and
    [listBatchByDataSet] select. *)
Definition liveRecordOf (dataSetId : EntityId.t) (r : DataSetRecord.t) : Prop :=
  DataSetRecord.tenantId r = EntityId.tenantId dataSetId ∧
  DataSetRecord.projectId r = EntityId.projectId dataSetId ∧
  DataSetRecord.dataSetId r = EntityId.id dataSetId ∧
  DataSetRecord.isDeleted r = false.

(** The rows [softDeleteMany] updates. *)
Definition softDeleteWhere (dataSetId : EntityId.t) (recordIds : list Z)
    (r : DataSetRecord.t) : Prop :=
  DataSetRecord.tenantId r = EntityId.tenantId dataSetId ∧
  DataSetRecord.projectId r = EntityId.projectId dataSetId ∧
  DataSetRecord.dataSetId r = EntityId.id dataSetId ∧
  DataSetRecord.id r ∈ recordIds ∧
  DataSetRecord.isDeleted r = false.

Module DataSetRecordRepository.

(** One [INSERT] of several rows: they are numbered in order. *)
Definition createMany (records : list NewDataSetRecord.t)
    : M (list DataSetRecord.t) := λ db,
  let first := next_id (dataSetRecords db) in
  let rows := imap (λ i d, insertDataSetRecord (first + Z.of_nat i) d) records in
  (Returned rows, set_dataSetRecords (λ t, t ++ rows) db).

Definition findById (recordId : EntityId.t) : M (option DataSetRecord.t) :=
  query (λ db,
    select_first (λ r, toWhereClause recordId r ∧ DataSetRecord.isDeleted r = false)
      (dataSetRecords db)).

(** [ORDER BY createdAt DESC]: rows are appended as they are created, so
    the newest rows are the last of the table.  The reverse of the table
    is the order of the code when no two records of the dataset are
    created within one second; SQL leaves the order of records with one
    [createdAt] open, and what is said of the place of a record in the
    list holds up to that. *)
Definition listByDataSet (dataSetId : EntityId.t) : M (list DataSetRecord.t) :=
  query (λ db, reverse (filter (liveRecordOf dataSetId) (dataSetRecords db))).

(** The two queries of [Promise.all]: the page, and the rows counted.
    [page] and [pageSize] are at least 1 when the route calls. *)
Definition listByDataSetPaginated (dataSetId : EntityId.t)
    (pagination : Pagination.t) : M (list DataSetRecord.t * Z) :=
  let offset := (Pagination.page pagination - 1) * Pagination.pageSize pagination in
  query (λ db,
    let recordsResult :=
      take (Z.to_nat (Pagination.pageSize pagination))
        (drop (Z.to_nat offset)
           (reverse (filter (liveRecordOf dataSetId) (dataSetRecords db)))) in
    let countResult := filter (liveRecordOf dataSetId) (dataSetRecords db) in
    (recordsResult, Z.of_nat (length countResult))).

(** [UPDATE ... RETURNING id]: the number of rows updated is returned. *)
Definition softDeleteMany (dataSetId : EntityId.t) (recordIds : list Z)
    : M Z :=
  match recordIds with
  | [] => mret 0
  | _ => λ db,
      let result := filter (softDeleteWhere dataSetId recordIds) (dataSetRecords db) in
      (Returned (Z.of_nat (length result)),
       set_dataSetRecords
         (update_where (softDeleteWhere dataSetId recordIds) setRecordDeleted) db)
  end.

(** [ORDER BY id ASC], by insertion into a list that ascends in [key]. *)
Fixpoint insert_asc {A} (key : A → Z) (x : A) (l : list A) : list A :=
  match l with
  | [] => [x]
  | y :: l' => if decide (key x < key y) then x :: l else y :: insert_asc key x l'
  end.

Definition order_asc {A} (key : A → Z) (l : list A) : list A :=
  foldr (insert_asc key) [] l.

(** [LIMIT limit]: a negative limit is no limit. *)
Definition limit_rows {A} (limit : Z) (rows : list A) : list A :=
  if decide (limit < 0) then rows else take (Z.to_nat limit) rows.

(** [afterId] is [None] when the argument is left out; given, the
    condition [gt(dataSetRecords.id, afterId)] is pushed. *)
Definition afterIdClause (afterId : option Z) (r : DataSetRecord.t) : Prop :=
  match afterId with
  | Some afterId => afterId < DataSetRecord.id r
  | None => True
  end.

Global Instance afterIdClause_dec afterId r : Decision (afterIdClause afterId r).
Proof. destruct afterId; simpl; apply _. Defined.

Definition listBatchByDataSet (dataSetId : EntityId.t) (limit : Z)
    (afterId : option Z) : M (list DataSetRecord.t) :=
  query (λ db,
    limit_rows limit
      (order_asc DataSetRecord.id
         (filter (λ r, liveRecordOf dataSetId r ∧ afterIdClause afterId r)
            (dataSetRecords db)))).

End DataSetRecordRepository.

(** ** DataSetService (worker/datasets/dataset.service.ts) *)

(** [Math.ceil(a / b)] on integers, for [b ≠ 0]. *)
Definition Math_ceil_div (a b : Z) : Z := - ((- a) / b).

Module PaginatedResult.
Record t := mk
  { records : list DataSetRecord.t; total : Z; page : Z; pageSize : Z;
    totalPages : Z }.
End PaginatedResult.

(** [LogService.getLogVariables] is not among the sources: the service
    holds it, when it was built with a bucket, as a function from
    [(tenantId, projectId, logId)] to a settled promise, [None] when the
    promise is rejected. *)
Definition LogService : Type := Z → Z → Z → option json.

(** [TenantProjectContext] of worker/types/common.ts, as the service reads
    it, and [CreateDataSetInput]; [schema] is [None] when it is left out. *)
Module TenantProjectContext.
Record t := mk { tenantId : Z; projectId : Z }.
End TenantProjectContext.

Module CreateDataSetInput.
Record t := mk { name : string; schema : option schema_text }.
End CreateDataSetInput.

Module DataSetService.
Import DataSetRepository DataSetRecordRepository.

Definition getDataSetById (dataSetId : EntityId.t) : M (option DataSet.t) :=
  DataSetRepository.findById dataSetId.

(** The [while] loop of [createDataSet], entered with the variables
    [slug] and [attempt]; [fuel] bounds the number of probes, and [None] is
    a loop that has not found a free slug within them. *)
Fixpoint createDataSetLoop (fuel : nat) (context : TenantProjectContext.t)
    (baseSlug slug : string) (attempt : Z) : M (option string) :=
  match fuel with
  | O => mret None
  | S fuel =>
      existing ← findBySlug (TenantProjectContext.tenantId context)
                   (TenantProjectContext.projectId context) slug;
      match existing with
      | None => mret (Some slug)
      | Some _ =>
          let attempt := attempt + 1 in
          createDataSetLoop fuel context baseSlug
            (baseSlug +:+ "-" +:+ pretty attempt) attempt
      end
  end.

(** [input.schema ?? "{}"]: the string "{}" parses to the empty object. *)
Definition createDataSet (fuel : nat) (context : TenantProjectContext.t)
    (input : CreateDataSetInput.t) : M (option DataSet.t) :=
  let baseSlug := generateSlug (CreateDataSetInput.name input) in
  slug ← createDataSetLoop fuel context baseSlug baseSlug 1;
  match slug with
  | None => mret None
  | Some slug =>
      dataset ← create
        {| NewDataSet.tenantId := TenantProjectContext.tenantId context;
           NewDataSet.projectId := TenantProjectContext.projectId context;
           NewDataSet.name := CreateDataSetInput.name input;
           NewDataSet.slug := slug;
           NewDataSet.isDeleted := false;
           NewDataSet.countOfRecords := 0;
           NewDataSet.schema :=
             CreateDataSetInput.schema input ?? TextJson (JObj []) |};
      mret (Some dataset)
  end.

Definition deleteDataSet (entityId : EntityId.t) : M unit :=
  softDelete entityId.

Definition listDataSetRecords (entityId : EntityId.t)
    : M (list DataSetRecord.t) :=
  listByDataSet entityId.

Definition listDataSetRecordsPaginated (entityId : EntityId.t)
    (pagination : Pagination.t) : M PaginatedResult.t :=
  '(records, total) ← listByDataSetPaginated entityId pagination;
  let totalPages := Math_ceil_div total (Pagination.pageSize pagination) in
  mret {| PaginatedResult.records := records;
          PaginatedResult.total := total;
          PaginatedResult.page := Pagination.page pagination;
          PaginatedResult.pageSize := Pagination.pageSize pagination;
          PaginatedResult.totalPages := totalPages |}.

Definition newRecord (entityId : EntityId.t) (variables : json)
    : NewDataSetRecord.t :=
  {| NewDataSetRecord.tenantId := EntityId.tenantId entityId;
     NewDataSetRecord.projectId := EntityId.projectId entityId;
     NewDataSetRecord.dataSetId := EntityId.id entityId;
     NewDataSetRecord.variables := variables;
     NewDataSetRecord.isDeleted := false |}.

Definition createDataSetRecord (entityId : EntityId.t) (variables : json)
    : M DataSetRecord.t :=
  dataset ← DataSetRepository.findById entityId;
  match dataset with
  | None => throw "Dataset not found"
  | Some dataset =>
      let schema := parseSchema (DataSet.schema dataset) in
      let schema := mergeSchema schema variables in
      created ← createMany [newRecord entityId variables];
      match created with
      | [] => throw "Failed to create record"
      | record :: _ =>
          incrementRecordCountBy entityId 1;;
          updateSchema entityId (stringifySchema schema);;
          mret record
      end
  end.

Definition deleteDataSetRecords (entityId : EntityId.t) (recordIds : list Z)
    : M Z :=
  deleted ← softDeleteMany entityId recordIds;
  (if decide (0 < deleted)
   then incrementRecordCountBy entityId (- deleted)
   else mret tt);;
  mret deleted.   (* { deleted } *)

(** The [for] loop of [addLogsToDataSet] over the settled results. *)
Fixpoint addLogsLoop (entityId : EntityId.t) (results : list (option json))
    (schema : DataSetSchema) (newRecords : list NewDataSetRecord.t)
    (skipped : Z) : DataSetSchema * list NewDataSetRecord.t * Z :=
  match results with
  | [] => (schema, newRecords, skipped)
  | result :: results =>
      match result with
      | Some variables =>
          if truthy (Value variables) then
            addLogsLoop entityId results (mergeSchema schema variables)
              (newRecords ++ [newRecord entityId variables]) skipped
          else addLogsLoop entityId results schema newRecords (skipped + 1)
      | None => addLogsLoop entityId results schema newRecords (skipped + 1)
      end
  end.

(** Returns [{ added, skipped }]. *)
Definition addLogsToDataSet (logService : option LogService)
    (entityId : EntityId.t) (logIds : list Z) : M (Z * Z) :=
  dataset ← DataSetRepository.findById entityId;
  match dataset with
  | None => throw "Dataset not found"
  | Some dataset =>
      match logService with
      | None => throw "Log service unavailable"
      | Some getLogVariables =>
          let schema := parseSchema (DataSet.schema dataset) in
          let results :=
            (λ logId, getLogVariables (EntityId.tenantId entityId)
                        (EntityId.projectId entityId) logId) <$> logIds in
          let '(schema, newRecords, skipped) :=
            addLogsLoop entityId results schema [] 0 in
          (if decide (0 < length newRecords)%nat then
             createMany newRecords;;
             incrementRecordCountBy entityId (Z.of_nat (length newRecords));;
             updateSchema entityId (stringifySchema schema)
           else mret tt);;
          mret (Z.of_nat (length newRecords), skipped)
      end
  end.

End DataSetService.

(** * Vocabulary of the statements *)

(** A field of a partial update: omitted, the current value stays; given,
    it replaces it. *)
Definition mergedOver {A} (given : option A) (current new : A) : Prop :=
  match given with
  | None => new = current
  | Some v => new = v
  end.

(** The [n]-th name and slug [copyPrompt] tries for a source prompt:
    [" Copy"] and ["-copy"] first, then [" Copy n"] and ["-copy-n"]. *)
Definition copyName (name : string) (n : Z) : string :=
  if decide (n = 1) then name +:+ " Copy" else name +:+ " Copy " +:+ pretty n.

Definition copySlug (slug : string) (n : Z) : string :=
  if decide (n = 1) then slug +:+ "-copy" else slug +:+ "-copy-" +:+ pretty n.

(** A prompt row of the project holds the slug. *)
Definition slugTaken (projectId : ProjectId.t) (slug : string) (db : DB) : Prop :=
  ∃ p, p ∈ prompts db ∧ PromptRepository.slugWhereClause projectId slug p.

(** The identifier under which a dataset row is addressed. *)
Definition entityIdOf (d : DataSet.t) : EntityId.t :=
  EntityId.mk (DataSet.id d) (DataSet.projectId d) (DataSet.tenantId d) "".

(** The records of a dataset row with [isDeleted = false]. *)
Definition liveRecordsOf (d : DataSet.t) (db : DB) : list DataSetRecord.t :=
  filter (liveRecordOf (entityIdOf d)) (dataSetRecords db).

(** Counter exactness: every dataset row counts its live records. *)
Definition counterExact (db : DB) : Prop :=
  ∀ d, d ∈ dataSets db →
    DataSet.countOfRecords d = Z.of_nat (length (liveRecordsOf d db)).

(** A call of [createDataSetRecord] or of [deleteDataSetRecords]. *)
Inductive recordCall :=
| CreateRecord (entityId : EntityId.t) (variables : json)
| DeleteRecords (entityId : EntityId.t) (recordIds : list Z).

(** The database a call leaves, whether it returns or throws. *)
Definition runRecordCall (db : DB) (call : recordCall) : DB :=
  match call with
  | CreateRecord entityId variables =>
      (DataSetService.createDataSetRecord entityId variables db).2
  | DeleteRecords entityId recordIds =>
      (DataSetService.deleteDataSetRecords entityId recordIds db).2
  end.

Definition runRecordCalls (db : DB) (calls : list recordCall) : DB :=
  foldl runRecordCall db calls.

(** The type a schema records for a path: [fields[path].type], when the
    path is an own entry of the shape [{ type }]. *)
Definition typeAt (schema : DataSetSchema) (path : string) : option string :=
  match fields schema !! path with
  | Some (JObj entries) =>
      match entry "type" entries with
      | Some (JStr type) => Some type
      | _ => None
      end
  | _ => None
  end.

(** A [TypeMap] as the design document has it, a map from paths to types,
    as the schema object [{ fields }] that holds it. *)
Definition schemaOfTypeMap (typeMap : gmap string string) : DataSetSchema :=
  mkSchema (typeObject <$> typeMap) None.

(** The flattening algorithm of the design document: the (path, type)
    pairs of a payload, in the order of its entries.  [prefix] is the path
    of [value]; the empty prefix is the top of the payload. *)
Definition referencePath (prefix : string) : string :=
  match prefix with
  | EmptyString => "value"
  | _ => prefix
  end.

Definition referenceJoin (prefix key : string) : string :=
  match prefix with
  | EmptyString => key
  | _ => prefix +:+ "." +:+ key
  end.

Fixpoint flattenReference (value : json) (prefix : string)
    : list (string * string) :=
  match value with
  | JNull => [(referencePath prefix, "null")]
  | JArr _ => [(referencePath prefix, "array")]
  | JObj [] =>
      match prefix with
      | EmptyString => []
      | _ => [(prefix, "object")]
      end
  | JObj entries =>
      (fix each (entries : list (string * json)) :=
         match entries with
         | [] => []
         | (key, next) :: entries =>
             flattenReference next (referenceJoin prefix key) ++ each entries
         end) entries
  | JBool _ => [(referencePath prefix, "boolean")]
  | JNum _ => [(referencePath prefix, "number")]
  | JStr _ => [(referencePath prefix, "string")]
  end.

(** The record a list of pairs fills when each pair is assigned in turn:
    a later pair replaces an earlier pair of the same path. *)
Definition recorded (pairs : list (string * string)) : gmap string string :=
  foldl (λ fields '(path, type), <[path := type]> fields) ∅ pairs.



(** A schema that holds a field, or a prototype. *)
Definition written (schema : DataSetSchema) : Prop :=
  fields schema ≠ ∅ ∨ protoType schema ≠ None.

(** An item of a stored array that the last loop of [parseSchema] reads
    as the descriptor of a field: a string that is not empty, or an object
    with a [type] that [getFieldType] does not read as the empty string. *)
Definition describesField (field : json) : Prop :=
  match getFieldType field with
  | Some type => type ≠ ""
  | None => False
  end.

Global Instance describesField_dec field : Decision (describesField field).
Proof. unfold describesField. destruct (getFieldType field); apply _. Defined.


(** The type-lattice join of the design document, on a [TypeMap]: a new
    path is inserted with the observed type; a path with the same type is
    left; a path with another type becomes "mixed"; "mixed" stays. *)
Definition latticeJoin (typeMap : gmap string string) (path type : string)
    : gmap string string :=
  match typeMap !! path with
  | None => <[path := type]> typeMap
  | Some existing =>
      if decide (existing = type) then typeMap
      else if decide (existing = "mixed") then typeMap
      else <[path := "mixed"]> typeMap
  end.

(** The variables [addLogsToDataSet] keeps among the settled results:
    those of fulfilled promises with a truthy value. *)
Definition acceptedVariables (results : list (option json)) : list json :=
  omap (λ result,
          match result with
          | Some variables =>
              if truthy (Value variables) then Some variables else None
          | None => None
          end) results.

(** ** Tenancy scopes

    A scope is the [(tenantId, projectId)] of a [ProjectId]; the rows of
    a scope are the rows that carry both. *)
Definition inScope `{Row A} (scope : ProjectId.t) (r : A) : Prop :=
  row_tenantId r = ProjectId.tenantId scope ∧
  row_projectId r = ProjectId.id scope.

Global Instance inScope_dec `{Row A} scope (r : A) : Decision (inScope scope r).
Proof. unfold inScope. apply _. Defined.

Definition scopeRows `{Row A} (scope : ProjectId.t) (table : list A) : list A :=
  filter (inScope scope) table.

Definition foreignRows `{Row A} (scope : ProjectId.t) (table : list A) : list A :=
  filter (λ r, ¬ inScope scope r) table.

(** The database as a scope can see it, and the rest of it. *)
Definition scopeView (scope : ProjectId.t) (db : DB) : DB :=
  mkDB (scopeRows scope (prompts db)) (scopeRows scope (promptVersions db))
       (scopeRows scope (promptRouters db)) (scopeRows scope (dataSets db))
       (scopeRows scope (dataSetRecords db)).

Definition foreignView (scope : ProjectId.t) (db : DB) : DB :=
  mkDB (foreignRows scope (prompts db)) (foreignRows scope (promptVersions db))
       (foreignRows scope (promptRouters db)) (foreignRows scope (dataSets db))
       (foreignRows scope (dataSetRecords db)).

(** The ids the tables hand to their next rows. *)
Definition nextIds (db : DB) : Z * Z * Z * Z * Z :=
  (next_id (prompts db), next_id (promptVersions db),
   next_id (promptRouters db), next_id (dataSets db),
   next_id (dataSetRecords db)).

(** The operations of the two services, as a caller with a scope issues
    them: the scope comes from the [ProjectId], entities are named by
    their ids. *)
Inductive operation :=
| CreatePrompt (input : CreatePromptInput.t)
| UpdatePrompt (id : Z) (input : UpdatePromptInput.t)
| GetPromptById (id : Z)
| GetPromptVersion (id version : Z)
| GetPromptVersionById (versionId : Z)
| ListPromptVersions (id : Z)
| ListPrompts
| DeactivatePrompt (id : Z)
| GetPromptBySlug (slug : string)
| GetActivePromptVersion (id : Z)
| GetActiveRouterVersion (id : Z)
| SetRouterVersion (id version : Z)
| CopyPrompt (fuel : nat) (id : Z)
| RenamePrompt (id : Z) (name : string)
| GetDataSetById (id : Z)
| DeleteDataSet (id : Z)
| CreateDataSetRecord (id : Z) (variables : json)
| ListDataSetRecords (id : Z)
| ListDataSetRecordsPaginated (id : Z) (pagination : Pagination.t)
| DeleteDataSetRecords (id : Z) (recordIds : list Z)
| AddLogsToDataSet (logService : option LogService) (id : Z) (logIds : list Z).

(** What an operation returns. *)
Inductive response :=
| Nothing
| Number (n : Z)
| OptionalNumber (n : option Z)
| Numbers (n m : Z)
| OnePrompt (prompt : Prompt.t)
| OptionalPrompt (prompt : option Prompt.t)
| Prompts (prompts : list Prompt.t)
| PromptWithVersion (result : option (Prompt.t * option PromptVersion.t))
| OptionalVersion (version : option PromptVersion.t)
| Versions (versions : list PromptVersion.t)
| OptionalDataSet (dataset : option DataSet.t)
| OneRecord (record : DataSetRecord.t)
| Records (records : list DataSetRecord.t)
| Page (page : PaginatedResult.t).

Definition run (scope : ProjectId.t) (op : operation) : M response :=
  let entity id := EntityId.new id scope in
  match op with
  | CreatePrompt input => OnePrompt <$> PromptService.createPrompt scope input
  | UpdatePrompt id input =>
      Number <$> PromptService.updatePrompt (entity id) input
  | GetPromptById id =>
      PromptWithVersion <$> PromptService.getPromptById (entity id)
  | GetPromptVersion id version =>
      OptionalVersion
        <$> PromptService.getPromptVersion (PromptVersionId.new version (entity id))
  | GetPromptVersionById versionId =>
      OptionalVersion <$> PromptService.getPromptVersionById scope versionId
  | ListPromptVersions id =>
      Versions <$> PromptService.listPromptVersions (entity id)
  | ListPrompts => Prompts <$> PromptService.listPrompts scope
  | DeactivatePrompt id =>
      (λ _, Nothing) <$> PromptService.deactivatePrompt (entity id)
  | GetPromptBySlug slug =>
      OptionalPrompt <$> PromptService.getPromptBySlug scope slug
  | GetActivePromptVersion id =>
      OptionalVersion <$> PromptService.getActivePromptVersion (entity id)
  | GetActiveRouterVersion id =>
      OptionalNumber <$> PromptService.getActiveRouterVersion (entity id)
  | SetRouterVersion id version =>
      (λ _, Nothing) <$> PromptService.setRouterVersion (entity id) version
  | CopyPrompt fuel id =>
      OptionalPrompt <$> PromptService.copyPrompt fuel (entity id)
  | RenamePrompt id name =>
      OnePrompt <$> PromptService.renamePrompt (entity id) name
  | GetDataSetById id =>
      OptionalDataSet <$> DataSetService.getDataSetById (entity id)
  | DeleteDataSet id =>
      (λ _, Nothing) <$> DataSetService.deleteDataSet (entity id)
  | CreateDataSetRecord id variables =>
      OneRecord <$> DataSetService.createDataSetRecord (entity id) variables
  | ListDataSetRecords id =>
      Records <$> DataSetService.listDataSetRecords (entity id)
  | ListDataSetRecordsPaginated id pagination =>
      Page <$> DataSetService.listDataSetRecordsPaginated (entity id) pagination
  | DeleteDataSetRecords id recordIds =>
      Number <$> DataSetService.deleteDataSetRecords (entity id) recordIds
  | AddLogsToDataSet logService id logIds =>
      (λ '(added, skipped), Numbers added skipped)
        <$> DataSetService.addLogsToDataSet logService (entity id) logIds
  end.

(** A computation is isolated in a scope when it leaves the rows of every
    other scope as they are, and when what it returns and what it leaves in
    the scope depend only on the rows of the scope and on the ids the
    tables hand out next. *)
Definition isolated {A} (scope : ProjectId.t) (c : M A) : Prop :=
  (∀ db, foreignView scope (c db).2 = foreignView scope db) ∧
  (∀ db1 db2,
     scopeView scope db1 = scopeView scope db2 →
     nextIds db1 = nextIds db2 →
     (c db1).1 = (c db2).1 ∧
     scopeView scope (c db1).2 = scopeView scope (c db2).2 ∧
     nextIds (c db1).2 = nextIds (c db2).2).

(** The same for a statement on one table. *)
Definition tableIsolated `{Row A} (scope : ProjectId.t)
    (statement : list A → list A) : Prop :=
  (∀ table, foreignRows scope (statement table) = foreignRows scope table) ∧
  (∀ table1 table2,
     scopeRows scope table1 = scopeRows scope table2 →
     next_id table1 = next_id table2 →
     scopeRows scope (statement table1) = scopeRows scope (statement table2) ∧
     next_id (statement table1) = next_id (statement table2)).

(** Every [WHERE] clause the repositories build for a caller holds of rows
    of the caller's tenant and project only. *)
Definition whereClausesCarryScope (scope : ProjectId.t) : Prop :=
  ∀ id,
    let entityId := EntityId.new id scope in
    (∀ r : Prompt.t, toWhereClause entityId r → inScope scope r) ∧
    (∀ r : DataSet.t, toWhereClause entityId r → inScope scope r) ∧
    (∀ r : DataSetRecord.t, toWhereClause entityId r → inScope scope r) ∧
    (∀ version r,
       versionWhereClause (PromptVersionId.new version entityId) r →
       inScope scope r) ∧
    (∀ r, PromptRepository.promptInProject scope r → inScope scope r) ∧
    (∀ slug r, PromptRepository.slugWhereClause scope slug r → inScope scope r) ∧
    (∀ r, PromptRepository.versionOfPrompt entityId r → inScope scope r) ∧
    (∀ r, PromptRepository.routerOfPrompt entityId r → inScope scope r) ∧
    (∀ routerId r,
       PromptRepository.routerWhereClause entityId routerId r → inScope scope r) ∧
    (∀ r, liveRecordOf entityId r → inScope scope r) ∧
    (∀ recordIds r, softDeleteWhere entityId recordIds r → inScope scope r).

(** ** Vocabulary of the further properties *)

(** The names [collectFields] can record: a path that is neither empty nor
    [__proto__], with one of the six type names it writes. *)
Definition collectedName (path type : string) : Prop :=
  path ≠ "" ∧ path ≠ "__proto__" ∧
  type ∈ ["null"; "array"; "object"; "boolean"; "number"; "string"].

(** A string of the characters [a-z0-9]. *)
Fixpoint allSlugChars (s : string) : bool :=
  match s with
  | EmptyString => true
  | String c s' => isSlugChar c && allSlugChars s'
  end.

(** A string of the characters [a-z0-9] and of hyphens. *)
Fixpoint slugAlphabet (s : string) : bool :=
  match s with
  | EmptyString => true
  | String c s' => (isSlugChar c || bool_decide (c = "-"%char)) && slugAlphabet s'
  end.

(** A slug: runs of [a-z0-9], none of them empty, joined by single
    hyphens.  The empty string is the slug of no run. *)
Definition isSlug (s : string) : Prop :=
  ∃ segments,
    Forall (λ segment, segment ≠ "" ∧ allSlugChars segment = true) segments ∧
    s = String.concat "-" segments.

(** Some character of the string is one of [a-z0-9]. *)
Fixpoint anySlugChar (s : string) : bool :=
  match s with
  | EmptyString => false
  | String c s' => isSlugChar c || anySlugChar s'
  end.

(** The [n]-th slug [createDataSet] tries for a base slug: the base slug
    first, then [base-n]. *)
Definition dataSetSlug (baseSlug : string) (n : Z) : string :=
  if decide (n = 1) then baseSlug else baseSlug +:+ "-" +:+ pretty n.

(** A dataset row of the tenant and project that is not deleted holds the
    slug. *)
Definition dataSetSlugTaken (context : TenantProjectContext.t) (slug : string)
    (db : DB) : Prop :=
  ∃ d, d ∈ dataSets db ∧
    liveSlugOf (TenantProjectContext.tenantId context)
      (TenantProjectContext.projectId context) slug d.

(** ** The prompt tables as the write methods keep them *)

(** The ledger entries and the routers of a prompt row: those that carry
    its id, tenant and project. *)
Definition entryOf (p : Prompt.t) (v : PromptVersion.t) : Prop :=
  PromptVersion.promptId v = Prompt.id p ∧
  PromptVersion.tenantId v = Prompt.tenantId p ∧
  PromptVersion.projectId v = Prompt.projectId p.

Definition routerOf (p : Prompt.t) (r : PromptRouter.t) : Prop :=
  PromptRouter.promptId r = Prompt.id p ∧
  PromptRouter.tenantId r = Prompt.tenantId p ∧
  PromptRouter.projectId r = Prompt.projectId p.

(** Two ledger entries of the same prompt. *)
Definition samePrompt (v v' : PromptVersion.t) : Prop :=
  PromptVersion.promptId v = PromptVersion.promptId v' ∧
  PromptVersion.tenantId v = PromptVersion.tenantId v' ∧
  PromptVersion.projectId v = PromptVersion.projectId v'.

(** A ledger entry that a router points to. *)
Definition serves (v : PromptVersion.t) (r : PromptRouter.t) : Prop :=
  PromptVersion.promptId v = PromptRouter.promptId r ∧
  PromptVersion.tenantId v = PromptRouter.tenantId r ∧
  PromptVersion.projectId v = PromptRouter.projectId r ∧
  PromptVersion.version v = PromptRouter.version r.

(** Consistency of the three prompt tables: ids are not repeated; every
    ledger entry belongs to a prompt row and is not newer than its
    [latestVersion]; a prompt has one entry for a version at most; the
    entry at [latestVersion] exists and carries the provider, model and
    body of the prompt row; every router points to an entry that exists;
    and every prompt row has a router. *)
Record ledgerConsistent (db : DB) : Prop := {
  prompt_ids : NoDup (Prompt.id <$> prompts db);
  router_ids : NoDup (PromptRouter.id <$> promptRouters db);
  entries_owned :
    ∀ v, v ∈ promptVersions db →
      ∃ p, p ∈ prompts db ∧ entryOf p v ∧
        PromptVersion.version v ≤ Prompt.latestVersion p;
  entries_distinct :
    ∀ i j v v',
      promptVersions db !! i = Some v → promptVersions db !! j = Some v' →
      samePrompt v v' → PromptVersion.version v = PromptVersion.version v' →
      i = j;
  head_entry :
    ∀ p, p ∈ prompts db →
      ∃ v, v ∈ promptVersions db ∧ entryOf p v ∧
        PromptVersion.version v = Prompt.latestVersion p ∧
        PromptVersion.provider v = Prompt.provider p ∧
        PromptVersion.model v = Prompt.model p ∧
        PromptVersion.body v = Prompt.body p;
  routers_serve :
    ∀ r, r ∈ promptRouters db → ∃ v, v ∈ promptVersions db ∧ serves v r;
  has_router :
    ∀ p, p ∈ prompts db → ∃ r, r ∈ promptRouters db ∧ routerOf p r;
}.

(** A call of a write method of [PromptService]. *)
Inductive promptCall :=
| CallCreatePrompt (projectId : ProjectId.t) (input : CreatePromptInput.t)
| CallUpdatePrompt (promptId : EntityId.t) (input : UpdatePromptInput.t)
| CallSetRouterVersion (promptId : EntityId.t) (version : Z)
| CallCopyPrompt (fuel : nat) (promptId : EntityId.t)
| CallRenamePrompt (promptId : EntityId.t) (name : string)
| CallDeactivatePrompt (promptId : EntityId.t).

(** The database a call leaves, whether it returns or throws. *)
Definition runPromptCall (db : DB) (call : promptCall) : DB :=
  match call with
  | CallCreatePrompt projectId input =>
      (PromptService.createPrompt projectId input db).2
  | CallUpdatePrompt promptId input =>
      (PromptService.updatePrompt promptId input db).2
  | CallSetRouterVersion promptId version =>
      (PromptService.setRouterVersion promptId version db).2
  | CallCopyPrompt fuel promptId =>
      (PromptService.copyPrompt fuel promptId db).2
  | CallRenamePrompt promptId name =>
      (PromptService.renamePrompt promptId name db).2
  | CallDeactivatePrompt promptId =>
      (PromptService.deactivatePrompt promptId db).2
  end.

Definition runPromptCalls (db : DB) (calls : list promptCall) : DB :=
  foldl runPromptCall db calls.

(** No prompt row of the project holds the name or the slug: what the
    unique indexes of the Prompts table ask of a row to insert. *)
Definition nameAndSlugFree (projectId : ProjectId.t) (name slug : string)
    (db : DB) : Prop :=
  ∀ p, p ∈ prompts db → PromptRepository.promptInProject projectId p →
    Prompt.name p ≠ name ∧ Prompt.slug p ≠ slug.

(** The messages of the errors that the two services raise, and the error
    of the database for a write that a unique index rejects. *)
Definition serviceErrors : list string :=
  [ "Prompt not found"; "Version not found"; "Source prompt not found";
    "Slug already in use"; "Dataset not found"; "Log service unavailable";
    PromptRepository.uniqueConstraintFailed ].

(** A computation that throws only before it writes, and only one of the
    messages above. *)
Definition throwsBeforeWriting {A} (c : M A) : Prop :=
  ∀ db,
    match c db with
    | (Thrown message, db') => db' = db ∧ message ∈ serviceErrors
    | (Returned _, _) => True
    end.

(** The records on a page of a dataset, at [pageSize] records a page. *)
Definition pageRecords (entityId : EntityId.t) (pageSize page : Z) (db : DB)
    : list DataSetRecord.t :=
  match (DataSetService.listDataSetRecordsPaginated entityId
           (Pagination.mk page pageSize) db).1 with
  | Returned result => PaginatedResult.records result
  | Thrown _ => []
  end.

(** ** The dataset tables as the write methods keep them *)

(** Consistency of the two dataset tables: ids are not repeated; every
    dataset row counts its live records; every record belongs to a
    dataset row; and no two dataset rows of a tenant and project that are
    not deleted hold the same slug. *)
Record dataSetsConsistent (db : DB) : Prop := {
  dataSet_ids : NoDup (DataSet.id <$> dataSets db);
  record_ids : NoDup (DataSetRecord.id <$> dataSetRecords db);
  counters_exact : counterExact db;
  records_owned :
    ∀ r, r ∈ dataSetRecords db →
      ∃ d, d ∈ dataSets db ∧
        DataSetRecord.dataSetId r = DataSet.id d ∧
        DataSetRecord.tenantId r = DataSet.tenantId d ∧
        DataSetRecord.projectId r = DataSet.projectId d;
  live_slugs :
    ∀ i j d d',
      dataSets db !! i = Some d → dataSets db !! j = Some d' →
      DataSet.isDeleted d = false → DataSet.isDeleted d' = false →
      DataSet.tenantId d = DataSet.tenantId d' →
      DataSet.projectId d = DataSet.projectId d' →
      DataSet.slug d = DataSet.slug d' →
      i = j;
}.

(** A call of a write method of [DataSetService]. *)
Inductive dataSetCall :=
| CallCreateDataSet (fuel : nat) (context : TenantProjectContext.t)
    (input : CreateDataSetInput.t)
| CallDeleteDataSet (entityId : EntityId.t)
| CallCreateDataSetRecord (entityId : EntityId.t) (variables : json)
| CallDeleteDataSetRecords (entityId : EntityId.t) (recordIds : list Z)
| CallAddLogsToDataSet (logService : option LogService) (entityId : EntityId.t)
    (logIds : list Z).

(** The database a call leaves, whether it returns or throws. *)
Definition runDataSetCall (db : DB) (call : dataSetCall) : DB :=
  match call with
  | CallCreateDataSet fuel context input =>
      (DataSetService.createDataSet fuel context input db).2
  | CallDeleteDataSet entityId =>
      (DataSetService.deleteDataSet entityId db).2
  | CallCreateDataSetRecord entityId variables =>
      (DataSetService.createDataSetRecord entityId variables db).2
  | CallDeleteDataSetRecords entityId recordIds =>
      (DataSetService.deleteDataSetRecords entityId recordIds db).2
  | CallAddLogsToDataSet logService entityId logIds =>
      (DataSetService.addLogsToDataSet logService entityId logIds db).2
  end.

Definition runDataSetCalls (db : DB) (calls : list dataSetCall) : DB :=
  foldl runDataSetCall db calls.

(** ** The keys of the Prompts table *)


(** * Properties *)

(** ** Tables *)

Section Tables.
Context {A : Type}.
Implicit Types (table : list A) (P Q : A → Prop).

Lemma filter_update_where P `{!∀ r, Decision (P r)} Q `{!∀ r, Decision (Q r)}
    (set : A → A) table :
  (∀ r, P (set r) ↔ P r) →
  filter P (update_where Q set table)
  = update_where Q set (filter P table).
Proof.
  intros Hset. unfold update_where.
  induction table as [|r table IH]; [done|].
  rewrite fmap_cons, !filter_cons, IH.
  destruct (decide (Q r)) as [HQ|HQ].
  - destruct (decide (P (set r))) as [HP|HP], (decide (P r)) as [HP'|HP'];
      rewrite ?fmap_cons.
    + by rewrite decide_True.
    + exfalso. apply HP'. by apply Hset.
    + exfalso. apply HP. by apply Hset.
    + done.
  - destruct (decide (P r)); [|done].
    rewrite fmap_cons. by rewrite decide_False.
Qed.

Lemma select_first_update_where P `{!∀ r, Decision (P r)}
    Q `{!∀ r, Decision (Q r)} (set : A → A) table :
  (∀ r, P (set r) ↔ P r) →
  select_first P (update_where Q set table)
  = (λ r, if decide (Q r) then set r else r) <$> select_first P table.
Proof.
  intros Hset. unfold select_first.
  rewrite filter_update_where by done.
  unfold update_where. by destruct (filter P table).
Qed.

Lemma select_first_Some P `{!∀ r, Decision (P r)} table r :
  select_first P table = Some r → P r ∧ r ∈ table.
Proof.
  unfold select_first. intros Hhead.
  apply head_Some_elem_of in Hhead.
  by apply list_elem_of_filter in Hhead.
Qed.

Lemma select_first_None P `{!∀ r, Decision (P r)} table :
  select_first P table = None ↔ ∀ r, r ∈ table → ¬ P r.
Proof.
  unfold select_first. rewrite head_None. split.
  - intros Hnil r Hr HP. by eapply filter_nil_not_elem_of.
  - intros Hall. induction table as [|r table IH]; [done|].
    rewrite filter_cons. destruct (decide (P r)) as [HP|HP].
    + exfalso. eapply Hall; [|done]. by left.
    + apply IH. intros r' Hr'. apply Hall. by right.
Qed.

Lemma select_first_snoc_None P `{!∀ r, Decision (P r)} table r :
  select_first P table = None → P r → select_first P (table ++ [r]) = Some r.
Proof.
  unfold select_first. rewrite head_None. intros Hnil HP.
  rewrite filter_app, Hnil. simpl. rewrite filter_cons.
  by destruct (decide (P r)).
Qed.


Lemma select_first_snoc_not P `{!∀ r, Decision (P r)} table r :
  ¬ P r → select_first P (table ++ [r]) = select_first P table.
Proof.
  unfold select_first. intros HP.
  rewrite filter_app, filter_cons. destruct (decide (P r)); [done|].
  by rewrite filter_nil, app_nil_r.
Qed.

Lemma select_first_ext P `{!∀ r, Decision (P r)} Q `{!∀ r, Decision (Q r)} table :
  (∀ r, P r ↔ Q r) → select_first P table = select_first Q table.
Proof. intros HPQ. unfold select_first. f_equal. by apply list_filter_iff. Qed.

Context `{!Row A}.

Lemma next_id_fresh table r : r ∈ table → row_id r < next_id table.
Proof.
  unfold next_id. induction table as [|r' table IH]; [by inversion 1|].
  rewrite fmap_cons. simpl. inversion 1; subst; [lia|].
  specialize (IH ltac:(done)). lia.
Qed.
End Tables.

(** ** The steps of a computation *)

Create HintDb repository.
#[global] Hint Unfold
  PromptRepository.findPrompts PromptRepository.findPromptById
  PromptRepository.findPromptBySlug PromptRepository.createPrompt
  PromptRepository.updatePrompt PromptRepository.deactivatePrompt
  PromptRepository.renamePrompt PromptRepository.findPromptVersions
  PromptRepository.findPromptVersion PromptRepository.findPromptVersionOfId
  PromptRepository.findPromptVersionById PromptRepository.createPromptVersion
  PromptRepository.findPromptRouter PromptRepository.createPromptRouter
  PromptRepository.updatePromptRouterVersion
  DataSetRepository.findById DataSetRepository.incrementRecordCount
  DataSetRepository.incrementRecordCountBy DataSetRepository.decrementRecordCount
  DataSetRepository.softDelete DataSetRepository.updateSchema
  DataSetRecordRepository.createMany DataSetRecordRepository.findById
  DataSetRecordRepository.listByDataSet
  DataSetRecordRepository.listByDataSetPaginated
  DataSetRecordRepository.softDeleteMany : repository.

Ltac step_M :=
  autounfold with repository;
  unfold mbind, M_bind, mret, M_ret, query, execute, throw; simpl.

(** ** The version ledger and the router *)

Section Ledger.
Import PromptRepository.

Lemma nullish_mergedOver {A} (given : option A) (current : A) :
  mergedOver given current (given ?? current).
Proof. by destruct given. Qed.

Lemma routerOfPrompt_set promptId version r :
  routerOfPrompt promptId (setRouterVersionColumn version r)
  ↔ routerOfPrompt promptId r.
Proof. done. Qed.

Lemma toWhereClause_setPromptData promptId data (p : Prompt.t) :
  toWhereClause promptId (setPromptData data p) ↔ toWhereClause promptId p.
Proof. done. Qed.

(** What [pointRouter] leaves: the router found for the prompt holds
    [version]; it is the row that was found, overwritten, or a new row. *)
Lemma pointRouter_spec promptId version db :
  ∃ router',
    PromptService.pointRouter promptId version db
    = (Returned tt,
       set_promptRouters (λ _,
         match select_first (routerOfPrompt promptId) (promptRouters db) with
         | Some router =>
             update_where (routerWhereClause promptId (PromptRouter.id router))
               (setRouterVersionColumn version) (promptRouters db)
         | None => promptRouters db ++ [router']
         end) db) ∧
    select_first (routerOfPrompt promptId)
      (promptRouters (PromptService.pointRouter promptId version db).2)
    = Some router' ∧
    PromptRouter.version router' = version ∧
    match select_first (routerOfPrompt promptId) (promptRouters db) with
    | Some router => router' = setRouterVersionColumn version router
    | None =>
        router' = PromptRouter.mk (next_id (promptRouters db))
                    (EntityId.id promptId) (EntityId.tenantId promptId)
                    (EntityId.projectId promptId) version
    end.
Proof.
  unfold PromptService.pointRouter. step_M.
  destruct (select_first _ (promptRouters db)) as [router|] eqn:Hfind; simpl.
  - exists (setRouterVersionColumn version router).
    split; [done|]. split; [|done].
    rewrite select_first_update_where by apply routerOfPrompt_set.
    rewrite Hfind. simpl.
    apply select_first_Some in Hfind as [(Hp & Ht & Hj) _].
    rewrite decide_True; [done|]. by repeat split.
  - eexists. split; [done|]. split; [|done].
    unfold createPromptRouter. simpl.
    by apply select_first_snoc_None.
Qed.

Lemma select_first_Exists {A} (P : A → Prop) `{!∀ r, Decision (P r)}
    (table : list A) (r : A) :
  select_first P table = Some r → Exists P table.
Proof.
  intros [HP Hin]%select_first_Some. apply Exists_exists. by exists r.
Qed.

(** C1, as the code has it.  [updatePrompt] on a prompt whose Head exists
    under the scope of [promptId], when no other prompt of the tenant and
    project holds the merged name: the new version is [latestVersion + 1];
    the Head row gets the input merged over its fields (an omitted field
    keeps its value) and the new [latestVersion]; exactly one Ledger Entry
    is appended, at the new version, with the merged fields; the Router
    found for the prompt afterwards holds the new version, being the row
    found before, overwritten, or a newly inserted row.  When another
    prompt of the tenant and project holds the merged name, the database
    rejects the update of the Head: the call throws and the database is as
    it was.  Without a Head the call throws "Prompt not found" and the
    database is as it was. *)
Theorem updatePrompt_spec db promptId input :
  match select_first (toWhereClause promptId) (prompts db) with
  | None =>
      PromptService.updatePrompt promptId input db
      = (Thrown "Prompt not found", db)
  | Some head =>
      let newVersion := Prompt.latestVersion head + 1 in
      let newName := UpdatePromptInput.name input ?? Prompt.name head in
      (nameHeld (EntityId.tenantId promptId) (EntityId.projectId promptId)
         newName (otherPrompts promptId (prompts db)) →
       PromptService.updatePrompt promptId input db
       = (Thrown uniqueConstraintFailed, db)) ∧
      (¬ nameHeld (EntityId.tenantId promptId) (EntityId.projectId promptId)
           newName (otherPrompts promptId (prompts db)) →
       ∃ db' head' entry router',
        PromptService.updatePrompt promptId input db = (Returned 1, db') ∧
        (* the merge *)
        mergedOver (UpdatePromptInput.name input) (Prompt.name head) (Prompt.name head') ∧
        mergedOver (UpdatePromptInput.provider input) (Prompt.provider head) (Prompt.provider head') ∧
        mergedOver (UpdatePromptInput.model input) (Prompt.model head) (Prompt.model head') ∧
        mergedOver (UpdatePromptInput.body input) (Prompt.body head) (Prompt.body head') ∧
        (* the Head *)
        select_first (toWhereClause promptId) (prompts db') = Some head' ∧
        Prompt.latestVersion head' = newVersion ∧
        Prompt.id head' = Prompt.id head ∧
        Prompt.tenantId head' = Prompt.tenantId head ∧
        Prompt.projectId head' = Prompt.projectId head ∧
        Prompt.slug head' = Prompt.slug head ∧
        Prompt.isActive head' = Prompt.isActive head ∧
        (∀ p, p ∈ prompts db → ¬ toWhereClause promptId p → p ∈ prompts db') ∧
        length (prompts db') = length (prompts db) ∧
        (* the Ledger *)
        promptVersions db' = promptVersions db ++ [entry] ∧
        entry = PromptVersion.mk (next_id (promptVersions db))
                  (EntityId.id promptId) (EntityId.tenantId promptId)
                  (EntityId.projectId promptId) newVersion
                  (Prompt.name head') (Prompt.provider head')
                  (Prompt.model head') (Prompt.body head') (Prompt.slug head) ∧
        (* the Router *)
        select_first (routerOfPrompt promptId) (promptRouters db') = Some router' ∧
        PromptRouter.version router' = newVersion ∧
        match select_first (routerOfPrompt promptId) (promptRouters db) with
        | Some router =>
            promptRouters db'
            = update_where (routerWhereClause promptId (PromptRouter.id router))
                (setRouterVersionColumn newVersion) (promptRouters db)
        | None => promptRouters db' = promptRouters db ++ [router']
        end ∧
        dataSets db' = dataSets db ∧ dataSetRecords db' = dataSetRecords db)
  end.
Proof.
  unfold PromptService.updatePrompt. step_M.
  destruct (select_first _ (prompts db)) as [head|] eqn:Hhead; [|done].
  pose proof (select_first_Exists _ _ _ Hhead) as Hwritten.
  simpl. split.
  { intros Hheld. by rewrite decide_True. }
  intros Hfree. rewrite decide_False by tauto. simpl.
  set (data := PromptData.mk _ _ _ _ _).
  set (db1 := set_promptVersions _ (set_prompts _ db)).
  destruct (pointRouter_spec promptId (Prompt.latestVersion head + 1) db1)
    as (router' & Hrun & Hfound & Hversion & Hrow).
  rewrite Hrun. simpl.
  eexists _, (setPromptData data head), _, router'.
  split; [done|].
  repeat (split; [apply nullish_mergedOver|]).
  split.
  { simpl. rewrite select_first_update_where by apply toWhereClause_setPromptData.
    rewrite Hhead. simpl. apply select_first_Some in Hhead as [Hhead _].
    by rewrite decide_True. }
  do 6 (split; [done|]).
  split.
  { simpl. intros p Hp Hnot. unfold update_where.
    apply list_elem_of_fmap. exists p. by rewrite decide_False. }
  split; [simpl; unfold update_where; by rewrite length_fmap|].
  split; [done|]. split; [done|].
  split; [by rewrite Hrun in Hfound|].
  split; [done|].
  split; [|done].
  simpl. by destruct (select_first _ (promptRouters db)).
Qed.

(** C1, as stated, fails where another prompt of the tenant and project
    holds the name given: the Head exists, and the index on the name
    rejects its update, so that no version is written.  The state is the
    one two calls of [createPrompt] leave. *)
Lemma updatePrompt_name_held :
  let scope := ProjectId.mk 1 1 "user" in
  let db0 := mkDB [] [] [] [] [] in
  let db1 :=
    (PromptService.createPrompt scope
       (CreatePromptInput.mk "A" "a" "openai" "gpt-4" "{}") db0).2 in
  let db :=
    (PromptService.createPrompt scope
       (CreatePromptInput.mk "B" "b" "openai" "gpt-4" "{}") db1).2 in
  let promptId := EntityId.new 1 scope in
  let input := UpdatePromptInput.mk (Some "B") None None None in
  (∃ head,
     select_first (toWhereClause promptId) (prompts db) = Some head ∧
     Prompt.name head = "A" ∧ Prompt.latestVersion head = 1) ∧
  PromptService.updatePrompt promptId input db
  = (Thrown uniqueConstraintFailed, db) ∧
  ¬ ∃ db',
      PromptService.updatePrompt promptId input db = (Returned 1, db').
Proof.
  intros scope db0 db1 db promptId input.
  split; [eexists; by vm_compute|]. split; [by vm_compute|].
  intros [db' Hrun]. vm_compute in Hrun. discriminate.
Qed.

Lemma update_where_other {A} (P : A → Prop) `{!∀ r, Decision (P r)}
    (set : A → A) (table : list A) (i : nat) (r : A) :
  table !! i = Some r → ¬ P r → update_where P set table !! i = Some r.
Proof.
  intros Hi HP. unfold update_where.
  rewrite list_lookup_fmap, Hi. simpl. by rewrite decide_False.
Qed.

(** In a table whose ids are distinct, the first row a condition selects
    is the only row with its id. *)
Lemma select_first_unique_id `{Row A} (P : A → Prop) `{!∀ r, Decision (P r)}
    (table : list A) (r r' : A) :
  NoDup (row_id <$> table) →
  select_first P table = Some r → r' ∈ table → row_id r' = row_id r → r' = r.
Proof.
  intros Hnodup Hfind Hin Hid.
  apply select_first_Some in Hfind as [_ Hr].
  apply list_elem_of_lookup in Hr as [i Hi].
  apply list_elem_of_lookup in Hin as [j Hj].
  assert (i = j) as ->; [|congruence].
  eapply NoDup_lookup; [done| |].
  - by rewrite list_lookup_fmap, Hi.
  - rewrite list_lookup_fmap, Hj. simpl. by rewrite Hid.
Qed.

(** C2. [setRouterVersion promptId version], on a router table with
    distinct ids: without a Ledger Entry at exactly [version] for the
    prompt under its scope the call throws and writes nothing; with one,
    the Router found for the prompt afterwards holds [version] (the row
    found before, overwritten, or a new row), every other router row, the
    Heads and the Ledger are as before, and [getActivePromptVersion] then
    returns the entry of [version] while the Head keeps its
    [latestVersion]. *)
Theorem setRouterVersion_spec db promptId version :
  NoDup (PromptRouter.id <$> promptRouters db) →
  match select_first (λ v, versionOfPrompt promptId v ∧ PromptVersion.version v = version)
          (promptVersions db) with
  | None =>
      PromptService.setRouterVersion promptId version db
      = (Thrown "Version not found", db)
  | Some entry =>
      ∃ db' router',
        PromptService.setRouterVersion promptId version db = (Returned tt, db') ∧
        (* the Router *)
        select_first (routerOfPrompt promptId) (promptRouters db') = Some router' ∧
        PromptRouter.version router' = version ∧
        match select_first (routerOfPrompt promptId) (promptRouters db) with
        | Some router =>
            length (promptRouters db') = length (promptRouters db) ∧
            router' = setRouterVersionColumn version router ∧
            ∀ i r, promptRouters db !! i = Some r →
              promptRouters db' !! i = Some (if decide (r = router) then router' else r)
        | None => promptRouters db' = promptRouters db ++ [router']
        end ∧
        (* nothing else *)
        prompts db' = prompts db ∧
        promptVersions db' = promptVersions db ∧
        dataSets db' = dataSets db ∧
        dataSetRecords db' = dataSetRecords db ∧
        (* what is served, and what is newest *)
        PromptService.getActivePromptVersion promptId db'
        = (Returned (Some entry), db') ∧
        Prompt.latestVersion <$> select_first (toWhereClause promptId) (prompts db')
        = Prompt.latestVersion <$> select_first (toWhereClause promptId) (prompts db)
  end.
Proof.
  intros Hnodup.
  unfold PromptService.setRouterVersion. step_M.
  destruct (select_first _ (promptVersions db)) as [entry|] eqn:Hentry; [|done].
  destruct (pointRouter_spec promptId version db)
    as (router' & Hrun & Hfound & Hversion & Hrow).
  rewrite Hrun in Hfound |- *. simpl in Hfound.
  eexists _, router'. split; [done|].
  split; [done|]. split; [done|].
  split.
  { simpl. destruct (select_first _ (promptRouters db)) as [router|] eqn:Hrouter;
      [|done].
    split; [unfold update_where; by rewrite length_fmap|].
    split; [done|].
    intros i r Hi. unfold update_where.
    rewrite list_lookup_fmap, Hi. simpl. f_equal.
    destruct (decide (r = router)) as [->|Hne].
    - pose proof (select_first_Some _ _ _ Hrouter) as [(Hp & Ht & Hj) _].
      rewrite decide_True; [done|]. by repeat split.
    - rewrite decide_False; [done|]. intros (Hid & _).
      apply Hne. eapply (select_first_unique_id (routerOfPrompt promptId)); try done.
      by eapply list_elem_of_lookup_2. }
  do 4 (split; [done|]).
  split; [|done].
  unfold PromptService.getActivePromptVersion. step_M.
  rewrite Hfound. simpl. by rewrite Hversion, Hentry.
Qed.

(** The scenario of the design document: create, update, roll back. *)
Example rollback_scenario :
  let projectId := ProjectId.mk 1 1 "user" in
  let promptId := EntityId.new 1 projectId in
  let run :=
    PromptService.createPrompt projectId
      (CreatePromptInput.mk "Test" "test" "openai" "gpt-4" "v1");;
    PromptService.updatePrompt promptId
      (UpdatePromptInput.mk None None None (Some "v2"));;
    PromptService.setRouterVersion promptId 1;;
    active ← PromptService.getActivePromptVersion promptId;
    head ← findPromptById promptId;
    mret (PromptVersion.body <$> active, PromptVersion.version <$> active,
          Prompt.latestVersion <$> head) in
  (run (mkDB [] [] [] [] [])).1 = Returned (Some "v1", Some 1, Some 2).
Proof. vm_compute. reflexivity. Qed.

(** A witness for [setRouterVersion_spec]: the rollback of the scenario. *)
Lemma setRouterVersion_spec_witness :
  let db :=
    mkDB [Prompt.mk 1 1 1 "Test" "test" "openai" "gpt-4" "v2" 2 true]
         [PromptVersion.mk 1 1 1 1 1 "Test" "openai" "gpt-4" "v1" "test";
          PromptVersion.mk 2 1 1 1 2 "Test" "openai" "gpt-4" "v2" "test"]
         [PromptRouter.mk 1 1 1 1 2] [] [] in
  let promptId := EntityId.mk 1 1 1 "user" in
  NoDup (PromptRouter.id <$> promptRouters db) ∧
  ∃ db',
    PromptService.setRouterVersion promptId 1 db = (Returned tt, db') ∧
    PromptService.getActivePromptVersion promptId db'
    = (Returned (Some (PromptVersion.mk 1 1 1 1 1 "Test" "openai" "gpt-4" "v1" "test")), db') ∧
    Prompt.latestVersion <$> select_first (toWhereClause promptId) (prompts db')
    = Some 2.
Proof.
  intros db promptId.
  assert (NoDup (PromptRouter.id <$> promptRouters db)) as Hnodup.
  { apply NoDup_singleton. }
  split; [exact Hnodup|].
  pose proof (setRouterVersion_spec db promptId 1 Hnodup) as Hspec.
  simpl in Hspec.
  destruct Hspec as (db' & router' & Hrun & _ & _ & _ & _ & _ & _ & _ & Hactive & Hlatest).
  exists db'. split; [exact Hrun|]. split; [exact Hactive|].
  rewrite Hlatest. reflexivity.
Defined.

(** C3, as the code has it.  [getActivePromptVersion] returns the Ledger
    Entry the Router of the prompt addresses; it returns [null] when the
    prompt has no Router row under the scope and also when the Router's
    version has no Ledger Entry; it never throws and writes nothing. *)
Theorem getActivePromptVersion_spec db promptId :
  PromptService.getActivePromptVersion promptId db
  = (Returned
       match select_first (routerOfPrompt promptId) (promptRouters db) with
       | None => None
       | Some router =>
           select_first
             (λ v, versionOfPrompt promptId v ∧
                   PromptVersion.version v = PromptRouter.version router)
             (promptVersions db)
       end, db).
Proof.
  unfold PromptService.getActivePromptVersion. step_M.
  by destruct (select_first _ (promptRouters db)).
Qed.

(** C3, as stated, fails: a Router whose version has no Ledger Entry
    (the state the test suite builds by deleting the versions of a
    prompt) makes [getActivePromptVersion] return [null], not throw. *)
Lemma getActivePromptVersion_dangling_router :
  let db := mkDB [Prompt.mk 1 1 1 "Test" "test" "openai" "gpt-4" "{}" 1 true]
                 [] [PromptRouter.mk 1 1 1 1 1] [] [] in
  let promptId := EntityId.mk 1 1 1 "user" in
  select_first (routerOfPrompt promptId) (promptRouters db)
    = Some (PromptRouter.mk 1 1 1 1 1) ∧
  select_first (λ v, versionOfPrompt promptId v ∧ PromptVersion.version v = 1)
    (promptVersions db) = None ∧
  PromptService.getActivePromptVersion promptId db = (Returned None, db) ∧
  ¬ ∃ message, (PromptService.getActivePromptVersion promptId db).1 = Thrown message.
Proof.
  repeat split; try (vm_compute; reflexivity).
  intros [message Hthrown]. vm_compute in Hthrown. discriminate.
Qed.

End Ledger.

(** ** Copies *)

Section Copy.
Import PromptRepository.


Lemma slugTaken_select_first projectId slug db :
  slugTaken projectId slug db
  ↔ select_first (slugWhereClause projectId slug) (prompts db) ≠ None.
Proof.
  unfold slugTaken. rewrite select_first_None. split.
  - intros (p & Hp & Hslug) Hnone. by eapply Hnone.
  - intros Hsome.
    destruct (select_first (slugWhereClause projectId slug) (prompts db))
      as [p|] eqn:Hfind.
    + apply select_first_Some in Hfind as [? ?]. by exists p.
    + exfalso. apply Hsome. intros p Hp. by eapply select_first_None.
Qed.

(** The probes of the loop: it stops at the first untaken slug from
    [n] on, or runs out of fuel with every slug it tried taken. *)
Lemma copyPromptLoop_spec fuel projectId source n db :
  1 ≤ n →
  match (PromptService.copyPromptLoop fuel projectId source
           (copyName (Prompt.name source) n)
           (copySlug (Prompt.slug source) n) n db).1 with
  | Returned (Some (newName, newSlug)) =>
      ∃ N, n ≤ N < n + Z.of_nat fuel ∧
        newName = copyName (Prompt.name source) N ∧
        newSlug = copySlug (Prompt.slug source) N ∧
        ¬ slugTaken projectId (copySlug (Prompt.slug source) N) db ∧
        ∀ k, n ≤ k < N → slugTaken projectId (copySlug (Prompt.slug source) k) db
  | Returned None =>
      ∀ k, n ≤ k < n + Z.of_nat fuel →
        slugTaken projectId (copySlug (Prompt.slug source) k) db
  | Thrown _ => False
  end ∧
  (PromptService.copyPromptLoop fuel projectId source
     (copyName (Prompt.name source) n)
     (copySlug (Prompt.slug source) n) n db).2 = db.
Proof.
  revert n. induction fuel as [|fuel IH]; intros n Hn.
  { simpl. split; [|done]. intros k Hk. lia. }
  simpl. step_M.
  destruct (select_first _ (prompts db)) as [taken|] eqn:Hprobe.
  - assert (slugTaken projectId (copySlug (Prompt.slug source) n) db) as Htaken.
    { apply slugTaken_select_first. by rewrite Hprobe. }
    specialize (IH (n + 1) ltac:(lia)).
    assert (copyName (Prompt.name source) (n + 1)
            = Prompt.name source +:+ " Copy " +:+ pretty (n + 1)) as <-.
    { unfold copyName. rewrite decide_False; [done|lia]. }
    assert (copySlug (Prompt.slug source) (n + 1)
            = Prompt.slug source +:+ "-copy-" +:+ pretty (n + 1)) as <-.
    { unfold copySlug. rewrite decide_False; [done|lia]. }
    destruct IH as [IH ->]. split; [|done].
    destruct (PromptService.copyPromptLoop _ _ _ _ _ _ _).1 as [[[newName newSlug]|]|];
      [| |done].
    + destruct IH as (N & HN & -> & -> & Hfree & Hbelow).
      exists N. split; [lia|]. do 3 (split; [done|]).
      intros k Hk. destruct (decide (k = n)) as [->|]; [done|].
      apply Hbelow. lia.
    + intros k Hk. destruct (decide (k = n)) as [->|]; [done|].
      apply IH. lia.
  - simpl. split; [|done]. exists n. split; [lia|]. do 2 (split; [done|]).
    split; [|intros; lia].
    rewrite slugTaken_select_first, Hprobe. by intros [].
Qed.








End Copy.

(** ** The record counter *)

Section Counter.
Import DataSetRepository DataSetRecordRepository.

Lemma update_where_none {A} (P : A → Prop) `{!∀ r, Decision (P r)}
    (set : A → A) (table : list A) :
  (∀ r, r ∈ table → ¬ P r) → update_where P set table = table.
Proof.
  intros Hnone. unfold update_where.
  induction table as [|r table IH]; [done|].
  rewrite fmap_cons, decide_False by (apply Hnone; by left).
  f_equal. apply IH. intros r' Hr'. apply Hnone. by right.
Qed.

Lemma filter_none {A} (P : A → Prop) `{!∀ r, Decision (P r)} (table : list A) :
  (∀ r, r ∈ table → ¬ P r) → filter P table = [].
Proof. intros Hnone. by apply head_None, (select_first_None P). Qed.

(** What [createDataSetRecord] does. *)
Lemma createDataSetRecord_run entityId variables db :
  match select_first (λ d, toWhereClause entityId d ∧ DataSet.isDeleted d = false)
          (dataSets db) with
  | None =>
      DataSetService.createDataSetRecord entityId variables db
      = (Thrown "Dataset not found", db)
  | Some dataset =>
      let record :=
        DataSetRecord.mk (next_id (dataSetRecords db))
          (EntityId.tenantId entityId) (EntityId.projectId entityId)
          (EntityId.id entityId) variables false in
      DataSetService.createDataSetRecord entityId variables db
      = (Returned record,
         mkDB (prompts db) (promptVersions db) (promptRouters db)
           (update_where (toWhereClause entityId)
              (setSchema (stringifySchema
                 (mergeSchema (parseSchema (DataSet.schema dataset)) variables)))
              (update_where (toWhereClause entityId)
                 (setCountOfRecords (λ c, c + 1)) (dataSets db)))
           (dataSetRecords db ++ [record]))
  end.
Proof.
  unfold DataSetService.createDataSetRecord. step_M.
  destruct (select_first _ (dataSets db)) as [dataset|]; [|done].
  simpl. unfold set_dataSets, set_dataSetRecords. simpl.
  by rewrite Z.add_0_r.
Qed.

(** What [deleteDataSetRecords] does. *)
Lemma deleteDataSetRecords_run entityId recordIds db :
  let transitioned :=
    filter (softDeleteWhere entityId recordIds) (dataSetRecords db) in
  let deleted := Z.of_nat (length transitioned) in
  DataSetService.deleteDataSetRecords entityId recordIds db
  = (Returned deleted,
     mkDB (prompts db) (promptVersions db) (promptRouters db)
       (update_where (toWhereClause entityId)
          (setCountOfRecords (λ c, c - deleted)) (dataSets db))
       (update_where (softDeleteWhere entityId recordIds) setRecordDeleted
          (dataSetRecords db))).
Proof.
  intros transitioned deleted.
  assert (deleted = 0 →
          update_where (toWhereClause entityId)
            (setCountOfRecords (λ c, c - deleted)) (dataSets db) = dataSets db)
    as Hzero.
  { intros ->. unfold update_where. rewrite <-(list_fmap_id (dataSets db)) at 2.
    apply list_fmap_ext. intros _ d _. destruct (decide _); [|done].
    destruct d. unfold setCountOfRecords. simpl. f_equal. lia. }
  unfold DataSetService.deleteDataSetRecords.
  destruct recordIds as [|recordId recordIds].
  - assert (transitioned = []) as Hnil.
    { subst transitioned. apply filter_none. intros r _ (_&_&_&Hin&_).
      by apply not_elem_of_nil in Hin. }
    assert (deleted = 0) as Hdeleted by (subst deleted; by rewrite Hnil).
    step_M. rewrite Hzero by done. rewrite Hdeleted. destruct db. simpl.
    do 2 f_equal. symmetry. apply update_where_none.
    intros r _ (_&_&_&Hin&_). by apply not_elem_of_nil in Hin.
  - step_M. fold transitioned. fold deleted.
    destruct (decide (0 < deleted)) as [Hpos|Hzero']; simpl.
    + rewrite decide_False by lia. simpl.
      reflexivity.
    + assert (deleted = 0) as Hdeleted by (subst deleted; lia).
      rewrite Hzero by done. by rewrite Hdeleted.
Qed.

Lemma elem_of_update_where {A} (P : A → Prop) `{!∀ r, Decision (P r)}
    (set : A → A) (table : list A) (r' : A) :
  r' ∈ update_where P set table
  ↔ ∃ r, r ∈ table ∧ r' = if decide (P r) then set r else r.
Proof.
  unfold update_where. rewrite list_elem_of_fmap.
  split; intros (r & ? & ?); by exists r.
Qed.

(** A record of the dataset addressed by [entityId] belongs to the row
    [d] exactly when [entityId] addresses [d]. *)
Lemma liveRecordOf_row entityId (d : DataSet.t) (r : DataSetRecord.t) :
  DataSetRecord.tenantId r = EntityId.tenantId entityId →
  DataSetRecord.projectId r = EntityId.projectId entityId →
  DataSetRecord.dataSetId r = EntityId.id entityId →
  DataSetRecord.isDeleted r = false →
  liveRecordOf (entityIdOf d) r ↔ toWhereClause entityId d.
Proof.
  intros Ht Hp Hd Hlive. unfold liveRecordOf, toWhereClause. simpl.
  rewrite Ht, Hp, Hd. intuition congruence.
Qed.

(** Soft deletion takes from the live records of a row the records that
    made the transition, when the row is the one addressed. *)
Lemma softDelete_live_count entityId recordIds (d : DataSet.t) records :
  (length (filter (liveRecordOf (entityIdOf d))
             (update_where (softDeleteWhere entityId recordIds)
                setRecordDeleted records))
   + (if decide (toWhereClause entityId d)
      then length (filter (softDeleteWhere entityId recordIds) records)
      else 0)
   = length (filter (liveRecordOf (entityIdOf d)) records))%nat.
Proof.
  unfold update_where.
  induction records as [|r records IH]; [by destruct (decide _)|].
  rewrite fmap_cons, !filter_cons.
  destruct (decide (softDeleteWhere entityId recordIds r)) as [Hdel|Hkeep].
  - rewrite (decide_False (P := liveRecordOf _ (setRecordDeleted r)))
      by (by intros (_&_&_&?)).
    destruct Hdel as (Ht & Hp & Hd & Hin & Hlive).
    pose proof (liveRecordOf_row entityId d r Ht Hp Hd Hlive) as Hrow.
    destruct (decide (toWhereClause entityId d)) as [Hd'|Hd'].
    + rewrite decide_True by by apply Hrow. rewrite !length_cons. lia.
    + rewrite decide_False by by rewrite Hrow. lia.
  - destruct (decide (liveRecordOf (entityIdOf d) r));
      rewrite ?length_cons; lia.
Qed.

Lemma createDataSetRecord_exact entityId variables db :
  counterExact db →
  counterExact (DataSetService.createDataSetRecord entityId variables db).2.
Proof.
  intros Hexact.
  pose proof (createDataSetRecord_run entityId variables db) as Hrun.
  destruct (select_first _ (dataSets db)) as [dataset|];
    simpl in Hrun; rewrite Hrun; [|done].
  intros d'. simpl dataSets. intros Hd'.
  apply elem_of_update_where in Hd' as (d1 & Hd1 & ->).
  apply elem_of_update_where in Hd1 as (d & Hd & ->).
  specialize (Hexact d Hd). unfold liveRecordsOf in *. simpl dataSetRecords.
  rewrite filter_app, length_app, filter_cons, filter_nil.
  set (record := DataSetRecord.mk _ _ _ _ _ _).
  pose proof (liveRecordOf_row entityId d record
                eq_refl eq_refl eq_refl eq_refl) as Hrow.
  destruct (decide (toWhereClause entityId d)) as [Hwhere|Hwhere].
  - rewrite (decide_True (P:=toWhereClause entityId (setCountOfRecords _ d)))
      by done.
    change (entityIdOf (setSchema _ (setCountOfRecords _ d)))
      with (entityIdOf d).
    rewrite (decide_True (P:=liveRecordOf _ record)) by by apply Hrow.
    change (DataSet.countOfRecords (setSchema _ (setCountOfRecords _ d)))
      with (DataSet.countOfRecords d + 1).
    rewrite Hexact, length_cons, length_nil. lia.
  - rewrite (decide_False (P:=toWhereClause entityId d)) by done.
    rewrite (decide_False (P:=liveRecordOf _ record)) by by rewrite Hrow.
    rewrite Hexact, length_nil. lia.
Qed.

Lemma deleteDataSetRecords_exact entityId recordIds db :
  counterExact db →
  counterExact (DataSetService.deleteDataSetRecords entityId recordIds db).2.
Proof.
  intros Hexact. rewrite deleteDataSetRecords_run.
  intros d'. simpl dataSets. intros Hd'.
  apply elem_of_update_where in Hd' as (d & Hd & ->).
  specialize (Hexact d Hd). unfold liveRecordsOf in *. simpl dataSetRecords.
  pose proof (softDelete_live_count entityId recordIds d (dataSetRecords db))
    as Hcount.
  destruct (decide (toWhereClause entityId d)).
  - change (entityIdOf (setCountOfRecords _ d)) with (entityIdOf d).
    change (DataSet.countOfRecords (setCountOfRecords _ d))
      with (DataSet.countOfRecords d
            - Z.of_nat (length (filter (softDeleteWhere entityId recordIds)
                                  (dataSetRecords db)))).
    lia.
  - lia.
Qed.

(** C4. From a database in which every dataset row counts its live
    records, any sequence of [createDataSetRecord] and
    [deleteDataSetRecords] calls leaves such a database.  A record
    creation that succeeds appends one live record and adds 1 to the
    counter of the dataset; [deleteDataSetRecords] returns the number of
    records that went from live to deleted and takes that number from the
    counter: ids of deleted records, of other datasets or of other scopes
    change nothing, and an empty list returns 0 and leaves the database
    as it is. *)
Theorem counter_exactness db calls :
  counterExact db →
  counterExact (runRecordCalls db calls) ∧
  (∀ entityId variables dataset,
     DataSetService.getDataSetById entityId db = (Returned (Some dataset), db) →
     ∃ record db',
       DataSetService.createDataSetRecord entityId variables db
       = (Returned record, db') ∧
       dataSetRecords db' = dataSetRecords db ++ [record] ∧
       liveRecordOf entityId record ∧
       ∀ i d, dataSets db !! i = Some d →
         ∃ d', dataSets db' !! i = Some d' ∧
           DataSet.countOfRecords d'
           = DataSet.countOfRecords d
             + (if decide (toWhereClause entityId d) then 1 else 0)) ∧
  (∀ entityId recordIds,
     ∃ deleted db',
       DataSetService.deleteDataSetRecords entityId recordIds db
       = (Returned deleted, db') ∧
       deleted = Z.of_nat (length (filter
         (λ r, liveRecordOf entityId r ∧ DataSetRecord.id r ∈ recordIds)
         (dataSetRecords db))) ∧
       (∀ i r, dataSetRecords db !! i = Some r →
          dataSetRecords db' !! i
          = Some (if decide (liveRecordOf entityId r ∧ DataSetRecord.id r ∈ recordIds)
                  then setRecordDeleted r else r)) ∧
       (∀ i d, dataSets db !! i = Some d →
          ∃ d', dataSets db' !! i = Some d' ∧
            DataSet.countOfRecords d'
            = DataSet.countOfRecords d
              - (if decide (toWhereClause entityId d) then deleted else 0))) ∧
  (∀ entityId,
     DataSetService.deleteDataSetRecords entityId [] db = (Returned 0, db)).
Proof.
  intros Hexact. split; [|split; [|split]].
  - revert db Hexact. induction calls as [|call calls IH]; intros db Hexact;
      [done|].
    simpl. apply IH. destruct call; simpl.
    + by apply createDataSetRecord_exact.
    + by apply deleteDataSetRecords_exact.
  - intros entityId variables dataset Hfound.
    pose proof (createDataSetRecord_run entityId variables db) as Hrun.
    unfold DataSetService.getDataSetById in Hfound. revert Hfound. step_M.
    intros [= Hfound]. rewrite Hfound in Hrun. simpl in Hrun.
    eexists _, _. split; [exact Hrun|]. simpl. split; [done|].
    split; [done|].
    intros i d Hi. unfold update_where.
    rewrite !list_lookup_fmap, Hi. simpl. eexists. split; [done|].
    destruct (decide (toWhereClause entityId d)) as [Hd|Hd].
    + by rewrite decide_True.
    + rewrite decide_False by done. simpl. lia.
  - intros entityId recordIds. eexists _, _.
    split; [apply deleteDataSetRecords_run|]. simpl.
    assert (∀ r, softDeleteWhere entityId recordIds r
                 ↔ liveRecordOf entityId r ∧ DataSetRecord.id r ∈ recordIds)
      as Hsame by (unfold softDeleteWhere, liveRecordOf; tauto).
    split; [by rewrite (list_filter_iff _ _ _ Hsame)|].
    split.
    + intros i r Hi. unfold update_where.
      rewrite list_lookup_fmap, Hi. simpl. f_equal.
      destruct (decide (softDeleteWhere entityId recordIds r)) as [Hr|Hr].
      * rewrite decide_True; [done|]. by apply Hsame.
      * rewrite decide_False; [done|]. by rewrite <-Hsame.
    + intros i d Hi. unfold update_where.
      rewrite list_lookup_fmap, Hi. simpl. eexists. split; [done|].
      destruct (decide (toWhereClause entityId d)); simpl; lia.
  - intros entityId. reflexivity.
Qed.

(** A witness for [counter_exactness]: one dataset holding a live and a
    deleted record, then a creation and a deletion naming both. *)
Lemma counter_exactness_witness :
  let db :=
    mkDB [] [] []
      [DataSet.mk 1 1 1 "Test" "test" false 1 (TextJson (JObj []))]
      [DataSetRecord.mk 1 1 1 1 (JObj []) false;
       DataSetRecord.mk 2 1 1 1 (JObj []) true] in
  let entityId := EntityId.mk 1 1 1 "user" in
  counterExact db ∧
  counterExact
    (runRecordCalls db
       [CreateRecord entityId (JObj [("name", JStr "Jane")]);
        DeleteRecords entityId [1; 2]]) ∧
  DataSet.countOfRecords
    <$> dataSets (runRecordCalls db
          [CreateRecord entityId (JObj [("name", JStr "Jane")]);
           DeleteRecords entityId [1; 2]]) = [1].
Proof.
  intros db entityId.
  assert (counterExact db) as Hexact.
  { intros d Hd. apply list_elem_of_singleton in Hd as ->. reflexivity. }
  split; [exact Hexact|].
  split; [|vm_compute; reflexivity].
  exact (proj1 (counter_exactness db _ Hexact)).
Defined.

(** [Math.ceil(a / b)] for a positive [b] is the least number of
    [b]-sized pages that hold [a] rows. *)
Lemma Math_ceil_div_spec a b :
  0 < b →
  (Math_ceil_div a b - 1) * b < a ≤ Math_ceil_div a b * b.
Proof.
  intros Hb. unfold Math_ceil_div.
  pose proof (Z.div_mod (- a) b ltac:(lia)) as Hdiv.
  pose proof (Z.mod_pos_bound (- a) b Hb) as Hmod.
  nia.
Qed.

(** C7, as the code has it.  For [page ≥ 1] and [pageSize ≥ 1],
    [listDataSetRecordsPaginated] returns as [total] the number of live
    record rows of the dataset under the scope, counted by a query over
    the record rows: the dataset table, and with it [countOfRecords], is
    not read.  [totalPages] is [ceil(total / pageSize)], which is 0 when
    [total] is 0.  [total] is the counter of the dataset row when the
    counters of the database are exact. *)
Theorem listDataSetRecordsPaginated_spec db entityId pagination :
  1 ≤ Pagination.page pagination →
  1 ≤ Pagination.pageSize pagination →
  ∃ result,
    DataSetService.listDataSetRecordsPaginated entityId pagination db
    = (Returned result, db) ∧
    PaginatedResult.total result
    = Z.of_nat (length (filter (liveRecordOf entityId) (dataSetRecords db))) ∧
    (PaginatedResult.totalPages result - 1) * Pagination.pageSize pagination
      < PaginatedResult.total result
      ≤ PaginatedResult.totalPages result * Pagination.pageSize pagination ∧
    (PaginatedResult.total result = 0 → PaginatedResult.totalPages result = 0) ∧
    PaginatedResult.page result = Pagination.page pagination ∧
    PaginatedResult.pageSize result = Pagination.pageSize pagination ∧
    (∀ otherDataSets,
       (DataSetService.listDataSetRecordsPaginated entityId pagination
          (set_dataSets (λ _, otherDataSets) db)).1 = Returned result) ∧
    (counterExact db →
     ∀ d, d ∈ dataSets db → toWhereClause entityId d →
       PaginatedResult.total result = DataSet.countOfRecords d).
Proof.
  intros Hpage Hsize.
  unfold DataSetService.listDataSetRecordsPaginated. step_M.
  eexists. split; [done|]. simpl.
  split; [done|].
  split; [apply Math_ceil_div_spec; lia|].
  split; [by intros ->|].
  do 3 (split; [done|]).
  intros Hexact d Hd (Ht & Hp & Hi). rewrite (Hexact d Hd).
  unfold liveRecordsOf. do 2 f_equal. apply list_filter_iff.
  intros r. unfold liveRecordOf. simpl in *. rewrite Ht, Hp, Hi. done.
Qed.

(** A witness for [listDataSetRecordsPaginated_spec]: five records, pages
    of two. *)
Lemma listDataSetRecordsPaginated_spec_witness :
  let record i := DataSetRecord.mk i 1 1 1 (JObj [("index", JNum i)]) false in
  let db :=
    mkDB [] [] [] [DataSet.mk 1 1 1 "Test Dataset" "test-dataset" false 5 (TextJson (JObj []))]
      [record 1; record 2; record 3; record 4; record 5] in
  let entityId := EntityId.mk 1 1 1 "" in
  let pagination := Pagination.mk 1 2 in
  1 ≤ Pagination.page pagination ∧
  1 ≤ Pagination.pageSize pagination ∧
  ∃ result,
    DataSetService.listDataSetRecordsPaginated entityId pagination db
    = (Returned result, db) ∧
    PaginatedResult.total result = 5 ∧
    (PaginatedResult.totalPages result - 1) * 2 < 5
      ≤ PaginatedResult.totalPages result * 2.
Proof.
  intros record db entityId pagination.
  assert (1 ≤ Pagination.page pagination) as Hpage by (simpl; lia).
  assert (1 ≤ Pagination.pageSize pagination) as Hsize by (simpl; lia).
  split; [exact Hpage|]. split; [exact Hsize|].
  destruct (listDataSetRecordsPaginated_spec db entityId pagination Hpage Hsize)
    as (result & Hrun & Htotal & Hpages & _).
  exists result. split; [exact Hrun|].
  assert (PaginatedResult.total result = 5) as Hfive
    by (rewrite Htotal; reflexivity).
  split; [exact Hfive|].
  rewrite Hfive in Hpages. exact Hpages.
Defined.

(** C7, as stated, fails: [total] is not read from [countOfRecords].  In
    the state the test "should exclude deleted records" builds, the
    counter of the dataset is 1 and [total] is 0. *)
Lemma listDataSetRecordsPaginated_ignores_counter :
  let db :=
    mkDB [] [] []
      [DataSet.mk 1 1 1 "Delete Test" "delete-test" false 1 (TextJson (JObj []))]
      [DataSetRecord.mk 1 1 1 1 (JObj [("status", JStr "active")]) true] in
  let entityId := EntityId.mk 1 1 1 "" in
  ∃ dataset result,
    DataSetService.getDataSetById entityId db = (Returned (Some dataset), db) ∧
    DataSetService.listDataSetRecordsPaginated entityId (Pagination.mk 1 10) db
    = (Returned result, db) ∧
    DataSet.countOfRecords dataset = 1 ∧
    PaginatedResult.total result = 0 ∧
    PaginatedResult.total result ≠ DataSet.countOfRecords dataset.
Proof.
  intros db entityId. eexists _, _.
  split; [vm_compute; reflexivity|].
  split; [vm_compute; reflexivity|].
  by repeat split.
Qed.

End Counter.

(** ** Flattening *)

Section Flattening.

(** Induction on a JSON value, with the hypothesis for the values of an
    object's entries. *)
Lemma json_entries_ind (P : json → Prop) :
  P JNull →
  (∀ b, P (JBool b)) →
  (∀ n, P (JNum n)) →
  (∀ s, P (JStr s)) →
  (∀ items, P (JArr items)) →
  (∀ entries, Forall (λ kv, P kv.2) entries → P (JObj entries)) →
  ∀ value, P value.
Proof.
  intros Hnull Hbool Hnum Hstr Harr Hobj.
  fix IH 1. intros [|b|n|s|items|entries].
  - exact Hnull.
  - exact (Hbool b).
  - exact (Hnum n).
  - exact (Hstr s).
  - exact (Harr items).
  - apply Hobj. induction entries as [|[key next] entries IHentries].
    + constructor.
    + constructor; [exact (IH next)|exact IHentries].
Qed.

Lemma pathOf_reference prefix : pathOf prefix = referencePath prefix.
Proof. unfold pathOf. by destruct prefix. Qed.

Lemma nextPrefixOf_reference prefix key :
  nextPrefixOf prefix key = referenceJoin prefix key.
Proof. unfold nextPrefixOf. by destruct prefix. Qed.

(** The loop of [collectFields] over the entries of an object. *)
Lemma collectFields_loop prefix (entries : list (string * json))
    (fields : gmap string string) :
  (fix loop (entries : list (string * json)) (fields : gmap string string) :=
     match entries with
     | [] => fields
     | (key, next) :: entries =>
         loop entries
           (Object_assign fields (collectFields next (nextPrefixOf prefix key)))
     end) entries fields
  = foldl (λ fields '(key, next),
             Object_assign fields (collectFields next (nextPrefixOf prefix key)))
      fields entries.
Proof.
  revert fields. induction entries as [|[key next] entries IH]; intros fields;
    [done|].
  simpl. apply IH.
Qed.

Lemma collectFields_entries entries prefix :
  collectFields (JObj entries) prefix
  = match entries with
    | [] => if decide (prefix = "") then ∅ else setString ∅ prefix "object"
    | _ =>
        foldl (λ fields '(key, next),
                 Object_assign fields
                   (collectFields next (nextPrefixOf prefix key)))
          ∅ entries
    end.
Proof.
  destruct entries as [|entry entries].
  - simpl. destruct (decide (prefix = "")) as [->|Hprefix]; [done|].
    rewrite bool_decide_eq_true_2 by done.
    unfold pathOf. by rewrite decide_False.
  - rewrite <-collectFields_loop. reflexivity.
Qed.

Lemma flattenReference_each prefix (entries : list (string * json)) :
  (fix each (entries : list (string * json)) :=
     match entries with
     | [] => []
     | (key, next) :: entries =>
         flattenReference next (referenceJoin prefix key) ++ each entries
     end) entries
  = flat_map (λ '(key, next), flattenReference next (referenceJoin prefix key))
      entries.
Proof.
  induction entries as [|[key next] entries IH]; [done|].
  simpl. by rewrite IH.
Qed.

Lemma flattenReference_entries entry entries prefix :
  flattenReference (JObj (entry :: entries)) prefix
  = flat_map (λ '(key, next), flattenReference next (referenceJoin prefix key))
      (entry :: entries).
Proof. rewrite <-flattenReference_each. reflexivity. Qed.

Lemma setString_lookup (fields : gmap string string) path type key :
  setString fields path type !! key
  = if decide (path = "__proto__") then fields !! key
    else if decide (path = key) then Some type else fields !! key.
Proof.
  unfold setString. destruct (decide (path = "__proto__")); [done|].
  destruct (decide (path = key)) as [->|].
  - by rewrite lookup_insert_eq.
  - by rewrite lookup_insert_ne.
Qed.

(** [Object.assign] copies every entry of the source but [__proto__]. *)
Lemma Object_assign_lookup (target source : gmap string string) key :
  Object_assign target source !! key
  = if decide (key = "__proto__") then target !! key
    else match source !! key with
         | Some value => Some value
         | None => target !! key
         end.
Proof.
  unfold Object_assign. revert key.
  apply (map_fold_weak_ind
    (λ (acc : gmap string string) (m : gmap string string), ∀ key,
       acc !! key
       = if decide (key = "__proto__") then target !! key
         else match m !! key with
              | Some value => Some value
              | None => target !! key
              end)).
  - intros key. rewrite lookup_empty. by destruct (decide _).
  - intros i x m acc Hfresh IH key. rewrite setString_lookup, lookup_insert.
    destruct (decide (i = "__proto__")) as [->|Hi].
    + rewrite IH. destruct (decide (key = "__proto__")) as [->|]; [done|].
      by rewrite decide_False.
    + destruct (decide (i = key)) as [->|Hne].
      * by rewrite decide_False.
      * apply IH.
Qed.

Lemma recorded_foldl (pairs : list (string * string))
    (fields : gmap string string) key :
  foldl (λ fields '(path, type), <[path := type]> fields) fields pairs !! key
  = match recorded pairs !! key with
    | Some value => Some value
    | None => fields !! key
    end.
Proof.
  unfold recorded. revert fields.
  induction pairs as [|[path type] pairs IH] using rev_ind; intros fields.
  { simpl. by rewrite lookup_empty. }
  rewrite !foldl_app. simpl. rewrite !lookup_insert.
  destruct (decide (path = key)); [done|]. apply IH.
Qed.

Lemma recorded_app (pairs1 pairs2 : list (string * string)) key :
  recorded (pairs1 ++ pairs2) !! key
  = match recorded pairs2 !! key with
    | Some value => Some value
    | None => recorded pairs1 !! key
    end.
Proof. unfold recorded at 1. rewrite foldl_app. apply recorded_foldl. Qed.

Lemma recorded_singleton path type key :
  recorded [(path, type)] !! key = if decide (path = key) then Some type else None.
Proof. unfold recorded. simpl. by rewrite lookup_insert, lookup_empty. Qed.

(** What [collectFields] records at a path: the type of the last pair the
    reference yields for it, except that nothing is recorded at
    [__proto__]. *)
Lemma collectFields_lookup value : ∀ prefix path,
  collectFields value prefix !! path
  = if decide (path = "__proto__") then None
    else recorded (flattenReference value prefix) !! path.
Proof.
  assert (∀ prefix type path,
            setString ∅ (pathOf prefix) type !! path
            = if decide (path = "__proto__") then None
              else recorded [(referencePath prefix, type)] !! path) as Hscalar.
  { intros prefix type path.
    rewrite setString_lookup, pathOf_reference, recorded_singleton, lookup_empty.
    destruct (decide (referencePath prefix = "__proto__")) as [Hp|Hp],
             (decide (path = "__proto__")) as [Hq|Hq];
      try (rewrite decide_False by congruence); done. }
  induction value as [|b|n|s|items|entries IH] using json_entries_ind;
    intros prefix path; [apply Hscalar..|].
  rewrite collectFields_entries.
  destruct entries as [|entry entries].
  { destruct (decide (prefix = "")) as [->|Hprefix].
    - simpl. rewrite lookup_empty. by destruct (decide _).
    - replace (flattenReference (JObj []) prefix) with [(prefix, "object")]
        by by destruct prefix.
      rewrite setString_lookup, recorded_singleton, lookup_empty.
      destruct (decide (prefix = "__proto__")) as [Hp|Hp],
               (decide (path = "__proto__")) as [Hq|Hq];
        try (rewrite decide_False by congruence); done. }
  rewrite flattenReference_entries.
  generalize (entry :: entries) IH. clear entry entries IH.
  assert (∀ (entries : list (string * json)) (fields : gmap string string)
            (pairs : list (string * string)),
    Forall (λ kv, ∀ prefix path,
              collectFields kv.2 prefix !! path
              = if decide (path = "__proto__") then None
                else recorded (flattenReference kv.2 prefix) !! path) entries →
    (∀ path, fields !! path
             = if decide (path = "__proto__") then None
               else recorded pairs !! path) →
    ∀ path,
      foldl (λ fields '(key, next),
               Object_assign fields (collectFields next (nextPrefixOf prefix key)))
        fields entries !! path
      = if decide (path = "__proto__") then None
        else recorded
               (pairs ++ flat_map (λ '(key, next),
                           flattenReference next (referenceJoin prefix key))
                         entries) !! path) as Hloop.
  { clear path. induction entries as [|[key next] entries IHentries];
      intros fields pairs Hall Hfields path.
    - simpl. by rewrite app_nil_r.
    - apply Forall_cons in Hall as [Hnext Hall]. simpl.
      rewrite (assoc_L (++)). apply IHentries; [done|].
      intros path'. rewrite Object_assign_lookup, Hfields, recorded_app.
      rewrite Hnext, nextPrefixOf_reference. simpl.
      by repeat case_decide. }
  intros entries IH. apply (Hloop entries ∅ [] IH).
  intros path'. unfold recorded. simpl. rewrite lookup_empty.
  by destruct (decide _).
Qed.

Lemma recorded_elem_of (pairs : list (string * string)) path type :
  NoDup pairs.*1 →
  recorded pairs !! path = Some type ↔ (path, type) ∈ pairs.
Proof.
  induction pairs as [|[path' type'] pairs IH] using rev_ind; intros Hnodup.
  { unfold recorded. simpl. rewrite lookup_empty. split; [done|].
    by intros ?%not_elem_of_nil. }
  rewrite fmap_app in Hnodup. apply NoDup_app in Hnodup as (Hpairs & Hnew & _).
  rewrite recorded_app, recorded_singleton, elem_of_app, list_elem_of_singleton.
  destruct (decide (path' = path)) as [->|Hne].
  - split.
    + intros [= ->]. by right.
    + intros [Hin|[= ->]]; [|done]. exfalso.
      apply (Hnew path); [|simpl; by left].
      apply list_elem_of_fmap. by exists (path, type).
  - rewrite IH by done. split; [by left|]. intros [?|[= ? ?]]; [done|].
    by subst.
Qed.

(** C6, as the code has it.  At every path other than [__proto__],
    [collectFields] records the type of the last pair that the recursive
    reference definition yields for that path, and nothing when it yields
    none; so when no two pairs of the reference share a path, the entries
    of [collectFields] at such paths are exactly the pairs of the
    reference.  The reference: [null] yields "null" at the current path; an
    array yields "array" and is not entered; a non-empty object yields
    nothing for itself and is entered key by key with the path
    [prefix.key], or [key] under the empty prefix; an empty object under a
    non-empty prefix yields "object"; another scalar yields the name of its
    primitive type; and the current path of a value that is not an object
    is "value" under the empty prefix. *)
Theorem collectFields_reference value prefix path :
  path ≠ "__proto__" →
  collectFields value prefix !! path
  = recorded (flattenReference value prefix) !! path ∧
  (NoDup (flattenReference value prefix).*1 →
   ∀ type,
     collectFields value prefix !! path = Some type
     ↔ (path, type) ∈ flattenReference value prefix).
Proof.
  intros Hpath.
  assert (collectFields value prefix !! path
          = recorded (flattenReference value prefix) !! path) as Hsame.
  { rewrite collectFields_lookup. by rewrite decide_False. }
  split; [done|].
  intros Hnodup type. rewrite Hsame. by apply recorded_elem_of.
Qed.

(** A witness for [collectFields_reference]: the first record of the
    schema scenario of the design document. *)
Lemma collectFields_reference_witness :
  let payload :=
    JObj [("user", JObj [("name", JStr "Jane")]);
          ("tags", JArr [JStr "a"; JStr "b"])] in
  "user.name" ≠ "__proto__" ∧
  flattenReference payload "" = [("user.name", "string"); ("tags", "array")] ∧
  collectFields payload "" !! "user.name" = Some "string".
Proof.
  intros payload.
  assert ("user.name" ≠ "__proto__") as Hpath by discriminate.
  split; [exact Hpath|]. split; [reflexivity|].
  destruct (collectFields_reference payload "" "user.name" Hpath) as [Hsame _].
  rewrite Hsame. reflexivity.
Defined.

(** C6, as stated, fails where two key chains spell the same path: the
    reference yields a pair for each, [collectFields] keeps the last. *)
Lemma collectFields_path_collision :
  let payload := JObj [("a.b", JNum 1); ("a", JObj [("b", JStr "x")])] in
  flattenReference payload "" = [("a.b", "number"); ("a.b", "string")] ∧
  map_to_list (collectFields payload "") = [("a.b", "string")] ∧
  ¬ (∀ path type,
       collectFields payload "" !! path = Some type
       ↔ (path, type) ∈ flattenReference payload "").
Proof.
  intros payload.
  split; [reflexivity|]. split; [vm_compute; reflexivity|].
  intros Hexactly.
  assert (collectFields payload "" !! "a.b" = Some "number") as Hnumber.
  { apply Hexactly. change (flattenReference payload "")
      with [("a.b", "number"); ("a.b", "string")]. by left. }
  vm_compute in Hnumber. discriminate.
Qed.

(** The entry of a payload named [__proto__] is recorded by the reference
    and lost by [collectFields]. *)
Lemma collectFields_proto_lost :
  let payload := JObj [("__proto__", JNum 1)] in
  flattenReference payload "" = [("__proto__", "number")] ∧
  collectFields payload "" = ∅.
Proof. split; [reflexivity|]. vm_compute. reflexivity. Qed.

End Flattening.

(** ** The order of [Object.entries]

    The model folds over the entries of a record in the order of the map
    that holds them; the loops of the source visit them in insertion
    order.  Each loop writes the path it visits only, so that any order
    gives the same result. *)

Section EntryOrder.

Lemma foldl_foldr_reverse {A B} (f : A → B → A) (a : A) (l : list B) :
  foldl f a l = foldr (flip f) a (reverse l).
Proof.
  revert a. induction l as [|x l IH]; intros a; [done|].
  simpl. by rewrite IH, reverse_cons, foldr_snoc.
Qed.

Lemma fold_entries_any_order {B} (f : string → string → B → B) (b : B)
    (m : gmap string string) (entries : list (string * string)) :
  (∀ k1 v1 k2 v2 b, k1 ≠ k2 → m !! k1 = Some v1 → m !! k2 = Some v2 →
     f k1 v1 (f k2 v2 b) = f k2 v2 (f k1 v1 b)) →
  entries ≡ₚ map_to_list m →
  foldl (λ b '(k, v), f k v b) b entries = map_fold f b m.
Proof.
  intros Hcommute Hentries.
  rewrite map_fold_foldr, foldl_foldr_reverse.
  assert (∀ (b : B) (l : list (string * string)),
            foldr (flip (λ b '(k, v), f k v b)) b l = foldr (uncurry f) b l)
    as ->.
  { intros b' l. apply foldr_ext; [|done..]. by intros [k v] b''. }
  apply (foldr_permutation (=) (uncurry f) b).
  - intros j1 [k1 v1] j2 [k2 v2] b' Hj Hj1 Hj2. simpl.
    assert (reverse entries ≡ₚ map_to_list m) as Hperm
      by by rewrite reverse_Permutation.
    assert (NoDup (reverse entries).*1) as Hnodup.
    { rewrite Hperm. apply NoDup_fst_map_to_list. }
    apply Hcommute.
    + intros ->. apply Hj. eapply NoDup_lookup; [exact Hnodup| |].
      * by rewrite list_lookup_fmap, Hj1.
      * by rewrite list_lookup_fmap, Hj2.
    + apply elem_of_map_to_list. rewrite <-Hperm.
      by eapply list_elem_of_lookup_2.
    + apply elem_of_map_to_list. rewrite <-Hperm.
      by eapply list_elem_of_lookup_2.
  - by rewrite reverse_Permutation.
Qed.

Lemma Object_assign_any_order (target source : gmap string string)
    (entries : list (string * string)) :
  entries ≡ₚ map_to_list source →
  foldl (λ target '(key, value), setString target key value) target entries
  = Object_assign target source.
Proof.
  apply (fold_entries_any_order (λ key value target, setString target key value)).
  intros k1 v1 k2 v2 b Hne _ _. unfold setString.
  destruct (decide (k1 = "__proto__")), (decide (k2 = "__proto__")); try done.
  by apply insert_insert_ne.
Qed.

Lemma getField_setField_ne schema path path' type :
  path ≠ path' → path ≠ "__proto__" →
  getField (setField schema path type) path' = getField schema path'.
Proof.
  intros Hne Hproto. unfold getField, setField.
  rewrite decide_False by (by intros [? _]). simpl.
  by rewrite lookup_insert_ne.
Qed.

Lemma setField_commute schema path1 type1 path2 type2 :
  path1 ≠ path2 → path1 ≠ "__proto__" → path2 ≠ "__proto__" →
  setField (setField schema path2 type2) path1 type1
  = setField (setField schema path1 type1) path2 type2.
Proof.
  intros Hne Hproto1 Hproto2. unfold setField.
  rewrite !decide_False by (by intros [? _]). simpl.
  f_equal. by apply insert_insert_ne.
Qed.

Lemma getField_mergeField_ne schema path path' type :
  path ≠ path' → path ≠ "__proto__" →
  getField (mergeField schema path type) path' = getField schema path'.
Proof.
  intros Hne Hproto. unfold mergeField. cbv zeta.
  destruct (negb _); [by rewrite getField_setField_ne|].
  destruct (_ && _); [by rewrite getField_setField_ne|done].
Qed.

Lemma mergeField_commute schema path1 type1 path2 type2 :
  path1 ≠ path2 → path1 ≠ "__proto__" → path2 ≠ "__proto__" →
  mergeField (mergeField schema path2 type2) path1 type1
  = mergeField (mergeField schema path1 type1) path2 type2.
Proof.
  intros Hne Hproto1 Hproto2.
  unfold mergeField at 1 3. cbv zeta.
  rewrite !getField_mergeField_ne by done.
  unfold mergeField. cbv zeta.
  set (empty1 := negb (truthy (getField schema path1))).
  set (empty2 := negb (truthy (getField schema path2))).
  set (widen1 := differsFrom (typeProperty (getField schema path1)) type1
                 && differsFrom (typeProperty (getField schema path1)) "mixed").
  set (widen2 := differsFrom (typeProperty (getField schema path2)) type2
                 && differsFrom (typeProperty (getField schema path2)) "mixed").
  clearbody empty1 empty2 widen1 widen2.
  destruct empty1, widen1, empty2, widen2;
    first [done | by apply setField_commute].
Qed.

(** The loop of [mergeSchema], run over the entries of
    [collectFields(variables)] in any order. *)
Lemma mergeSchema_any_order schema variables (entries : list (string * string)) :
  entries ≡ₚ map_to_list (collectFields variables "") →
  foldl (λ schema '(path, type), mergeField schema path type) schema entries
  = mergeSchema schema variables.
Proof.
  apply (fold_entries_any_order (λ path type schema, mergeField schema path type)).
  intros k1 v1 k2 v2 b Hne Hk1 Hk2.
  apply mergeField_commute; [done| |].
  - intros ->. by rewrite collectFields_lookup, decide_True in Hk1.
  - intros ->. by rewrite collectFields_lookup, decide_True in Hk2.
Qed.

End EntryOrder.

(** ** The type lattice *)

Section Lattice.

Lemma typeAt_schemaOfTypeMap typeMap path :
  typeAt (schemaOfTypeMap typeMap) path = typeMap !! path.
Proof.
  unfold typeAt, schemaOfTypeMap. simpl. rewrite lookup_fmap.
  by destruct (typeMap !! path).
Qed.

(** Away from the names of [Object.prototype], the loop body of
    [mergeSchema] is the join of the design document. *)
Lemma mergeField_latticeJoin typeMap path type :
  path ∉ Object_prototype_names →
  mergeField (schemaOfTypeMap typeMap) path type
  = schemaOfTypeMap (latticeJoin typeMap path type).
Proof.
  intros Hpath.
  assert (path ≠ "__proto__") as Hproto.
  { intros ->. apply Hpath. unfold Object_prototype_names. set_solver. }
  unfold mergeField, getField, latticeJoin, schemaOfTypeMap, setField. simpl.
  rewrite lookup_fmap.
  destruct (typeMap !! path) as [existing|] eqn:Hexisting; simpl.
  - destruct (decide (existing = type)) as [->|Hne].
    { rewrite (bool_decide_eq_false_2 (type ≠ type)) by (intros ?; done). done. }
    rewrite (bool_decide_eq_true_2 (existing ≠ type)) by done. simpl.
    destruct (decide (existing = "mixed")) as [->|Hmixed].
    { rewrite bool_decide_eq_false_2 by (intros ?; done). done. }
    rewrite bool_decide_eq_true_2 by done.
    rewrite decide_False by (intros [? _]; done).
    by rewrite fmap_insert.
  - rewrite decide_False by done. rewrite decide_False by done. simpl.
    rewrite decide_False by (intros [? _]; done).
    by rewrite fmap_insert.
Qed.

(** The join itself, case by case. *)
Lemma latticeJoin_cases typeMap path type :
  match typeMap !! path with
  | None => latticeJoin typeMap path type !! path = Some type
  | Some existing =>
      latticeJoin typeMap path type !! path
      = Some (if decide (existing = type) then existing else "mixed")
  end ∧
  ∀ other, other ≠ path →
    latticeJoin typeMap path type !! other = typeMap !! other.
Proof.
  unfold latticeJoin. split.
  - destruct (typeMap !! path) as [existing|] eqn:Hexisting.
    + destruct (decide (existing = type)); [done|].
      destruct (decide (existing = "mixed")) as [->|]; [done|].
      by rewrite lookup_insert_eq.
    + by rewrite lookup_insert_eq.
  - intros other Hother. destruct (typeMap !! path) as [existing|].
    + destruct (decide (existing = type)); [done|].
      destruct (decide (existing = "mixed")); [done|].
      by rewrite lookup_insert_ne.
    + by rewrite lookup_insert_ne.
Qed.

(** Widening: a type once recorded for a path stays, or becomes "mixed",
    whatever is merged afterwards. *)
Lemma mergeField_widening schema path type path' T :
  typeAt schema path' = Some T ∨ typeAt schema path' = Some "mixed" →
  typeAt (mergeField schema path type) path' = Some T ∨
  typeAt (mergeField schema path type) path' = Some "mixed".
Proof.
  intros Hbefore.
  assert (∀ type', path ≠ path' →
            typeAt (setField schema path type') path' = typeAt schema path')
    as Hother.
  { intros type' Hne. unfold setField, typeAt.
    destruct (decide _); simpl; [done|]. by rewrite lookup_insert_ne. }
  unfold mergeField.
  destruct (negb (truthy (getField schema path))) eqn:Hfalsy.
  - destruct (decide (path = path')) as [->|Hne]; [|by rewrite Hother].
    exfalso. unfold getField, typeAt in *.
    destruct (fields schema !! path') as [[| | | | |entries]|];
      simpl in Hfalsy; try done; destruct Hbefore; done.
  - destruct (differsFrom _ type && differsFrom _ "mixed") eqn:Hdiffers;
      [|done].
    destruct (decide (path = path')) as [->|Hne]; [|by rewrite Hother].
    right. unfold setField, typeAt.
    assert (fields schema !! path' ≠ None) as Hown.
    { unfold typeAt in Hbefore. destruct (fields schema !! path'); [done|].
      by destruct Hbefore. }
    rewrite decide_False by (intros [_ ?]; done). simpl.
    by rewrite lookup_insert_eq.
Qed.

Lemma mergeSchema_widening schema variables path T :
  typeAt schema path = Some T →
  typeAt (mergeSchema schema variables) path = Some T ∨
  typeAt (mergeSchema schema variables) path = Some "mixed".
Proof.
  intros Hbefore. unfold mergeSchema.
  apply (map_fold_weak_ind
    (λ (acc : DataSetSchema) (_ : gmap string string),
       typeAt acc path = Some T ∨ typeAt acc path = Some "mixed")).
  - by left.
  - intros path' type' _ acc _ IH. by apply mergeField_widening.
Qed.

(** C5 on the code.  Away from the property names of [Object.prototype]
    the loop body of [mergeSchema] is the join of the claim
    ([mergeField_latticeJoin], [latticeJoin_cases]) and a recorded type
    only ever widens to "mixed" ([mergeSchema_widening]).  At such a name
    the claim fails: [schema.fields["constructor"]] of a schema without
    that path reads the inherited function, which is truthy and has no
    [type], and the first record with a field [constructor] stores "mixed"
    where the claim inserts the observed type "string". *)
Theorem mergeSchema_inherited_name :
  let variables := JObj [("constructor", JStr "x")] in
  let db :=
    mkDB [] [] []
      [DataSet.mk 1 1 1 "Test" "test" false 0 (TextJson (JObj []))] [] in
  let entityId := EntityId.mk 1 1 1 "user" in
  map_to_list (collectFields variables "") = [("constructor", "string")] ∧
  fields (parseSchema (TextJson (JObj []))) !! "constructor" = None ∧
  latticeJoin ∅ "constructor" "string" !! "constructor" = Some "string" ∧
  typeAt (mergeField (schemaOfTypeMap ∅) "constructor" "string") "constructor"
  = Some "mixed" ∧
  DataSet.schema
    <$> dataSets (DataSetService.createDataSetRecord entityId variables db).2
  = [TextJson (JObj [("fields",
       JObj [("constructor", JObj [("type", JStr "mixed")])])])].
Proof. repeat split; vm_compute; reflexivity. Qed.

End Lattice.

(** ** Stored schemas that do not parse to an object *)

Section StoredSchema.
Import DataSetRepository DataSetRecordRepository.










(** The loop of [addLogsToDataSet]: the accepted variables are merged into
    the schema in turn, and each becomes a new record. *)
Lemma acceptedVariables_cons result results :
  acceptedVariables (result :: results)
  = match result with
    | Some variables =>
        if truthy (Value variables)
        then variables :: acceptedVariables results
        else acceptedVariables results
    | None => acceptedVariables results
    end.
Proof.
  unfold acceptedVariables. destruct result as [variables|]; [|done].
  change (omap ?f (Some variables :: results))
    with (match f (Some variables) with
          | Some y => y :: omap f results
          | None => omap f results
          end).
  cbv beta iota. by destruct (truthy (Value variables)).
Qed.

Lemma addLogsLoop_spec entityId results schema newRecords skipped :
  DataSetService.addLogsLoop entityId results schema newRecords skipped
  = (foldl mergeSchema schema (acceptedVariables results),
     newRecords
       ++ (DataSetService.newRecord entityId <$> acceptedVariables results),
     skipped + (Z.of_nat (length results)
                - Z.of_nat (length (acceptedVariables results)))).
Proof.
  revert schema newRecords skipped.
  induction results as [|result results IH]; intros schema newRecords skipped.
  { simpl. by rewrite app_nil_r, Z.add_0_r. }
  rewrite acceptedVariables_cons.
  change (DataSetService.addLogsLoop entityId (result :: results) schema
            newRecords skipped)
    with (match result with
          | Some variables =>
              if truthy (Value variables) then
                DataSetService.addLogsLoop entityId results
                  (mergeSchema schema variables)
                  (newRecords ++ [DataSetService.newRecord entityId variables])
                  skipped
              else DataSetService.addLogsLoop entityId results schema newRecords
                     (skipped + 1)
          | None =>
              DataSetService.addLogsLoop entityId results schema newRecords
                (skipped + 1)
          end).
  destruct result as [variables|]; [destruct (truthy (Value variables))|];
    rewrite IH, ?length_cons, ?fmap_cons.
  - rewrite <-(assoc_L (++)). simpl foldl. do 2 f_equal. lia.
  - f_equal. lia.
  - f_equal. lia.
Qed.




End StoredSchema.

(** ** Tenant isolation *)

Section Isolation.
Import PromptRepository DataSetRepository DataSetRecordRepository.

Implicit Types scope : ProjectId.t.

(** *** Statements on one table *)

Lemma scoped_filter `{Row A} scope (P : A → Prop) `{!∀ r, Decision (P r)}
    (table : list A) :
  (∀ r, P r → inScope scope r) →
  filter P table = filter P (scopeRows scope table).
Proof.
  intros Hscoped. unfold scopeRows.
  induction table as [|r table IH]; [done|].
  rewrite !filter_cons.
  destruct (decide (P r)) as [HP|HP].
  - rewrite decide_True by by apply Hscoped.
    rewrite filter_cons, decide_True by done. by rewrite IH.
  - destruct (decide (inScope scope r)); [|done].
    by rewrite filter_cons, decide_False.
Qed.

Lemma scoped_select_first `{Row A} scope (P : A → Prop) `{!∀ r, Decision (P r)}
    (table1 table2 : list A) :
  (∀ r, P r → inScope scope r) →
  scopeRows scope table1 = scopeRows scope table2 →
  select_first P table1 = select_first P table2.
Proof.
  intros Hscoped Hrows. unfold select_first.
  by rewrite (scoped_filter scope P table1), (scoped_filter scope P table2), Hrows.
Qed.

Lemma next_id_update_where `{Row A} (P : A → Prop) `{!∀ r, Decision (P r)}
    (set : A → A) (table : list A) :
  (∀ r, row_id (set r) = row_id r) →
  next_id (update_where P set table) = next_id table.
Proof.
  intros Hid. unfold next_id, update_where. f_equal. f_equal.
  rewrite <-list_fmap_compose. apply list_fmap_ext.
  intros _ r _. simpl. by destruct (decide (P r)).
Qed.

Lemma next_id_snoc `{Row A} (table : list A) (r : A) :
  next_id (table ++ [r]) = Z.max (next_id table) (1 + Z.max (row_id r) 0).
Proof.
  unfold next_id. rewrite fmap_app, foldr_app. simpl.
  induction (row_id <$> table) as [|i ids IH]; simpl; lia.
Qed.

Lemma update_where_isolated `{Row A} scope (P : A → Prop)
    `{!∀ r, Decision (P r)} (set : A → A) :
  (∀ r, P r → inScope scope r) →
  (∀ r, row_tenantId (set r) = row_tenantId r) →
  (∀ r, row_projectId (set r) = row_projectId r) →
  (∀ r, row_id (set r) = row_id r) →
  tableIsolated scope (update_where P set).
Proof.
  intros Hscoped Htenant Hproject Hid.
  assert (∀ r, inScope scope (set r) ↔ inScope scope r) as Hset.
  { intros r. unfold inScope. by rewrite Htenant, Hproject. }
  split.
  - intros table. unfold foreignRows.
    rewrite filter_update_where by (intros r; by rewrite Hset).
    apply update_where_none. intros r Hr HP.
    apply list_elem_of_filter in Hr as [Hforeign _]. by apply Hforeign, Hscoped.
  - intros table1 table2 Hrows Hnext. unfold scopeRows in *.
    rewrite !filter_update_where by done.
    by rewrite Hrows, !next_id_update_where.
Qed.

Lemma insert_isolated `{Row A} scope (row : Z → A) :
  (∀ i, inScope scope (row i)) →
  (∀ i, row_id (row i) = i) →
  tableIsolated scope (λ table, table ++ [row (next_id table)]).
Proof.
  intros Hscope Hid. split.
  - intros table. unfold foreignRows.
    rewrite filter_app, filter_cons, decide_False by (intros Hnot; by apply Hnot).
    by rewrite filter_nil, app_nil_r.
  - intros table1 table2 Hrows Hnext. unfold scopeRows in *.
    rewrite !filter_app, !filter_cons, !decide_True by done.
    rewrite !next_id_snoc, !Hid. by rewrite Hrows, Hnext.
Qed.

(** *** Computations *)

Lemma isolated_ret {A} scope (a : A) : isolated scope (mret a).
Proof. by split. Qed.

Lemma isolated_throw {A} scope message : isolated scope (throw (A:=A) message).
Proof. by split. Qed.

Lemma isolated_bind {A B} scope (c : M A) (k : A → M B) :
  isolated scope c → (∀ a, isolated scope (k a)) →
  isolated scope (c ≫= k).
Proof.
  intros [Hframe Hread] Hk. split.
  - intros db. unfold mbind, M_bind.
    destruct (c db) as [[a|message] db'] eqn:Hc.
    + destruct (Hk a) as [Hframe' _]. rewrite Hframe'.
      specialize (Hframe db). by rewrite Hc in Hframe.
    + specialize (Hframe db). by rewrite Hc in Hframe.
  - intros db1 db2 Hview Hids. unfold mbind, M_bind.
    destruct (Hread db1 db2 Hview Hids) as (Hresult & Hview' & Hids').
    destruct (c db1) as [[a1|message1] db1'], (c db2) as [[a2|message2] db2'];
      simpl in *; try done.
    + injection Hresult as ->. by apply (Hk a2).
    + by injection Hresult as ->.
Qed.

Lemma isolated_fmap {A B} scope (f : A → B) (c : M A) :
  isolated scope c → isolated scope (f <$> c).
Proof.
  intros Hc. apply isolated_bind; [done|]. intros a. apply isolated_ret.
Qed.

Lemma isolated_query {A} scope (f : DB → A) :
  (∀ db1 db2, scopeView scope db1 = scopeView scope db2 → f db1 = f db2) →
  isolated scope (query f).
Proof.
  intros Hf. split; [done|]. intros db1 db2 Hview Hids. simpl.
  by rewrite (Hf db1 db2 Hview).
Qed.

(** A statement on one table, as a computation. *)
Ltac split_views :=
  repeat match goal with
  | H : scopeView _ _ = scopeView _ _ |- _ =>
      unfold scopeView in H; injection H as ? ? ? ? ?
  | H : nextIds _ = nextIds _ |- _ =>
      unfold nextIds in H; injection H as ? ? ? ? ?
  end.

Ltac table_statement Htable column :=
  destruct Htable as [Hframe Hread]; split;
  [ intros db; unfold execute, foreignView; simpl; by rewrite Hframe
  | intros db1 db2 Hview Hids; split_views;
    destruct (Hread (column db1) (column db2)) as [Hrows' Hnext'];
    [assumption|assumption|];
    unfold execute, scopeView, nextIds; simpl;
    split; [done|]; split; congruence ].

Lemma execute_prompts_isolated scope (statement : list Prompt.t → list Prompt.t) :
  tableIsolated scope statement →
  isolated scope (execute (set_prompts statement)).
Proof. intros Htable. table_statement Htable prompts. Qed.

Lemma execute_promptVersions_isolated scope
    (statement : list PromptVersion.t → list PromptVersion.t) :
  tableIsolated scope statement →
  isolated scope (execute (set_promptVersions statement)).
Proof. intros Htable. table_statement Htable promptVersions. Qed.

Lemma execute_promptRouters_isolated scope
    (statement : list PromptRouter.t → list PromptRouter.t) :
  tableIsolated scope statement →
  isolated scope (execute (set_promptRouters statement)).
Proof. intros Htable. table_statement Htable promptRouters. Qed.

Lemma execute_dataSets_isolated scope
    (statement : list DataSet.t → list DataSet.t) :
  tableIsolated scope statement →
  isolated scope (execute (set_dataSets statement)).
Proof. intros Htable. table_statement Htable dataSets. Qed.

Lemma execute_dataSetRecords_isolated scope
    (statement : list DataSetRecord.t → list DataSetRecord.t) :
  tableIsolated scope statement →
  isolated scope (execute (set_dataSetRecords statement)).
Proof. intros Htable. table_statement Htable dataSetRecords. Qed.

(** *** The query predicates carry the scope *)

Ltac scoped :=
  intros;
  unfold inScope, toWhereClause, versionWhereClause, promptInProject,
    slugWhereClause, versionOfPrompt, routerOfPrompt, routerWhereClause,
    liveRecordOf, softDeleteWhere in *;
  simpl in *; tauto.

(** Every [WHERE] clause of the repositories holds of rows of the caller's
    tenant and project only. *)
Lemma where_clauses_scoped scope id :
  let entityId := EntityId.new id scope in
  (∀ r : Prompt.t, toWhereClause entityId r → inScope scope r) ∧
  (∀ r : DataSet.t, toWhereClause entityId r → inScope scope r) ∧
  (∀ r : DataSetRecord.t, toWhereClause entityId r → inScope scope r) ∧
  (∀ version r,
     versionWhereClause (PromptVersionId.new version entityId) r → inScope scope r) ∧
  (∀ r, promptInProject scope r → inScope scope r) ∧
  (∀ slug r, slugWhereClause scope slug r → inScope scope r) ∧
  (∀ r, versionOfPrompt entityId r → inScope scope r) ∧
  (∀ r, routerOfPrompt entityId r → inScope scope r) ∧
  (∀ routerId r, routerWhereClause entityId routerId r → inScope scope r) ∧
  (∀ r, liveRecordOf entityId r → inScope scope r) ∧
  (∀ recordIds r, softDeleteWhere entityId recordIds r → inScope scope r).
Proof. repeat split; scoped. Qed.

Lemma getProjectId_new id scope :
  EntityId.getProjectId (EntityId.new id scope) = scope.
Proof. by destruct scope. Qed.

(** *** The repository methods *)

Ltac isolated_select scope :=
  apply isolated_query; intros db1 db2 Hview; split_views;
  apply (scoped_select_first scope); [scoped|assumption].

Ltac isolated_filter scope column :=
  apply isolated_query; intros db1 db2 Hview; split_views;
  rewrite (scoped_filter scope _ (column db1)) by scoped;
  rewrite (scoped_filter scope _ (column db2)) by scoped;
  congruence.

Lemma findPrompts_isolated scope activeOnly :
  isolated scope (findPrompts scope activeOnly).
Proof. unfold findPrompts. isolated_filter scope prompts. Qed.

Lemma findPromptById_isolated scope id :
  isolated scope (findPromptById (EntityId.new id scope)).
Proof. unfold findPromptById. isolated_select scope. Qed.

Lemma findPromptBySlug_isolated scope slug :
  isolated scope (findPromptBySlug scope slug).
Proof. unfold findPromptBySlug. isolated_select scope. Qed.

Lemma findPromptVersion_isolated scope id version :
  isolated scope (findPromptVersion (EntityId.new id scope) version).
Proof. unfold findPromptVersion. isolated_select scope. Qed.

Lemma findPromptVersionOfId_isolated scope id version :
  isolated scope
    (findPromptVersionOfId (PromptVersionId.new version (EntityId.new id scope))).
Proof. unfold findPromptVersionOfId. isolated_select scope. Qed.

Lemma findPromptVersionById_isolated scope versionId :
  isolated scope (findPromptVersionById scope versionId).
Proof. unfold findPromptVersionById. isolated_select scope. Qed.

Lemma findPromptVersions_isolated scope id :
  isolated scope (findPromptVersions (EntityId.new id scope)).
Proof. unfold findPromptVersions. isolated_filter scope promptVersions. Qed.

Lemma findPromptRouter_isolated scope id :
  isolated scope (findPromptRouter (EntityId.new id scope)).
Proof. unfold findPromptRouter. isolated_select scope. Qed.

Lemma findById_isolated scope id :
  isolated scope (DataSetRepository.findById (EntityId.new id scope)).
Proof. unfold DataSetRepository.findById. isolated_select scope. Qed.

Lemma listByDataSet_isolated scope id :
  isolated scope (listByDataSet (EntityId.new id scope)).
Proof. unfold listByDataSet. isolated_filter scope dataSetRecords. Qed.

Lemma listByDataSetPaginated_isolated scope id pagination :
  isolated scope (listByDataSetPaginated (EntityId.new id scope) pagination).
Proof.
  unfold listByDataSetPaginated. isolated_filter scope dataSetRecords.
Qed.

(** A statement that also returns something read from the database. *)
Lemma isolated_returning {A} scope (c : M A) (result : DB → A)
    (statement : M unit) :
  (∀ db, c db = (Returned (result db), (statement db).2)) →
  isolated scope statement →
  (∀ db1 db2, scopeView scope db1 = scopeView scope db2 →
     nextIds db1 = nextIds db2 → result db1 = result db2) →
  isolated scope c.
Proof.
  intros Hc [Hframe Hread] Hresult. split.
  - intros db. rewrite Hc. apply Hframe.
  - intros db1 db2 Hview Hids. rewrite !Hc. simpl.
    destruct (Hread db1 db2 Hview Hids) as (_ & Hview' & Hids').
    by rewrite (Hresult db1 db2).
Qed.

(** A statement the database may reject: the rows that decide it are rows
    of the scope. *)
Lemma isolated_guard {A} scope (rejected : DB → Prop)
    `{!∀ db, Decision (rejected db)} message (c : M A) :
  (∀ db1 db2, scopeView scope db1 = scopeView scope db2 →
     rejected db1 ↔ rejected db2) →
  isolated scope c →
  isolated scope
    (λ db, if decide (rejected db) then (Thrown message, db) else c db).
Proof.
  intros Hrejected [Hframe Hread]. split.
  - intros db. by destruct (decide (rejected db)).
  - intros db1 db2 Hview Hids.
    specialize (Hrejected db1 db2 Hview).
    destruct (decide (rejected db1)), (decide (rejected db2));
      [simpl; done|tauto|tauto|by apply Hread].
Qed.

Lemma scoped_Exists `{Row A} scope (P : A → Prop) (table1 table2 : list A) :
  (∀ r, P r → inScope scope r) →
  scopeRows scope table1 = scopeRows scope table2 →
  Exists P table1 ↔ Exists P table2.
Proof.
  intros Hscoped Hrows.
  assert (∀ table, Exists P table ↔ Exists P (scopeRows scope table)) as Hview.
  { intros table. unfold scopeRows. rewrite !Exists_exists. split.
    - intros (r & Hr & HP). exists r. split; [|done].
      apply list_elem_of_filter. split; [by apply Hscoped|done].
    - intros (r & Hr & HP). exists r. split; [|done].
      by apply list_elem_of_filter in Hr as [_ Hr]. }
  by rewrite (Hview table1), (Hview table2), Hrows.
Qed.

Lemma scoped_Exists_filter `{Row A} scope (P others : A → Prop)
    `{!∀ r, Decision (others r)} (table1 table2 : list A) :
  (∀ r, P r → inScope scope r) →
  scopeRows scope table1 = scopeRows scope table2 →
  Exists P (filter others table1) ↔ Exists P (filter others table2).
Proof.
  intros Hscoped Hrows.
  assert (∀ table,
            Exists P (filter others table) ↔ Exists (λ r, others r ∧ P r) table)
    as Hfilter.
  { intros table. rewrite !Exists_exists. split.
    - intros (r & [Hothers Hr]%list_elem_of_filter & HP). by exists r.
    - intros (r & Hr & Hothers & HP). exists r. split; [|done].
      by apply list_elem_of_filter. }
  rewrite !Hfilter. apply (scoped_Exists scope); [|done].
  intros r [_ HP]. by apply Hscoped.
Qed.

Lemma createPrompt_isolated scope data :
  NewPrompt.tenantId data = ProjectId.tenantId scope →
  NewPrompt.projectId data = ProjectId.id scope →
  isolated scope (PromptRepository.createPrompt data).
Proof.
  intros Htenant Hproject.
  apply (isolated_guard scope
           (λ db, nameHeld (NewPrompt.tenantId data) (NewPrompt.projectId data)
                    (NewPrompt.name data) (prompts db) ∨
                  slugHeld (NewPrompt.tenantId data) (NewPrompt.projectId data)
                    (NewPrompt.slug data) (prompts db))).
  { intros db1 db2 Hview. split_views. unfold nameHeld, slugHeld.
    rewrite Htenant, Hproject.
    apply Morphisms_Prop.or_iff_morphism; apply (scoped_Exists scope);
      try done; intros r (? & ? & _); by split. }
  apply (isolated_returning scope _
           (λ db, insertPrompt (next_id (prompts db)) data)
           (execute (set_prompts (λ t, t ++ [insertPrompt (next_id t) data])))).
  - done.
  - apply execute_prompts_isolated, (insert_isolated scope (λ i, insertPrompt i data));
      [by split|done].
  - intros db1 db2 _ Hids. split_views. congruence.
Qed.

Lemma createPromptVersion_isolated scope data :
  NewPromptVersion.tenantId data = ProjectId.tenantId scope →
  NewPromptVersion.projectId data = ProjectId.id scope →
  isolated scope (createPromptVersion data).
Proof.
  intros Htenant Hproject.
  apply (isolated_returning scope _
           (λ db, insertPromptVersion (next_id (promptVersions db)) data)
           (execute (set_promptVersions
              (λ t, t ++ [insertPromptVersion (next_id t) data])))).
  - done.
  - apply execute_promptVersions_isolated,
      (insert_isolated scope (λ i, insertPromptVersion i data)); [by split|done].
  - intros db1 db2 _ Hids. split_views. congruence.
Qed.

Lemma createPromptRouter_isolated scope data :
  NewPromptRouter.tenantId data = ProjectId.tenantId scope →
  NewPromptRouter.projectId data = ProjectId.id scope →
  isolated scope (createPromptRouter data).
Proof.
  intros Htenant Hproject.
  apply (isolated_returning scope _
           (λ db, insertPromptRouter (next_id (promptRouters db)) data)
           (execute (set_promptRouters
              (λ t, t ++ [insertPromptRouter (next_id t) data])))).
  - done.
  - apply execute_promptRouters_isolated,
      (insert_isolated scope (λ i, insertPromptRouter i data)); [by split|done].
  - intros db1 db2 _ Hids. split_views. congruence.
Qed.

Lemma updatePrompt_isolated scope id data :
  isolated scope (PromptRepository.updatePrompt (EntityId.new id scope) data).
Proof.
  apply (isolated_guard scope
           (λ db, Exists (toWhereClause (EntityId.new id scope)) (prompts db) ∧
                  nameHeld (ProjectId.tenantId scope) (ProjectId.id scope)
                    (PromptData.name data)
                    (otherPrompts (EntityId.new id scope) (prompts db)))).
  { intros db1 db2 Hview. split_views. unfold nameHeld, otherPrompts.
    apply Morphisms_Prop.and_iff_morphism.
    - apply (scoped_Exists scope); [scoped|done].
    - apply (scoped_Exists_filter scope); [|done].
      intros r (? & ? & _); by split. }
  apply execute_prompts_isolated, update_where_isolated; try done. scoped.
Qed.

Lemma deactivatePrompt_isolated scope id :
  isolated scope (PromptRepository.deactivatePrompt (EntityId.new id scope)).
Proof.
  apply execute_prompts_isolated, update_where_isolated; try done. scoped.
Qed.

Lemma renamePrompt_isolated scope id name slug :
  isolated scope
    (PromptRepository.renamePrompt (EntityId.new id scope) name slug).
Proof.
  apply (isolated_guard scope
           (λ db, Exists (toWhereClause (EntityId.new id scope)) (prompts db) ∧
                  (nameHeld (ProjectId.tenantId scope) (ProjectId.id scope) name
                     (otherPrompts (EntityId.new id scope) (prompts db)) ∨
                   slugHeld (ProjectId.tenantId scope) (ProjectId.id scope) slug
                     (otherPrompts (EntityId.new id scope) (prompts db))))).
  { intros db1 db2 Hview. split_views. unfold nameHeld, slugHeld, otherPrompts.
    apply Morphisms_Prop.and_iff_morphism.
    - apply (scoped_Exists scope); [scoped|done].
    - apply Morphisms_Prop.or_iff_morphism;
        (apply (scoped_Exists_filter scope); [|done]);
        intros r (? & ? & _); by split. }
  apply execute_prompts_isolated, update_where_isolated; try done. scoped.
Qed.

Lemma updatePromptRouterVersion_isolated scope id routerId version :
  isolated scope
    (updatePromptRouterVersion (EntityId.new id scope) routerId version).
Proof.
  apply execute_promptRouters_isolated, update_where_isolated; try done. scoped.
Qed.

Lemma incrementRecordCountBy_isolated scope id amount :
  isolated scope (incrementRecordCountBy (EntityId.new id scope) amount).
Proof.
  unfold incrementRecordCountBy.
  destruct (decide (amount = 0)); [apply isolated_ret|].
  apply execute_dataSets_isolated, update_where_isolated; try done. scoped.
Qed.

Lemma softDelete_isolated scope id :
  isolated scope (softDelete (EntityId.new id scope)).
Proof.
  apply execute_dataSets_isolated, update_where_isolated; try done. scoped.
Qed.

Lemma updateSchema_isolated scope id schema :
  isolated scope (updateSchema (EntityId.new id scope) schema).
Proof.
  apply execute_dataSets_isolated, update_where_isolated; try done. scoped.
Qed.

Lemma softDeleteMany_isolated scope id recordIds :
  isolated scope (softDeleteMany (EntityId.new id scope) recordIds).
Proof.
  unfold softDeleteMany.
  destruct recordIds as [|recordId recordIds]; [apply isolated_ret|].
  set (cond := softDeleteWhere (EntityId.new id scope) (recordId :: recordIds)).
  apply (isolated_returning scope _
           (λ db, Z.of_nat (length (filter cond (dataSetRecords db))))
           (execute (set_dataSetRecords (update_where cond setRecordDeleted)))).
  - done.
  - apply execute_dataSetRecords_isolated, update_where_isolated; try done.
    subst cond. scoped.
  - intros db1 db2 Hview _. split_views.
    rewrite (scoped_filter scope cond (dataSetRecords db1)) by (subst cond; scoped).
    rewrite (scoped_filter scope cond (dataSetRecords db2)) by (subst cond; scoped).
    congruence.
Qed.

Lemma next_id_app `{Row A} (table rows : list A) :
  next_id (table ++ rows) = Z.max (next_id table) (next_id rows).
Proof.
  unfold next_id. rewrite fmap_app, foldr_app.
  assert (0 ≤ foldr Z.max 0 (row_id <$> rows)) as Hrows.
  { induction (row_id <$> rows) as [|i ids IH]; simpl; lia. }
  induction (row_id <$> table) as [|i ids IH]; simpl; lia.
Qed.

Lemma createMany_isolated scope records :
  Forall (λ d, NewDataSetRecord.tenantId d = ProjectId.tenantId scope ∧
               NewDataSetRecord.projectId d = ProjectId.id scope) records →
  isolated scope (createMany records).
Proof.
  intros Hrecords.
  set (rows := λ first : Z,
         imap (λ i d, insertDataSetRecord (first + Z.of_nat i) d) records).
  assert (∀ first, Forall (inScope scope) (rows first)) as Hrows.
  { intros first. subst rows. simpl. apply Forall_forall. intros r Hr.
    apply list_elem_of_lookup in Hr as [i Hi].
    rewrite list_lookup_imap in Hi.
    destruct (records !! i) as [d|] eqn:Hd; [|done]. injection Hi as <-.
    by apply (Forall_lookup_1 _ _ _ _ Hrecords Hd). }
  apply (isolated_returning scope _
           (λ db, rows (next_id (dataSetRecords db)))
           (execute (set_dataSetRecords (λ t, t ++ rows (next_id t))))).
  - done.
  - apply execute_dataSetRecords_isolated. split.
    + intros table. unfold foreignRows. rewrite filter_app.
      rewrite (filter_none _ (rows _)); [by rewrite app_nil_r|].
      intros r Hr Hforeign. apply Hforeign.
      by eapply Forall_forall in Hr; [|apply Hrows].
    + intros table1 table2 Hscope Hnext. unfold scopeRows in *.
      rewrite !filter_app, !next_id_app, Hscope, Hnext. done.
  - intros db1 db2 _ Hids. split_views. congruence.
Qed.

(** *** The service methods *)

Lemma pointRouter_isolated scope id version :
  isolated scope (PromptService.pointRouter (EntityId.new id scope) version).
Proof.
  unfold PromptService.pointRouter.
  apply isolated_bind; [apply findPromptRouter_isolated|].
  intros [router|]; [apply updatePromptRouterVersion_isolated|].
  apply isolated_bind; [by apply createPromptRouter_isolated|].
  intros _. apply isolated_ret.
Qed.

Lemma copyPromptLoop_isolated scope fuel source newName newSlug copyNumber :
  isolated scope
    (PromptService.copyPromptLoop fuel scope source newName newSlug copyNumber).
Proof.
  revert newName newSlug copyNumber.
  induction fuel as [|fuel IH]; intros newName newSlug copyNumber; simpl.
  - apply isolated_ret.
  - apply isolated_bind; [apply findPromptBySlug_isolated|].
    intros [taken|]; [apply IH|apply isolated_ret].
Qed.

Lemma createMany_newRecords_isolated scope id variables :
  isolated scope
    (createMany (DataSetService.newRecord (EntityId.new id scope) <$> variables)).
Proof.
  apply createMany_isolated, Forall_fmap, Forall_forall. by intros.
Qed.

Ltac isolate_step :=
  lazymatch goal with
  | |- isolated _ (mbind _ _) => apply isolated_bind; [|intros ?]
  | |- isolated _ (fmap _ _) => apply isolated_fmap
  | |- isolated _ (mret _) => apply isolated_ret
  | |- isolated _ (throw _) => apply isolated_throw
  | |- isolated _ (match DataSetService.addLogsLoop _ _ _ _ _ with _ => _ end) =>
      rewrite addLogsLoop_spec; cbv beta iota
  | |- isolated _ (createMany (_ ++ (DataSetService.newRecord _ <$> _))) =>
      apply createMany_newRecords_isolated
  | |- isolated _ (createMany [DataSetService.newRecord _ ?variables]) =>
      apply (createMany_newRecords_isolated _ _ [variables])
  | |- isolated _ (PromptService.pointRouter _ _) => apply pointRouter_isolated
  | |- isolated _ (PromptService.copyPromptLoop _ _ _ _ _ _) =>
      apply copyPromptLoop_isolated
  | |- isolated _ (match ?x with _ => _ end) => destruct x
  | |- isolated _ (PromptRepository.createPrompt _) =>
      apply createPrompt_isolated; reflexivity
  | |- isolated _ (createPromptVersion _) =>
      apply createPromptVersion_isolated; reflexivity
  | |- isolated _ (createPromptRouter _) =>
      apply createPromptRouter_isolated; reflexivity
  | |- isolated _ _ =>
      first
        [ apply findPrompts_isolated
        | apply findPromptById_isolated
        | apply findPromptBySlug_isolated
        | apply findPromptVersion_isolated
        | apply findPromptVersionOfId_isolated
        | apply findPromptVersionById_isolated
        | apply findPromptVersions_isolated
        | apply findPromptRouter_isolated
        | apply findById_isolated
        | apply listByDataSet_isolated
        | apply listByDataSetPaginated_isolated
        | apply updatePrompt_isolated
        | apply deactivatePrompt_isolated
        | apply renamePrompt_isolated
        | apply updatePromptRouterVersion_isolated
        | apply incrementRecordCountBy_isolated
        | apply softDelete_isolated
        | apply updateSchema_isolated
        | apply softDeleteMany_isolated ]
  end.

Ltac isolate := repeat isolate_step.

Lemma run_isolated scope op : isolated scope (run scope op).
Proof.
  destruct op; unfold run;
    unfold PromptService.createPrompt, PromptService.updatePrompt,
      PromptService.getPromptById, PromptService.getPromptVersion,
      PromptService.getPromptVersionById, PromptService.listPromptVersions,
      PromptService.listPrompts, PromptService.deactivatePrompt,
      PromptService.getPromptBySlug, PromptService.getActivePromptVersion,
      PromptService.getActiveRouterVersion, PromptService.setRouterVersion,
      PromptService.copyPrompt, PromptService.renamePrompt,
      DataSetService.getDataSetById, DataSetService.deleteDataSet,
      DataSetService.createDataSetRecord, DataSetService.listDataSetRecords,
      DataSetService.listDataSetRecordsPaginated,
      DataSetService.deleteDataSetRecords, DataSetService.addLogsToDataSet;
    rewrite ?getProjectId_new.
  all: isolate.
Qed.

(** *** Two scopes *)

Lemma scopeRows_foreignRows `{Row A} scope other (table : list A) :
  ProjectId.tenantId scope ≠ ProjectId.tenantId other ∨
  ProjectId.id scope ≠ ProjectId.id other →
  scopeRows other table = scopeRows other (foreignRows scope table).
Proof.
  intros Hdiffer. unfold scopeRows, foreignRows.
  rewrite list_filter_filter. apply list_filter_iff.
  intros r. unfold inScope. split; [|tauto].
  intros [Ht Hp]. split; [done|]. intros [Ht' Hp'].
  destruct Hdiffer as [Hne|Hne]; apply Hne; congruence.
Qed.

Lemma scopeView_foreignView scope other db :
  ProjectId.tenantId scope ≠ ProjectId.tenantId other ∨
  ProjectId.id scope ≠ ProjectId.id other →
  scopeView other db = scopeView other (foreignView scope db).
Proof.
  intros Hdiffer. unfold scopeView, foreignView. simpl.
  by rewrite <-!(scopeRows_foreignRows scope other).
Qed.

(** C9. For two scopes that differ in [tenantId] or in [projectId] and
    every operation of the two services issued under the first: the rows
    of the second scope are left as they are; and in two databases that
    differ in rows of the second scope only, and hand out the same ids
    next, the operation returns the same, throws the same and leaves the
    same rows in its own scope, so that no read and no slug probe depends
    on a row of the second scope.  Every [WHERE] clause built for the
    caller holds of rows of the caller's tenant and project only. *)
Theorem tenant_isolation scope other op :
  ProjectId.tenantId scope ≠ ProjectId.tenantId other ∨
  ProjectId.id scope ≠ ProjectId.id other →
  (∀ db, scopeView other (run scope op db).2 = scopeView other db) ∧
  (∀ db1 db2,
     foreignView other db1 = foreignView other db2 →
     nextIds db1 = nextIds db2 →
     (run scope op db1).1 = (run scope op db2).1 ∧
     scopeView scope (run scope op db1).2 = scopeView scope (run scope op db2).2) ∧
  whereClausesCarryScope scope.
Proof.
  intros Hdiffer.
  destruct (run_isolated scope op) as [Hframe Hread].
  split; [|split].
  - intros db.
    rewrite (scopeView_foreignView scope other) by done.
    rewrite Hframe. by rewrite <-(scopeView_foreignView scope other).
  - intros db1 db2 Hrest Hids.
    assert (scopeView scope db1 = scopeView scope db2) as Hview.
    { assert (ProjectId.tenantId other ≠ ProjectId.tenantId scope ∨
              ProjectId.id other ≠ ProjectId.id scope) as Hdiffer'
        by (destruct Hdiffer; [left|right]; congruence).
      rewrite (scopeView_foreignView other scope db1) by done.
      rewrite (scopeView_foreignView other scope db2) by done.
      by rewrite Hrest. }
    destruct (Hread db1 db2 Hview Hids) as (Hresult & Hview' & _). done.
  - intros id. apply where_clauses_scoped.
Qed.

(** A witness for [tenant_isolation]: tenant 1 copies its prompt "x" while
    tenant 2 holds a prompt with the slug "x-copy"; the copy gets that slug,
    and the rows of tenant 2 stay. *)
Lemma tenant_isolation_witness :
  let scope := ProjectId.mk 1 1 "user" in
  let other := ProjectId.mk 1 2 "other" in
  let db :=
    mkDB [Prompt.mk 1 1 1 "X" "x" "openai" "gpt-4" "{}" 1 true;
          Prompt.mk 2 2 1 "X Copy" "x-copy" "openai" "gpt-4" "{}" 1 true]
         [PromptVersion.mk 1 1 1 1 1 "X" "openai" "gpt-4" "{}" "x";
          PromptVersion.mk 2 2 2 1 1 "X Copy" "openai" "gpt-4" "{}" "x-copy"]
         [PromptRouter.mk 1 1 1 1 1; PromptRouter.mk 2 2 2 1 1] [] [] in
  (ProjectId.tenantId scope ≠ ProjectId.tenantId other ∨
   ProjectId.id scope ≠ ProjectId.id other) ∧
  scopeView other (run scope (CopyPrompt 3 1) db).2 = scopeView other db ∧
  (run scope (CopyPrompt 3 1) db).1
  = Returned (OptionalPrompt
      (Some (Prompt.mk 3 1 1 "X Copy" "x-copy" "openai" "gpt-4" "{}" 1 true))).
Proof.
  intros scope other db.
  assert (ProjectId.tenantId scope ≠ ProjectId.tenantId other ∨
          ProjectId.id scope ≠ ProjectId.id other) as Hdiffer
    by (left; discriminate).
  split; [exact Hdiffer|].
  destruct (tenant_isolation scope other (CopyPrompt 3 1) Hdiffer)
    as (Hframe & _ & _).
  split; [exact (Hframe db)|].
  vm_compute. reflexivity.
Defined.

End Isolation.

(** * Further properties of the services *)

(** ** The stored schema (DataSetService) *)

Section SchemaStore.

(** Assigning the entries of a list in turn: the last entry of a key
    stays. *)
Lemma assigned_lookup {V} (entries : list (string * V)) (object : gmap string V)
    key :
  foldl (λ object '(k, v), <[k := v]> object) object entries !! key
  = match foldl (λ (object : gmap string V) '(k, v), <[k := v]> object) ∅ entries
            !! key with
    | Some value => Some value
    | None => object !! key
    end.
Proof.
  revert object.
  induction entries as [|[k v] entries IH] using rev_ind; intros object.
  { simpl. by rewrite lookup_empty. }
  rewrite !foldl_app. simpl. rewrite !lookup_insert.
  destruct (decide (k = key)); [done|]. apply IH.
Qed.

Lemma assigned_elem_of {V} (entries : list (string * V)) key value :
  NoDup entries.*1 →
  foldl (λ (object : gmap string V) '(k, v), <[k := v]> object) ∅ entries !! key
  = Some value
  ↔ (key, value) ∈ entries.
Proof.
  induction entries as [|[k v] entries IH] using rev_ind; intros Hnodup.
  { simpl. rewrite lookup_empty. split; [done|]. by intros ?%not_elem_of_nil. }
  rewrite fmap_app in Hnodup. apply NoDup_app in Hnodup as (Hentries & Hnew & _).
  rewrite foldl_app. simpl. rewrite lookup_insert, elem_of_app,
    list_elem_of_singleton.
  destruct (decide (k = key)) as [->|Hne].
  - split.
    + intros [= ->]. by right.
    + intros [Hin|[= ->]]; [|done]. exfalso.
      apply (Hnew key); [|simpl; by left].
      apply list_elem_of_fmap. by exists (key, value).
  - rewrite IH by done. split; [by left|]. intros [?|[= ? ?]]; [done|].
    by subst.
Qed.

(** [{ ...object }] of the entries of an object is the object. *)
Lemma spread_map_to_list (object : gmap string json) :
  spread (map_to_list object) = object.
Proof.
  apply map_eq. intros key. apply option_eq. intros value. unfold spread.
  rewrite assigned_elem_of by apply NoDup_fst_map_to_list.
  apply elem_of_map_to_list.
Qed.

(** X1.  Writing a schema to the column and reading it back
    ([JSON.stringify(schema)], then [parseSchema]) gives the own entries of
    [fields] again, each with the type it recorded; what is lost is a
    prototype that an assignment to [fields.__proto__] has installed. *)
Theorem parseSchema_stringifySchema schema :
  parseSchema (stringifySchema schema) = mkSchema (fields schema) None ∧
  (∀ path, typeAt (parseSchema (stringifySchema schema)) path = typeAt schema path) ∧
  (∀ variables db entityId dataset,
     DataSetService.getDataSetById entityId db = (Returned (Some dataset), db) →
     ∀ i d, dataSets db !! i = Some d → toWhereClause entityId d →
       (λ d', fields (parseSchema (DataSet.schema d')))
         <$> dataSets (DataSetService.createDataSetRecord entityId variables db).2 !! i
       = Some (fields (mergeSchema (parseSchema (DataSet.schema dataset)) variables))).
Proof.
  assert (parseSchema (stringifySchema schema) = mkSchema (fields schema) None)
    as Hparse.
  { unfold parseSchema, stringifySchema. simpl.
    by rewrite spread_map_to_list. }
  split; [done|]. split.
  { intros path. by rewrite Hparse. }
  intros variables db entityId dataset Hfound i d Hi Hd.
  unfold DataSetService.getDataSetById in Hfound.
  autounfold with repository in Hfound. unfold query in Hfound.
  injection Hfound as Hfound.
  pose proof (createDataSetRecord_run entityId variables db) as Hrun.
  rewrite Hfound in Hrun. simpl in Hrun. rewrite Hrun. simpl.
  unfold update_where. rewrite !list_lookup_fmap, Hi. simpl.
  destruct (decide (toWhereClause entityId d)) as [_|]; [|done].
  rewrite decide_True by done. simpl. f_equal.
  by rewrite spread_map_to_list.
Qed.

End SchemaStore.

(** ** Merging payloads into a schema (DataSetService.mergeSchema) *)

Section SchemaMerge.

Lemma getField_setField schema path type :
  path ≠ "__proto__" →
  getField (setField schema path type) path = Value (typeObject type).
Proof.
  intros Hproto. unfold getField, setField.
  rewrite decide_False by (by intros [? _]). simpl.
  by rewrite lookup_insert_eq.
Qed.

Lemma setField_setField schema path type type' :
  path ≠ "__proto__" →
  setField (setField schema path type) path type' = setField schema path type'.
Proof.
  intros Hproto. unfold setField.
  rewrite !decide_False by (by intros [? _]). simpl.
  f_equal. by rewrite insert_insert_eq.
Qed.

(** One more observation at a path that was just written. *)
Lemma mergeField_setField schema path type type' :
  path ≠ "__proto__" →
  mergeField (setField schema path type) path type'
  = if bool_decide (type ≠ type') && bool_decide (type ≠ "mixed")
    then setField schema path "mixed"
    else setField schema path type.
Proof.
  intros Hproto. unfold mergeField. cbv zeta.
  rewrite getField_setField by done. simpl.
  destruct (bool_decide (type ≠ type') && bool_decide (type ≠ "mixed")); [|done].
  by apply setField_setField.
Qed.

Lemma mergeField_same_path schema path type1 type2 :
  path ≠ "__proto__" →
  mergeField (mergeField schema path type2) path type1
  = mergeField (mergeField schema path type1) path type2.
Proof.
  intros Hproto.
  assert (∀ type',
            mergeField (setField schema path "mixed") path type'
            = setField schema path "mixed") as Hmixed.
  { intros type'. rewrite mergeField_setField by done.
    by rewrite (bool_decide_eq_false_2 ("mixed" ≠ "mixed")), andb_false_r
      by (by intros []). }
  unfold mergeField at 2 4. cbv zeta.
  destruct (negb (truthy (getField schema path))) eqn:Hempty.
  - rewrite !mergeField_setField by done.
    repeat case_bool_decide; simpl; congruence.
  - destruct (differsFrom (typeProperty (getField schema path)) type2
              && differsFrom (typeProperty (getField schema path)) "mixed")
      eqn:Hwiden2,
      (differsFrom (typeProperty (getField schema path)) type1
       && differsFrom (typeProperty (getField schema path)) "mixed")
      eqn:Hwiden1;
      rewrite ?Hmixed by done; unfold mergeField; cbv zeta;
      rewrite ?Hempty, ?Hwiden1, ?Hwiden2; done.
Qed.

Lemma mergeField_any_path schema path1 type1 path2 type2 :
  path1 ≠ "__proto__" → path2 ≠ "__proto__" →
  mergeField (mergeField schema path2 type2) path1 type1
  = mergeField (mergeField schema path1 type1) path2 type2.
Proof.
  intros Hproto1 Hproto2. destruct (decide (path1 = path2)) as [->|Hne].
  - by apply mergeField_same_path.
  - by apply mergeField_commute.
Qed.

Lemma mergeField_idempotent schema path type :
  path ≠ "__proto__" →
  mergeField (mergeField schema path type) path type = mergeField schema path type.
Proof.
  intros Hproto. unfold mergeField at 2 3. cbv zeta.
  destruct (negb (truthy (getField schema path))) eqn:Hempty.
  - rewrite mergeField_setField by done.
    by rewrite (bool_decide_eq_false_2 (type ≠ type)) by (by intros []).
  - destruct (differsFrom (typeProperty (getField schema path)) type
              && differsFrom (typeProperty (getField schema path)) "mixed")
      eqn:Hwiden.
    + rewrite mergeField_setField by done.
      by rewrite (bool_decide_eq_false_2 ("mixed" ≠ "mixed")), andb_false_r
        by (by intros []).
    + unfold mergeField. cbv zeta. by rewrite Hempty, Hwiden.
Qed.

(** The loop of [mergeSchema] over a list of [[path, type]] pairs. *)
Lemma mergeSchema_foldr schema variables :
  mergeSchema schema variables
  = foldr (λ '(path, type) schema, mergeField schema path type) schema
      (map_to_list (collectFields variables "")).
Proof.
  unfold mergeSchema. rewrite map_fold_foldr.
  apply foldr_ext; [|done..]. by intros [path type] schema'.
Qed.

Lemma collected_paths variables :
  Forall (λ pair : string * string, pair.1 ≠ "__proto__")
    (map_to_list (collectFields variables "")).
Proof.
  apply Forall_forall. intros [path type] Hin%elem_of_map_to_list. simpl.
  intros ->. by rewrite collectFields_lookup, decide_True in Hin.
Qed.

Lemma mergeFields_permutation schema (pairs pairs' : list (string * string)) :
  Forall (λ pair, pair.1 ≠ "__proto__") pairs →
  pairs ≡ₚ pairs' →
  foldr (λ '(path, type) schema, mergeField schema path type) schema pairs
  = foldr (λ '(path, type) schema, mergeField schema path type) schema pairs'.
Proof.
  intros Hpaths Hperm.
  apply (foldr_permutation (=) _ schema); [|done].
  intros j1 [path1 type1] j2 [path2 type2] schema' _ Hj1 Hj2.
  rewrite Forall_forall in Hpaths.
  apply mergeField_any_path.
  - by apply (Hpaths (path1, type1)), list_elem_of_lookup_2 with j1.
  - by apply (Hpaths (path2, type2)), list_elem_of_lookup_2 with j2.
Qed.

Lemma mergeFields_twice schema (pairs : list (string * string)) :
  Forall (λ pair, pair.1 ≠ "__proto__") pairs →
  foldr (λ '(path, type) schema, mergeField schema path type) schema
    (pairs ++ pairs)
  = foldr (λ '(path, type) schema, mergeField schema path type) schema pairs.
Proof.
  induction pairs as [|[path type] pairs IH]; intros Hpaths; [done|].
  apply Forall_cons in Hpaths as [Hpath Hpaths]. simpl in Hpath.
  change (((path, type) :: pairs) ++ (path, type) :: pairs)
    with ((path, type) :: (pairs ++ (path, type) :: pairs)).
  rewrite !foldr_cons.
  rewrite (mergeFields_permutation schema (pairs ++ (path, type) :: pairs)
             ((path, type) :: (pairs ++ pairs))).
  - rewrite foldr_cons, IH by done. by apply mergeField_idempotent.
  - apply Forall_app. split; [done|]. by apply Forall_cons.
  - by rewrite <-Permutation_middle.
Qed.

(** X2.  Recording the same payload a second time changes nothing: the
    schema [mergeSchema] leaves is the one the first pass left. *)
Theorem mergeSchema_idempotent schema variables :
  mergeSchema (mergeSchema schema variables) variables
  = mergeSchema schema variables.
Proof.
  rewrite !mergeSchema_foldr, <-foldr_app.
  apply mergeFields_twice, collected_paths.
Qed.

Lemma foldl_permutation_commute {A B} (f : A → B → A) :
  (∀ a b1 b2, f (f a b1) b2 = f (f a b2) b1) →
  ∀ l l', l ≡ₚ l' → ∀ a, foldl f a l = foldl f a l'.
Proof.
  intros Hcommute l l' Hperm.
  induction Hperm as [|b l l' _ IH|b1 b2 l|l1 l2 l3 _ IH1 _ IH2]; intros a.
  - done.
  - simpl. apply IH.
  - simpl. by rewrite Hcommute.
  - by rewrite IH1.
Qed.

Lemma mergeSchema_commute schema first second :
  mergeSchema (mergeSchema schema first) second
  = mergeSchema (mergeSchema schema second) first.
Proof.
  rewrite !mergeSchema_foldr, <-!foldr_app.
  apply mergeFields_permutation.
  - apply Forall_app. split; apply collected_paths.
  - apply Permutation_app_comm.
Qed.

(** X3.  The schema does not depend on the order in which payloads are
    merged: two payloads can be swapped, and [addLogsToDataSet] leaves the
    same schema for the settled results of any rearrangement of the log ids. *)
Theorem mergeSchema_order schema first second :
  mergeSchema (mergeSchema schema first) second
  = mergeSchema (mergeSchema schema second) first ∧
  ∀ entityId results results',
    results ≡ₚ results' →
    (DataSetService.addLogsLoop entityId results schema [] 0).1.1
    = (DataSetService.addLogsLoop entityId results' schema [] 0).1.1.
Proof.
  split; [apply mergeSchema_commute|].
  intros entityId results results' Hperm. rewrite !addLogsLoop_spec. simpl.
  apply (foldl_permutation_commute mergeSchema).
  - intros. apply mergeSchema_commute.
  - unfold acceptedVariables. by rewrite Hperm.
Qed.

End SchemaMerge.

(** ** The vocabulary of a schema (DataSetService.collectFields) *)

Section SchemaVocabulary.

Lemma pathOf_not_empty prefix : pathOf prefix ≠ "".
Proof. unfold pathOf. by destruct (decide (prefix = "")). Qed.

Lemma nextPrefixOf_not_empty prefix key :
  prefix ≠ "" → nextPrefixOf prefix key ≠ "".
Proof.
  intros Hprefix. unfold nextPrefixOf. rewrite decide_False by done.
  by destruct prefix.
Qed.

Lemma setString_collected path type :
  path ≠ "" →
  type ∈ ["null"; "array"; "object"; "boolean"; "number"; "string"] →
  map_Forall collectedName (setString ∅ path type).
Proof.
  intros Hpath Htype key value. rewrite setString_lookup.
  destruct (decide (path = "__proto__")); [by rewrite lookup_empty|].
  destruct (decide (path = key)) as [<-|]; [|by rewrite lookup_empty].
  by intros [= <-].
Qed.

Lemma Object_assign_collected (target source : gmap string string) :
  map_Forall collectedName target → map_Forall collectedName source →
  map_Forall collectedName (Object_assign target source).
Proof.
  intros Htarget Hsource key value. rewrite Object_assign_lookup.
  destruct (decide (key = "__proto__")); [apply Htarget|].
  destruct (source !! key) eqn:Hkey; [|apply Htarget].
  intros [= <-]. by apply Hsource.
Qed.

Lemma collectFields_collected value :
  ∀ prefix, map_Forall collectedName (collectFields value prefix).
Proof.
  induction value as [|b|n|s|items|entries IH] using json_entries_ind;
    intros prefix;
    try (apply setString_collected; [apply pathOf_not_empty|set_solver]).
  rewrite collectFields_entries.
  destruct entries as [|entry entries].
  { destruct (decide (prefix = "")); [apply map_Forall_empty|].
    apply setString_collected; [done|set_solver]. }
  generalize dependent (entry :: entries). clear entry entries.
  intros entries IH.
  assert (∀ fields : gmap string string,
            map_Forall collectedName fields →
            map_Forall collectedName
              (foldl (λ fields '(key, next),
                        Object_assign fields
                          (collectFields next (nextPrefixOf prefix key)))
                 fields entries)) as Hloop.
  { induction IH as [|[key next] entries Hnext _ IHentries]; intros fields Hfields;
      [done|].
    simpl. apply IHentries, Object_assign_collected; [done|]. apply Hnext. }
  apply Hloop, map_Forall_empty.
Qed.

Lemma typeAt_setField schema path type path' :
  path ≠ "__proto__" →
  typeAt (setField schema path type) path'
  = if decide (path = path') then Some type else typeAt schema path'.
Proof.
  intros Hproto. unfold typeAt, setField.
  rewrite decide_False by (by intros [? _]). simpl.
  destruct (decide (path = path')) as [<-|Hne].
  - by rewrite lookup_insert_eq.
  - by rewrite lookup_insert_ne.
Qed.

(** X4.  Every entry of [collectFields] has a path that is neither empty nor
    [__proto__] and one of the type names "null", "array", "object",
    "boolean", "number" and "string"; so a type that [mergeSchema] leaves at
    a path is the type that was there, one of these six, or "mixed". *)
Theorem collectFields_vocabulary value prefix :
  map_Forall collectedName (collectFields value prefix) ∧
  ∀ schema path type,
    typeAt (mergeSchema schema value) path = Some type →
    typeAt schema path = Some type ∨
    type ∈ ["null"; "array"; "object"; "boolean"; "number"; "string"; "mixed"].
Proof.
  split; [apply collectFields_collected|].
  intros schema path type. unfold mergeSchema.
  pose proof (collectFields_collected value "") as Hnames. revert Hnames.
  apply (map_fold_weak_ind (λ schema' fields,
    map_Forall collectedName fields →
    typeAt schema' path = Some type →
    typeAt schema path = Some type ∨
    type ∈ ["null"; "array"; "object"; "boolean"; "number"; "string"; "mixed"])).
  { intros _ ?. by left. }
  intros path' type' fields schema' Hfresh IH Hnames.
  apply map_Forall_insert in Hnames as [(_ & Hproto & Htype) Hnames]; [|done].
  specialize (IH Hnames). unfold mergeField. cbv zeta.
  destruct (negb _).
  - rewrite typeAt_setField by done. case_decide; [|done].
    intros [= <-]. right. revert Htype. rewrite !elem_of_cons. tauto.
  - destruct (_ && _); [|done].
    rewrite typeAt_setField by done. case_decide; [|done].
    intros [= <-]. right. rewrite !elem_of_cons. tauto.
Qed.

End SchemaVocabulary.

(** ** Slugs (PromptService.generateSlug, DataSetService.generateSlug) *)

Section Slugs.

Lemma filter_all {A} (P : A → Prop) `{!∀ r, Decision (P r)} (l : list A) :
  Forall P l → filter P l = l.
Proof.
  induction 1 as [|x l Hx _ IH]; [done|].
  by rewrite filter_cons_True, IH.
Qed.

Lemma toLowerCaseChar_slug c : isSlugChar c = true → toLowerCaseChar c = c.
Proof.
  unfold isSlugChar, toLowerCaseChar. cbv zeta.
  intros Hc%orb_true_iff. rewrite !bool_decide_eq_true in Hc.
  rewrite decide_False; [done|]. lia.
Qed.

Lemma toLowerCase_slugAlphabet s : slugAlphabet s = true → toLowerCase s = s.
Proof.
  induction s as [|c s IH]; [done|]. simpl.
  intros [Hc Hs]%andb_true_iff. rewrite IH by done. f_equal.
  apply orb_true_iff in Hc as [Hc|Hc%bool_decide_eq_true].
  - by apply toLowerCaseChar_slug.
  - by subst.
Qed.

Lemma allSlugChars_slugAlphabet s : allSlugChars s = true → slugAlphabet s = true.
Proof.
  induction s as [|c s IH]; [done|]. simpl.
  intros [Hc Hs]%andb_true_iff. by rewrite Hc, IH.
Qed.

Lemma slugAlphabet_app s1 s2 :
  slugAlphabet (s1 +:+ s2) = slugAlphabet s1 && slugAlphabet s2.
Proof.
  induction s1 as [|c s1 IH]; [done|].
  change (String c s1 +:+ s2) with (String c (s1 +:+ s2)).
  simpl. by rewrite IH, andb_assoc.
Qed.

Lemma slugAlphabet_concat segments :
  Forall (λ segment, allSlugChars segment = true) segments →
  slugAlphabet (String.concat "-" segments) = true.
Proof.
  induction 1 as [|segment segments Hsegment _ IH]; [done|].
  destruct segments as [|segment' segments].
  { by apply allSlugChars_slugAlphabet. }
  change (String.concat "-" (segment :: segment' :: segments))
    with (segment +:+ "-" +:+ String.concat "-" (segment' :: segments)).
  rewrite !slugAlphabet_app, IH, allSlugChars_slugAlphabet by done. done.
Qed.

Lemma splitNonSlug_segments s :
  Forall (λ segment, allSlugChars segment = true) (splitNonSlug s).
Proof.
  induction s as [|c s IH]; [by repeat constructor|]. simpl.
  destruct (isSlugChar c) eqn:Hc.
  - destruct (splitNonSlug s) as [|segment rest].
    + repeat constructor. simpl. by rewrite Hc.
    + apply Forall_cons in IH as [Hsegment Hrest].
      constructor; [|done]. simpl. by rewrite Hc, Hsegment.
  - by constructor.
Qed.

Lemma splitNonSlug_run segment :
  allSlugChars segment = true → splitNonSlug segment = [segment].
Proof.
  induction segment as [|c segment IH]; [done|]. simpl.
  intros [Hc Hsegment]%andb_true_iff. by rewrite Hc, IH.
Qed.

Lemma splitNonSlug_hyphen segment rest :
  allSlugChars segment = true →
  splitNonSlug (segment +:+ "-" +:+ rest) = segment :: splitNonSlug rest.
Proof.
  induction segment as [|c segment IH]; [done|].
  change (String c segment +:+ "-" +:+ rest)
    with (String c (segment +:+ "-" +:+ rest)).
  simpl. intros [Hc Hsegment]%andb_true_iff. by rewrite Hc, IH.
Qed.

Lemma splitNonSlug_concat segment segments :
  Forall (λ segment, allSlugChars segment = true) (segment :: segments) →
  splitNonSlug (String.concat "-" (segment :: segments)) = segment :: segments.
Proof.
  revert segment. induction segments as [|segment' segments IH];
    intros segment [Hsegment Hsegments]%Forall_cons.
  { by apply splitNonSlug_run. }
  change (String.concat "-" (segment :: segment' :: segments))
    with (segment +:+ "-" +:+ String.concat "-" (segment' :: segments)).
  by rewrite splitNonSlug_hyphen, IH.
Qed.

Lemma generateSlug_isSlug name : isSlug (generateSlug name).
Proof.
  exists (filter (λ segment, segment ≠ EmptyString)
            (splitNonSlug (toLowerCase name))).
  split; [|done].
  apply Forall_forall. intros segment [Hne Hin]%list_elem_of_filter.
  split; [done|].
  by apply (proj1 (Forall_forall _ _) (splitNonSlug_segments (toLowerCase name))).
Qed.

Lemma generateSlug_fixes_slug slug : isSlug slug → generateSlug slug = slug.
Proof.
  intros (segments & Hsegments & ->). unfold generateSlug.
  assert (Forall (λ segment, allSlugChars segment = true) segments) as Hruns.
  { eapply Forall_impl; [done|]. by intros segment [_ ?]. }
  rewrite toLowerCase_slugAlphabet by by apply slugAlphabet_concat.
  destruct segments as [|segment segments]; [done|].
  rewrite splitNonSlug_concat by done. f_equal.
  apply filter_all. eapply Forall_impl; [exact Hsegments|]. by intros ? [? _].
Qed.

Lemma splitNonSlug_empty s :
  anySlugChar s = false ↔ Forall (λ segment, segment = "") (splitNonSlug s).
Proof.
  induction s as [|c s IH]; [by split; repeat constructor|]. simpl.
  destruct (isSlugChar c) eqn:Hc; simpl.
  - split; [done|]. destruct (splitNonSlug s); by intros [[=] _]%Forall_cons.
  - rewrite IH. split; [by constructor|]. by intros [_ ?]%Forall_cons.
Qed.

Lemma concat_segments_empty segments :
  Forall (λ segment, segment ≠ "" ∧ allSlugChars segment = true) segments →
  String.concat "-" segments = "" → segments = [].
Proof.
  destruct 1 as [|segment segments [Hsegment _] _]; [done|].
  destruct segments; [done|]. by destruct segment.
Qed.

(** X5.  The slug of a name holds only the characters [a-z], [0-9] and the
    hyphen; its hyphens stand singly between non-empty runs of the other
    characters, so that it neither starts nor ends with one; and it is the
    empty string exactly when the name holds no letter and no digit. (Names
    are strings of ASCII characters.) *)
Theorem generateSlug_shape name :
  isSlug (generateSlug name) ∧
  slugAlphabet (generateSlug name) = true ∧
  (generateSlug name = "" ↔ anySlugChar (toLowerCase name) = false).
Proof.
  split; [apply generateSlug_isSlug|]. split.
  { destruct (generateSlug_isSlug name) as (segments & Hsegments & ->).
    apply slugAlphabet_concat. eapply Forall_impl; [done|]. by intros ? [_ ?]. }
  rewrite splitNonSlug_empty. unfold generateSlug.
  set (segments := splitNonSlug (toLowerCase name)).
  split.
  - intros Hempty. apply concat_segments_empty in Hempty.
    + apply Forall_forall. intros segment Hin.
      destruct (decide (segment = "")) as [|Hne]; [done|].
      assert (segment ∈ filter (λ segment, segment ≠ "") segments) as Hkept
        by by apply list_elem_of_filter.
      rewrite Hempty in Hkept. by apply not_elem_of_nil in Hkept.
    + apply Forall_forall. intros segment [Hne Hin]%list_elem_of_filter.
      split; [done|].
      by apply (proj1 (Forall_forall _ _)
                  (splitNonSlug_segments (toLowerCase name))).
  - intros Hall. rewrite (filter_none (λ segment, segment ≠ "")); [done|].
    intros segment Hin Hne. rewrite Forall_forall in Hall. by apply Hne, Hall.
Qed.

(** X6.  A name that is a slug already is its own slug, so that
    [generateSlug] applied to a slug it made gives that slug again. *)
Theorem generateSlug_idempotent name :
  (∀ slug, isSlug slug → generateSlug slug = slug) ∧
  generateSlug (generateSlug name) = generateSlug name.
Proof.
  split; [apply generateSlug_fixes_slug|].
  apply generateSlug_fixes_slug, generateSlug_isSlug.
Qed.

End Slugs.

(** ** Creating a dataset (DataSetService.createDataSet) *)

#[global] Hint Unfold
  DataSetRepository.findBySlug DataSetRepository.create
  DataSetRecordRepository.listBatchByDataSet : repository.

Section CreateDataSet.

Lemma dataSetSlug_inj baseSlug (k k' : Z) :
  1 ≤ k → 1 ≤ k' → dataSetSlug baseSlug k = dataSetSlug baseSlug k' → k = k'.
Proof.
  intros Hk Hk'. unfold dataSetSlug.
  assert (∀ n : Z, baseSlug ≠ baseSlug +:+ "-" +:+ pretty n) as Hlonger.
  { intros n. induction baseSlug as [|c baseSlug IH]; [done|].
    intros [= Heq]. by apply IH. }
  destruct (decide (k = 1)) as [->|Hne], (decide (k' = 1)) as [->|Hne'];
    [done| | |].
  - intros Heq. by apply Hlonger in Heq.
  - intros Heq. symmetry in Heq. by apply Hlonger in Heq.
  - intros Heq. apply (inj (String.app baseSlug)) in Heq.
    apply (inj (String.app "-")) in Heq. by apply (inj pretty) in Heq.
Qed.

Lemma dataSetSlugTaken_select_first context slug db :
  dataSetSlugTaken context slug db
  ↔ select_first (liveSlugOf (TenantProjectContext.tenantId context)
                    (TenantProjectContext.projectId context) slug)
      (dataSets db) ≠ None.
Proof.
  unfold dataSetSlugTaken. rewrite select_first_None. split.
  - intros (d & Hd & Hslug) Hnone. by eapply Hnone.
  - intros Hsome.
    destruct (select_first
                (liveSlugOf (TenantProjectContext.tenantId context)
                   (TenantProjectContext.projectId context) slug)
                (dataSets db)) as [d|] eqn:Hfind.
    + apply select_first_Some in Hfind as [? ?]. by exists d.
    + exfalso. apply Hsome. intros d Hd. by eapply select_first_None.
Qed.

(** The probes of the loop: it stops at the first slug from [n] on that
    no live row holds, or runs out of fuel with every slug it tried
    taken. *)
Lemma createDataSetLoop_spec fuel context baseSlug n db :
  1 ≤ n →
  match (DataSetService.createDataSetLoop fuel context baseSlug
           (dataSetSlug baseSlug n) n db).1 with
  | Returned (Some slug) =>
      ∃ N, n ≤ N < n + Z.of_nat fuel ∧
        slug = dataSetSlug baseSlug N ∧
        ¬ dataSetSlugTaken context (dataSetSlug baseSlug N) db ∧
        ∀ k, n ≤ k < N → dataSetSlugTaken context (dataSetSlug baseSlug k) db
  | Returned None =>
      ∀ k, n ≤ k < n + Z.of_nat fuel →
        dataSetSlugTaken context (dataSetSlug baseSlug k) db
  | Thrown _ => False
  end ∧
  (DataSetService.createDataSetLoop fuel context baseSlug
     (dataSetSlug baseSlug n) n db).2 = db.
Proof.
  revert n. induction fuel as [|fuel IH]; intros n Hn.
  { simpl. split; [|done]. intros k Hk. lia. }
  simpl. step_M.
  destruct (select_first _ (dataSets db)) as [taken|] eqn:Hprobe.
  - assert (dataSetSlugTaken context (dataSetSlug baseSlug n) db) as Htaken.
    { apply dataSetSlugTaken_select_first. by rewrite Hprobe. }
    specialize (IH (n + 1) ltac:(lia)).
    assert (dataSetSlug baseSlug (n + 1)
            = baseSlug +:+ "-" +:+ pretty (n + 1)) as <-.
    { unfold dataSetSlug. rewrite decide_False; [done|lia]. }
    destruct IH as [IH ->]. split; [|done].
    destruct (DataSetService.createDataSetLoop _ _ _ _ _ _).1 as [[slug|]|];
      [| |done].
    + destruct IH as (N & HN & -> & Hfree & Hbelow).
      exists N. split; [lia|]. do 2 (split; [done|]).
      intros k Hk. destruct (decide (k = n)) as [->|]; [done|].
      apply Hbelow. lia.
    + intros k Hk. destruct (decide (k = n)) as [->|]; [done|].
      apply IH. lia.
  - simpl. split; [|done]. exists n. split; [lia|]. split; [done|].
    split; [|intros; lia].
    rewrite dataSetSlugTaken_select_first, Hprobe. by intros [].
Qed.

(** As many consecutive taken slugs as there is fuel need as many rows. *)
Lemma taken_dataSetSlugs_bound context baseSlug n (fuel : nat) db :
  1 ≤ n →
  (∀ k, n ≤ k < n + Z.of_nat fuel →
     dataSetSlugTaken context (dataSetSlug baseSlug k) db) →
  (fuel ≤ length (dataSets db))%nat.
Proof.
  intros Hn Htaken.
  rewrite <-(length_fmap DataSet.slug (dataSets db)).
  rewrite <-(Nat2Z.id fuel), <-(length_seqZ n (Z.of_nat fuel)).
  rewrite <-(length_fmap (dataSetSlug baseSlug) (seqZ n (Z.of_nat fuel))).
  apply submseteq_length, NoDup_submseteq.
  - apply NoDup_fmap_2_strong; [|apply NoDup_seqZ].
    intros k k' Hk Hk'. rewrite !elem_of_seqZ in Hk, Hk'.
    apply dataSetSlug_inj; lia.
  - intros s Hs. apply list_elem_of_fmap in Hs as (k & -> & Hk).
    apply elem_of_seqZ in Hk.
    destruct (Htaken k ltac:(lia)) as (d & Hd & _ & _ & Hslug & _).
    apply list_elem_of_fmap. by exists d.
Qed.

(** X7.  [createDataSet] finds a slug and returns when its loop may probe
    once more than there are dataset rows.  The slug is the slug of the
    name, or on collision that slug with [-N] for the least [N ≥ 2] which no
    live dataset of the tenant and project holds; rows that are deleted do
    not count.  The row is inserted with a new id, not deleted, with no
    records counted, and with the schema [{}] when none is given; nothing
    else is written, and [getDataSetById] finds the row under its id. *)
Theorem createDataSet_spec db context input fuel :
  (length (dataSets db) < fuel)%nat →
  let baseSlug := generateSlug (CreateDataSetInput.name input) in
  ∃ N dataset,
    1 ≤ N ∧
    DataSetService.createDataSet fuel context input db
    = (Returned (Some dataset), set_dataSets (λ t, t ++ [dataset]) db) ∧
    dataset
    = DataSet.mk (next_id (dataSets db))
        (TenantProjectContext.tenantId context)
        (TenantProjectContext.projectId context)
        (CreateDataSetInput.name input) (dataSetSlug baseSlug N) false 0
        (default (TextJson (JObj [])) (CreateDataSetInput.schema input)) ∧
    ¬ dataSetSlugTaken context (dataSetSlug baseSlug N) db ∧
    (∀ k, 1 ≤ k < N → dataSetSlugTaken context (dataSetSlug baseSlug k) db) ∧
    (∀ d, d ∈ dataSets db → DataSet.id d ≠ DataSet.id dataset) ∧
    ∀ userId,
      let entityId :=
        EntityId.mk (DataSet.id dataset) (TenantProjectContext.projectId context)
          (TenantProjectContext.tenantId context) userId in
      DataSetService.getDataSetById entityId
        (set_dataSets (λ t, t ++ [dataset]) db)
      = (Returned (Some dataset), set_dataSets (λ t, t ++ [dataset]) db).
Proof.
  intros Hfuel baseSlug.
  unfold DataSetService.createDataSet. fold baseSlug. step_M.
  pose proof (createDataSetLoop_spec fuel context baseSlug 1 db ltac:(lia))
    as [Hloop Hdb].
  change (dataSetSlug baseSlug 1) with baseSlug in Hloop, Hdb.
  destruct (DataSetService.createDataSetLoop _ _ _ _ _ _)
    as [[[slug|]|] db1]; simpl in Hloop, Hdb; subst db1; [| |done].
  - destruct Hloop as (N & HN & -> & Hfree & Hbelow).
    set (dataset := DataSet.mk (next_id (dataSets db))
        (TenantProjectContext.tenantId context)
        (TenantProjectContext.projectId context)
        (CreateDataSetInput.name input) (dataSetSlug baseSlug N) false 0
        (default (TextJson (JObj [])) (CreateDataSetInput.schema input))).
    assert (∀ d, d ∈ dataSets db → DataSet.id d ≠ DataSet.id dataset) as Hfresh.
    { intros d Hd Heq. pose proof (next_id_fresh (dataSets db) d Hd) as Hlt.
      simpl in Hlt, Heq. lia. }
    exists N, dataset. simpl. split; [lia|]. split; [reflexivity|].
    split; [done|]. split; [done|]. split; [intros; apply Hbelow; lia|].
    split; [done|]. intros userId. unfold DataSetService.getDataSetById.
    step_M. f_equal. f_equal. apply select_first_snoc_None; [|done].
    apply select_first_None. intros d Hd [(_ & _ & Hid) _].
    by apply (Hfresh d Hd).
  - apply taken_dataSetSlugs_bound in Hloop; lia.
Qed.

(** A witness for [createDataSet_spec]: the slug of a deleted dataset is
    given out again. *)
Lemma createDataSet_spec_witness :
  let db :=
    mkDB [] [] []
      [DataSet.mk 1 1 1 "My set" "my-set" false 0 (TextJson (JObj []));
       DataSet.mk 2 1 1 "My Set" "my-set-2" true 0 (TextJson (JObj []))] [] in
  let context := TenantProjectContext.mk 1 1 in
  let input := CreateDataSetInput.mk "My  SET!" None in
  (length (dataSets db) < 3)%nat ∧
  ∃ dataset,
    (DataSetService.createDataSet 3 context input db).1
    = Returned (Some dataset) ∧
    DataSet.id dataset = 3 ∧
    DataSet.slug dataset = "my-set-2" ∧
    DataSet.schema dataset = TextJson (JObj []).
Proof.
  intros db context input.
  assert (length (dataSets db) < 3)%nat as Hfuel by (simpl; lia).
  split; [exact Hfuel|].
  destruct (createDataSet_spec db context input 3 Hfuel)
    as (N & dataset & _ & Hrun & _).
  exists dataset. rewrite Hrun. split; [reflexivity|].
  vm_compute in Hrun. injection Hrun as <- _. by vm_compute.
Defined.

End CreateDataSet.

(** ** Consistency of the prompt tables (PromptService) *)

(** The steps of a computation, without simplification of the
    conditions. *)
Ltac step_M_plain :=
  autounfold with repository;
  unfold mbind, M_bind, mret, M_ret, query, execute, throw; cbv beta iota.

Section LedgerConsistency.
Import PromptRepository.

Lemma update_where_key {A B} (P : A → Prop) `{!∀ r, Decision (P r)}
    (set : A → A) (key : A → B) (table : list A) :
  (∀ r, key (set r) = key r) →
  key <$> update_where P set table = key <$> table.
Proof.
  intros Hkey. unfold update_where. rewrite <-list_fmap_compose.
  apply list_fmap_ext. intros _ r _. simpl. by destruct (decide (P r)).
Qed.

Lemma NoDup_next_id `{Row A} (table : list A) (r : A) :
  row_id r = next_id table →
  NoDup (row_id <$> table) → NoDup (row_id <$> (table ++ [r])).
Proof.
  intros Hid Hnodup. rewrite fmap_app. apply NoDup_app. split; [done|].
  split; [|apply NoDup_singleton].
  intros i Hi Hnew. simpl in Hnew. apply list_elem_of_singleton in Hnew.
  apply list_elem_of_fmap in Hi as (r' & -> & Hr').
  pose proof (next_id_fresh table r' Hr'). lia.
Qed.

Lemma lookup_snoc_cases {A} (l : list A) (x y : A) (i : nat) :
  (l ++ [x]) !! i = Some y →
  l !! i = Some y ∨ (i = length l ∧ y = x).
Proof.
  intros Hi. apply lookup_app_Some in Hi as [Hi|[Hlen Hi]]; [by left|].
  apply list_lookup_singleton_Some in Hi as [Hi ->]. right. split; [lia|done].
Qed.

(** A prompt row, its first ledger entry and its router, inserted
    together: what [createPrompt] and [copyPrompt] write. *)
Lemma consistent_insert db (p : Prompt.t) (v : PromptVersion.t)
    (r : PromptRouter.t) :
  ledgerConsistent db →
  Prompt.id p = next_id (prompts db) →
  PromptRouter.id r = next_id (promptRouters db) →
  entryOf p v → routerOf p r →
  Prompt.latestVersion p = 1 → PromptVersion.version v = 1 →
  PromptRouter.version r = 1 →
  PromptVersion.provider v = Prompt.provider p →
  PromptVersion.model v = Prompt.model p →
  PromptVersion.body v = Prompt.body p →
  ledgerConsistent
    (mkDB (prompts db ++ [p]) (promptVersions db ++ [v])
       (promptRouters db ++ [r]) (dataSets db) (dataSetRecords db)).
Proof.
  intros [Hpids Hrids Howned Hdistinct Hhead Hserve Hrouter]
    Hp Hr Hentry Hrouted Hlatest Hversion Hrversion Hprovider Hmodel Hbody.
  assert (∀ v', v' ∈ promptVersions db →
            PromptVersion.promptId v' ≠ Prompt.id p) as Hfresh.
  { intros v' Hv' Heq. destruct (Howned v' Hv') as (p' & Hp' & (Hid & _) & _).
    pose proof (next_id_fresh (prompts db) p' Hp') as Hlt. simpl in Hlt. lia. }
  split; simpl.
  - exact (NoDup_next_id (prompts db) p Hp Hpids).
  - exact (NoDup_next_id (promptRouters db) r Hr Hrids).
  - intros v' [Hv'| ->%list_elem_of_singleton]%elem_of_app.
    + destruct (Howned v' Hv') as (p' & Hp' & ? & ?).
      exists p'. split; [apply elem_of_app; by left|done].
    + exists p. split; [apply elem_of_app; right; by apply list_elem_of_singleton|].
      split; [done|lia].
  - intros i j v1 v2 Hi Hj Hsame Hversions.
    apply lookup_snoc_cases in Hi as [Hi|[-> ->]],
      Hj as [Hj|[-> ->]]; [by eapply Hdistinct| | |done].
    + exfalso. apply (Hfresh v1); [by eapply list_elem_of_lookup_2|].
      destruct Hsame as [-> _]. by destruct Hentry.
    + exfalso. apply (Hfresh v2); [by eapply list_elem_of_lookup_2|].
      destruct Hsame as [<- _]. by destruct Hentry.
  - intros p' [Hp'| ->%list_elem_of_singleton]%elem_of_app.
    + destruct (Hhead p' Hp') as (v' & Hv' & ?).
      exists v'. split; [apply elem_of_app; by left|done].
    + exists v. split; [apply elem_of_app; right; by apply list_elem_of_singleton|].
      split; [done|]. split; [lia|done].
  - intros r' [Hr'| ->%list_elem_of_singleton]%elem_of_app.
    + destruct (Hserve r' Hr') as (v' & Hv' & ?).
      exists v'. split; [apply elem_of_app; by left|done].
    + exists v. split; [apply elem_of_app; right; by apply list_elem_of_singleton|].
      destruct Hentry as (? & ? & ?), Hrouted as (? & ? & ?).
      repeat split; congruence.
  - intros p' [Hp'| ->%list_elem_of_singleton]%elem_of_app.
    + destruct (Hrouter p' Hp') as (r' & Hr' & ?).
      exists r'. split; [apply elem_of_app; by left|done].
    + exists r. split; [apply elem_of_app; right; by apply list_elem_of_singleton|done].
Qed.

(** An update of prompt rows that keeps the columns the ledger and the
    routers refer to: what [renamePrompt] and [deactivatePrompt] write. *)
Lemma consistent_update_prompts db (P : Prompt.t → Prop)
    `{!∀ r, Decision (P r)} (set : Prompt.t → Prompt.t) :
  (∀ p, Prompt.id (set p) = Prompt.id p ∧
        Prompt.tenantId (set p) = Prompt.tenantId p ∧
        Prompt.projectId (set p) = Prompt.projectId p ∧
        Prompt.latestVersion (set p) = Prompt.latestVersion p ∧
        Prompt.provider (set p) = Prompt.provider p ∧
        Prompt.model (set p) = Prompt.model p ∧
        Prompt.body (set p) = Prompt.body p) →
  ledgerConsistent db →
  ledgerConsistent (set_prompts (update_where P set) db).
Proof.
  intros Hset [Hpids Hrids Howned Hdistinct Hhead Hserve Hrouter].
  assert (∀ p, p ∈ prompts db →
            (if decide (P p) then set p else p)
              ∈ update_where P set (prompts db)) as Hin.
  { intros p Hp. apply elem_of_update_where. by exists p. }
  assert (∀ p,
            let p' := if decide (P p) then set p else p in
            Prompt.id p' = Prompt.id p ∧
            Prompt.tenantId p' = Prompt.tenantId p ∧
            Prompt.projectId p' = Prompt.projectId p ∧
            Prompt.latestVersion p' = Prompt.latestVersion p ∧
            Prompt.provider p' = Prompt.provider p ∧
            Prompt.model p' = Prompt.model p ∧
            Prompt.body p' = Prompt.body p) as Hsame.
  { intros p. simpl. destruct (decide (P p)); [apply Hset|done]. }
  split; simpl; [|done| |done| |done|].
  - rewrite update_where_key; [done|]. intros p. apply Hset.
  - intros v Hv. destruct (Howned v Hv) as (p & Hp & (? & ? & ?) & ?).
    destruct (Hsame p) as (? & ? & ? & ? & _).
    eexists. split; [by apply Hin|]. unfold entryOf.
    repeat split; congruence.
  - intros p' (p & Hp & ->)%elem_of_update_where.
    destruct (Hhead p Hp) as (v & Hv & (? & ? & ?) & ? & ? & ? & ?).
    destruct (Hsame p) as (? & ? & ? & ? & ? & ? & ?).
    exists v. split; [done|]. unfold entryOf. repeat split; congruence.
  - intros p' (p & Hp & ->)%elem_of_update_where.
    destruct (Hrouter p Hp) as (r & Hr & (? & ? & ?)).
    destruct (Hsame p) as (? & ? & ? & _).
    exists r. split; [done|]. unfold routerOf. repeat split; congruence.
Qed.

(** The first two writes of [updatePrompt]: the prompt row takes the new
    data and the next version number, and the entry of that version is
    appended. *)
Lemma consistent_new_version db promptId head data entry :
  ledgerConsistent db →
  select_first (toWhereClause promptId) (prompts db) = Some head →
  PromptData.latestVersion data = Prompt.latestVersion head + 1 →
  versionOfPrompt promptId entry →
  PromptVersion.version entry = PromptData.latestVersion data →
  PromptVersion.provider entry = PromptData.provider data →
  PromptVersion.model entry = PromptData.model data →
  PromptVersion.body entry = PromptData.body data →
  ledgerConsistent
    (mkDB (update_where (toWhereClause promptId) (setPromptData data) (prompts db))
       (promptVersions db ++ [entry]) (promptRouters db)
       (dataSets db) (dataSetRecords db)).
Proof.
  intros [Hpids Hrids Howned Hdistinct Hhead Hserve Hrouter]
    Hfound Hlatest (Hid & Htenant & Hproject) Hversion Hprovider Hmodel Hbody.
  pose proof (select_first_Some _ _ _ Hfound) as [(Hht & Hhp & Hhi) Hhin].
  simpl in Hht, Hhp, Hhi.
  assert (∀ p, p ∈ prompts db → Prompt.id p = EntityId.id promptId → p = head)
    as Hunique.
  { intros p Hp Hpid.
    apply (select_first_unique_id (toWhereClause promptId) (prompts db));
      [exact Hpids|done|done|]. simpl. congruence. }
  assert (∀ p, p ∈ prompts db →
            (if decide (toWhereClause promptId p) then setPromptData data p else p)
              ∈ update_where (toWhereClause promptId) (setPromptData data)
                  (prompts db)) as Hin.
  { intros p Hp. apply elem_of_update_where. by exists p. }
  assert (∀ v, v ∈ promptVersions db → samePrompt entry v →
            PromptVersion.version v < PromptVersion.version entry) as Hnewer.
  { intros v Hv (Hvid & _).
    destruct (Howned v Hv) as (p & Hp & (Hpid & _) & Hle).
    rewrite (Hunique p Hp) in Hle by congruence. lia. }
  split; simpl.
  - rewrite update_where_key; done.
  - done.
  - intros v [Hv| ->%list_elem_of_singleton]%elem_of_app.
    + destruct (Howned v Hv) as (p & Hp & (? & ? & ?) & Hle).
      eexists. split; [by apply Hin|].
      destruct (decide (toWhereClause promptId p)) as [(_ & _ & Hpid)|].
      * simpl in Hpid. rewrite (Hunique p Hp Hpid) in *.
        unfold entryOf. simpl. repeat split; try congruence. lia.
      * done.
    + eexists. split; [by apply (Hin head)|].
      rewrite decide_True by done. unfold entryOf. simpl.
      repeat split; try congruence. lia.
  - intros i j v1 v2 Hi Hj Hsame Hversions.
    apply lookup_snoc_cases in Hi as [Hi|[-> ->]],
      Hj as [Hj|[-> ->]]; [by eapply Hdistinct| | |done].
    + exfalso. apply list_elem_of_lookup_2 in Hi.
      assert (samePrompt entry v1) as Hsame'
        by (destruct Hsame as (? & ? & ?); by repeat split).
      pose proof (Hnewer v1 Hi Hsame'). lia.
    + exfalso. apply list_elem_of_lookup_2 in Hj.
      pose proof (Hnewer v2 Hj Hsame). lia.
  - intros p' (p & Hp & ->)%elem_of_update_where.
    destruct (decide (toWhereClause promptId p)) as [(Hpt & Hpp & Hpi)|].
    + simpl in Hpt, Hpp, Hpi. exists entry.
      split; [apply elem_of_app; right; by apply list_elem_of_singleton|].
      unfold entryOf. simpl. repeat split; congruence.
    + destruct (Hhead p Hp) as (v & Hv & ?).
      exists v. split; [apply elem_of_app; by left|done].
  - intros r Hr. destruct (Hserve r Hr) as (v & Hv & ?).
    exists v. split; [apply elem_of_app; by left|done].
  - intros p' (p & Hp & ->)%elem_of_update_where.
    destruct (Hrouter p Hp) as (r & Hr & ?).
    exists r. split; [done|]. by destruct (decide (toWhereClause promptId p)).
Qed.

(** The router step, pointed at an entry of the prompt that exists. *)
Lemma consistent_point_router db promptId entry :
  ledgerConsistent db →
  entry ∈ promptVersions db → versionOfPrompt promptId entry →
  ledgerConsistent
    (PromptService.pointRouter promptId (PromptVersion.version entry) db).2.
Proof.
  intros [Hpids Hrids Howned Hdistinct Hhead Hserve Hrouter]
    Hentry (Hid & Htenant & Hproject).
  destruct (pointRouter_spec promptId (PromptVersion.version entry) db)
    as (router' & -> & _ & Hversion & Hrouter').
  simpl.
  destruct (select_first (routerOfPrompt promptId) (promptRouters db))
    as [router|] eqn:Hfound.
  - pose proof (select_first_Some _ _ _ Hfound) as [(Hrid & Hrt & Hrp) Hrin].
    set (W := routerWhereClause promptId (PromptRouter.id router)).
    set (set := setRouterVersionColumn (PromptVersion.version entry)).
    assert (∀ r, r ∈ promptRouters db → W r → r = router) as Hunique.
    { intros r Hr (Hsame & _).
      by apply (select_first_unique_id (routerOfPrompt promptId)
                  (promptRouters db)). }
    split; simpl; [done| |done|done|done| |].
    + rewrite update_where_key; done.
    + intros r' (r & Hr & ->)%elem_of_update_where.
      destruct (decide (W r)) as [HW|]; [|by apply Hserve].
      rewrite (Hunique r Hr HW). exists entry. split; [done|].
      unfold serves. simpl. repeat split; congruence.
    + intros p Hp. destruct (Hrouter p Hp) as (r & Hr & ?).
      exists (if decide (W r) then set r else r).
      split; [apply elem_of_update_where; by exists r|].
      by destruct (decide (W r)).
  - subst router'. split; simpl; [done| |done|done|done| |].
    + exact (NoDup_next_id (promptRouters db)
               (PromptRouter.mk (next_id (promptRouters db))
                  (EntityId.id promptId) (EntityId.tenantId promptId)
                  (EntityId.projectId promptId) (PromptVersion.version entry))
               eq_refl Hrids).
    + intros r [Hr| ->%list_elem_of_singleton]%elem_of_app.
      * by apply Hserve.
      * exists entry. split; [done|]. by repeat split.
    + intros p Hp. destruct (Hrouter p Hp) as (r & Hr & ?).
      exists r. split; [apply elem_of_app; by left|done].
Qed.

Lemma updatePrompt_consistent db promptId input :
  ledgerConsistent db →
  ledgerConsistent (PromptService.updatePrompt promptId input db).2.
Proof.
  intros Hdb. unfold PromptService.updatePrompt. step_M.
  destruct (select_first (toWhereClause promptId) (prompts db))
    as [head|] eqn:Hfound; [|done].
  simpl. destruct (decide _) as [Hrejected|Hwritten]; [done|]. simpl.
  match goal with
  | |- context [PromptService.pointRouter _ _
                  (set_promptVersions (λ t, t ++ [?e]) (set_prompts ?f db))] =>
      set (entry := e); set (dbA := set_promptVersions (λ t, t ++ [entry])
                                      (set_prompts f db))
  end.
  assert (ledgerConsistent dbA) as HdbA.
  { by apply (consistent_new_version db promptId head). }
  assert (entry ∈ promptVersions dbA) as Hentry.
  { apply elem_of_app. right. by apply list_elem_of_singleton. }
  pose proof (consistent_point_router dbA promptId entry HdbA Hentry)
    as Hfinal.
  change (PromptVersion.version entry) with (Prompt.latestVersion head + 1)
    in Hfinal.
  destruct (PromptService.pointRouter promptId _ dbA) as [[?|?] db'];
    by apply Hfinal.
Qed.

Lemma setRouterVersion_consistent db promptId version :
  ledgerConsistent db →
  ledgerConsistent (PromptService.setRouterVersion promptId version db).2.
Proof.
  intros Hdb. unfold PromptService.setRouterVersion. step_M.
  destruct (select_first _ (promptVersions db)) as [entry|] eqn:Hfound; [|done].
  apply select_first_Some in Hfound as [[Hof <-] Hentry].
  by apply consistent_point_router.
Qed.

Lemma createPrompt_consistent db projectId input :
  ledgerConsistent db →
  ledgerConsistent (PromptService.createPrompt projectId input db).2.
Proof.
  intros Hdb. unfold PromptService.createPrompt. step_M.
  destruct (decide _) as [Hrejected|Hwritten]; [done|]. simpl.
  unfold set_promptRouters, set_promptVersions, set_prompts. simpl.
  by apply consistent_insert.
Qed.

Lemma copyPrompt_consistent db fuel promptId :
  ledgerConsistent db →
  ledgerConsistent (PromptService.copyPrompt fuel promptId db).2.
Proof.
  intros Hdb. unfold PromptService.copyPrompt. step_M.
  destruct (select_first (toWhereClause promptId) (prompts db))
    as [source|]; [|done].
  pose proof (copyPromptLoop_spec fuel (EntityId.getProjectId promptId)
                source 1 db ltac:(lia)) as [_ Hunchanged].
  change (copyName (Prompt.name source) 1) with (Prompt.name source +:+ " Copy")
    in Hunchanged.
  change (copySlug (Prompt.slug source) 1) with (Prompt.slug source +:+ "-copy")
    in Hunchanged.
  destruct (PromptService.copyPromptLoop _ _ _ _ _ _ _)
    as [[[[newName newSlug]|]|] db1]; simpl in Hunchanged; subst db1;
    [|done..].
  simpl. destruct (decide _) as [Hrejected|Hwritten]; [done|]. simpl.
  unfold set_promptRouters, set_promptVersions, set_prompts. simpl.
  by apply consistent_insert.
Qed.

Lemma renamePrompt_consistent db promptId name :
  ledgerConsistent db →
  ledgerConsistent (PromptService.renamePrompt promptId name db).2.
Proof.
  intros Hdb.
  assert (ledgerConsistent
            (set_prompts
               (update_where (toWhereClause promptId)
                  (setPromptName name (generateSlug name))) db)) as Hrenamed
    by by apply consistent_update_prompts.
  unfold PromptService.renamePrompt. step_M.
  destruct (select_first (toWhereClause promptId) (prompts db)); [|done].
  destruct (select_first (slugWhereClause _ _) (prompts db)) as [conflict|];
    simpl.
  - destruct (decide (Prompt.id conflict ≠ EntityId.id promptId)); [done|].
    simpl. destruct (decide _) as [Hrejected|Hwritten]; [done|]. simpl.
    by destruct (select_first _ _).
  - destruct (decide _) as [Hrejected|Hwritten]; [done|]. simpl.
    by destruct (select_first _ _).
Qed.

Lemma deactivatePrompt_consistent db promptId :
  ledgerConsistent db →
  ledgerConsistent (PromptService.deactivatePrompt promptId db).2.
Proof.
  intros Hdb. unfold PromptService.deactivatePrompt. step_M.
  by apply consistent_update_prompts.
Qed.

(** X8.  The write methods of [PromptService] keep the prompt tables
    consistent, whatever they are called with and whether they return or
    throw: in the database any sequence of calls leaves, every ledger entry
    belongs to a prompt and is at most its [latestVersion], a prompt has no
    two entries of one version, the entry at [latestVersion] exists and
    holds the provider, model and body of the prompt row, every router
    points to an entry that exists, and every prompt has a router.  (A call
    that a unique index of a table rejects throws at its first write and
    leaves the tables as they were.) *)
Theorem ledger_consistency db calls :
  ledgerConsistent db → ledgerConsistent (runPromptCalls db calls).
Proof.
  unfold runPromptCalls. revert db.
  induction calls as [|call calls IH]; intros db Hdb; [done|].
  simpl. apply IH.
  destruct call; simpl.
  - by apply createPrompt_consistent.
  - by apply updatePrompt_consistent.
  - by apply setRouterVersion_consistent.
  - by apply copyPrompt_consistent.
  - by apply renamePrompt_consistent.
  - by apply deactivatePrompt_consistent.
Qed.

Lemma empty_consistent dataSets dataSetRecords :
  ledgerConsistent (mkDB [] [] [] dataSets dataSetRecords).
Proof.
  split; simpl; try (by intros ? ?%not_elem_of_nil); try apply NoDup_nil_2.
  intros i j v v' Hi. by rewrite lookup_nil in Hi.
Qed.

(** A witness for [ledger_consistency]: the six methods, called on the
    empty database. *)
Lemma ledger_consistency_witness :
  let db := mkDB [] [] [] [] [] in
  let projectId := ProjectId.mk 1 1 "user" in
  let promptId := EntityId.new 1 projectId in
  let calls :=
    [CallCreatePrompt projectId
       (CreatePromptInput.mk "Test" "test" "openai" "gpt-4" "v1");
     CallUpdatePrompt promptId (UpdatePromptInput.mk None None None (Some "v2"));
     CallSetRouterVersion promptId 1;
     CallCopyPrompt 3 promptId;
     CallRenamePrompt promptId "Renamed";
     CallDeactivatePrompt promptId] in
  ledgerConsistent db ∧
  ledgerConsistent (runPromptCalls db calls) ∧
  length (prompts (runPromptCalls db calls)) = 2%nat ∧
  length (promptVersions (runPromptCalls db calls)) = 3%nat.
Proof.
  intros db projectId promptId calls.
  assert (ledgerConsistent db) as Hdb by apply empty_consistent.
  split; [exact Hdb|]. split; [|by vm_compute].
  exact (ledger_consistency db calls Hdb).
Defined.

Lemma select_first_exists {A} (P : A → Prop) `{!∀ r, Decision (P r)}
    (table : list A) (r : A) :
  r ∈ table → P r → ∃ r', select_first P table = Some r'.
Proof.
  intros Hr HP. destruct (select_first P table) as [r'|] eqn:Hfound; [by exists r'|].
  exfalso. by apply (proj1 (select_first_None P table) Hfound r).
Qed.

(** A prompt has one entry of a version: [findPromptVersion] finds it. *)
Lemma findPromptVersion_unique db promptId entry :
  ledgerConsistent db →
  entry ∈ promptVersions db → versionOfPrompt promptId entry →
  select_first
    (λ v, versionOfPrompt promptId v ∧
          PromptVersion.version v = PromptVersion.version entry)
    (promptVersions db)
  = Some entry.
Proof.
  intros Hdb Hentry Hof.
  destruct (select_first_exists
              (λ v, versionOfPrompt promptId v ∧
                    PromptVersion.version v = PromptVersion.version entry)
              (promptVersions db) entry Hentry) as [found Hfound]; [done|].
  rewrite Hfound. f_equal.
  apply select_first_Some in Hfound as [[(? & ? & ?) Hversion] Hin].
  apply list_elem_of_lookup in Hin as [i Hi], Hentry as [j Hj].
  destruct Hof as (? & ? & ?).
  assert (i = j) as ->; [|congruence].
  apply (entries_distinct db Hdb i j found entry); [done..| |done].
  unfold samePrompt. repeat split; congruence.
Qed.

(** The router of a prompt row points to one of its entries. *)
Lemma served_entry db promptId p :
  ledgerConsistent db →
  select_first (toWhereClause promptId) (prompts db) = Some p →
  ∃ router entry,
    select_first (routerOfPrompt promptId) (promptRouters db) = Some router ∧
    select_first
      (λ v, versionOfPrompt promptId v ∧
            PromptVersion.version v = PromptRouter.version router)
      (promptVersions db)
    = Some entry ∧
    PromptVersion.version entry ≤ Prompt.latestVersion p.
Proof.
  intros Hdb Hfound.
  pose proof (select_first_Some _ _ _ Hfound) as [(Ht & Hp & Hi) Hin].
  simpl in Ht, Hp, Hi.
  destruct (has_router db Hdb p Hin) as (r & Hr & (? & ? & ?)).
  destruct (select_first_exists (routerOfPrompt promptId) (promptRouters db) r Hr)
    as [router Hrouter]; [unfold routerOfPrompt; repeat split; congruence|].
  pose proof (select_first_Some _ _ _ Hrouter) as [(? & ? & ?) Hrin].
  destruct (routers_serve db Hdb router Hrin) as (v & Hv & (? & ? & ? & ?)).
  destruct (select_first_exists
              (λ v, versionOfPrompt promptId v ∧
                    PromptVersion.version v = PromptRouter.version router)
              (promptVersions db) v Hv) as [entry Hentry].
  { unfold versionOfPrompt. repeat split; congruence. }
  exists router, entry. split; [done|]. split; [done|].
  apply select_first_Some in Hentry as [[(Hid & _) _] Hein].
  destruct (entries_owned db Hdb entry Hein) as (p' & Hp' & (Hpid & _) & Hle).
  assert (p' = p) as ->; [|done].
  apply (select_first_unique_id (toWhereClause promptId) (prompts db));
    [exact (prompt_ids db Hdb)|done|done|]. simpl. congruence.
Qed.

(** X9.  In consistent tables [getActivePromptVersion] returns an entry, and
    not [null], for every prompt that [findPromptById] finds: an entry of
    that prompt, of the version that [getActiveRouterVersion] returns, and
    not newer than the prompt's [latestVersion]. *)
Theorem getActivePromptVersion_served db promptId p :
  ledgerConsistent db →
  select_first (toWhereClause promptId) (prompts db) = Some p →
  ∃ entry,
    PromptService.getActivePromptVersion promptId db
    = (Returned (Some entry), db) ∧
    PromptService.getActiveRouterVersion promptId db
    = (Returned (Some (PromptVersion.version entry)), db) ∧
    versionOfPrompt promptId entry ∧
    PromptVersion.version entry ≤ Prompt.latestVersion p.
Proof.
  intros Hdb Hfound.
  destruct (served_entry db promptId p Hdb Hfound)
    as (router & entry & Hrouter & Hentry & Hle).
  exists entry.
  unfold PromptService.getActivePromptVersion,
    PromptService.getActiveRouterVersion. step_M.
  rewrite Hrouter. simpl. rewrite Hentry.
  apply select_first_Some in Hentry as [[Hof <-] _]. done.
Qed.

(** A witness for [getActivePromptVersion_served]: a prompt at version 2
    whose router was set back to version 1. *)
Lemma getActivePromptVersion_served_witness :
  let db :=
    mkDB [Prompt.mk 1 1 1 "Test" "test" "openai" "gpt-4" "v2" 2 true]
         [PromptVersion.mk 1 1 1 1 1 "Test" "openai" "gpt-4" "v1" "test";
          PromptVersion.mk 2 1 1 1 2 "Test" "openai" "gpt-4" "v2" "test"]
         [PromptRouter.mk 1 1 1 1 1] [] [] in
  let promptId := EntityId.mk 1 1 1 "user" in
  ledgerConsistent db ∧
  select_first (toWhereClause promptId) (prompts db)
  = Some (Prompt.mk 1 1 1 "Test" "test" "openai" "gpt-4" "v2" 2 true) ∧
  ∃ entry,
    PromptService.getActivePromptVersion promptId db
    = (Returned (Some entry), db) ∧
    PromptVersion.version entry ≤ 2.
Proof.
  intros db promptId.
  assert (ledgerConsistent db) as Hdb.
  { exact (setRouterVersion_consistent _ promptId 1
             (updatePrompt_consistent _ promptId
                (UpdatePromptInput.mk None None None (Some "v2"))
                (createPrompt_consistent _ (ProjectId.mk 1 1 "user")
                   (CreatePromptInput.mk "Test" "test" "openai" "gpt-4" "v1")
                   (empty_consistent [] [])))). }
  split; [exact Hdb|]. split; [reflexivity|].
  destruct (getActivePromptVersion_served db promptId _ Hdb eq_refl)
    as (entry & Hactive & _ & _ & Hle).
  by exists entry.
Defined.

(** X10.  In consistent tables [getPromptById] returns every prompt it finds
    with a [currentVersion] that is not [null]: the entry of the prompt at
    its [latestVersion], which holds the provider, model and body of the
    prompt row and is the newest entry of the prompt. *)
Theorem getPromptById_current db promptId p :
  ledgerConsistent db →
  select_first (toWhereClause promptId) (prompts db) = Some p →
  ∃ entry,
    PromptService.getPromptById promptId db
    = (Returned (Some (p, Some entry)), db) ∧
    versionOfPrompt promptId entry ∧
    PromptVersion.version entry = Prompt.latestVersion p ∧
    PromptVersion.provider entry = Prompt.provider p ∧
    PromptVersion.model entry = Prompt.model p ∧
    PromptVersion.body entry = Prompt.body p ∧
    ∀ v, v ∈ promptVersions db → versionOfPrompt promptId v →
      PromptVersion.version v ≤ PromptVersion.version entry.
Proof.
  intros Hdb Hfound.
  pose proof (select_first_Some _ _ _ Hfound) as [(Ht & Hp & Hi) Hin].
  simpl in Ht, Hp, Hi.
  destruct (head_entry db Hdb p Hin)
    as (entry & Hentry & (? & ? & ?) & Hversion & ? & ? & ?).
  assert (versionOfPrompt promptId entry) as Hof
    by (unfold versionOfPrompt; repeat split; congruence).
  exists entry.
  unfold PromptService.getPromptById. step_M. rewrite Hfound. simpl.
  rewrite <-Hversion, (findPromptVersion_unique db promptId entry) by done.
  do 6 (split; [done|]).
  intros v Hv (Hvid & _).
  destruct (entries_owned db Hdb v Hv) as (p' & Hp' & (Hpid & _) & Hle).
  assert (p' = p) as ->; [|lia].
  apply (select_first_unique_id (toWhereClause promptId) (prompts db));
    [exact (prompt_ids db Hdb)|done|done|]. simpl. congruence.
Qed.

(** A witness for [getPromptById_current]: a prompt after one update. *)
Lemma getPromptById_current_witness :
  let db :=
    mkDB [Prompt.mk 1 1 1 "Test" "test" "openai" "gpt-4" "v2" 2 true]
         [PromptVersion.mk 1 1 1 1 1 "Test" "openai" "gpt-4" "v1" "test";
          PromptVersion.mk 2 1 1 1 2 "Test" "openai" "gpt-4" "v2" "test"]
         [PromptRouter.mk 1 1 1 1 2] [] [] in
  let promptId := EntityId.mk 1 1 1 "user" in
  ledgerConsistent db ∧
  select_first (toWhereClause promptId) (prompts db)
  = Some (Prompt.mk 1 1 1 "Test" "test" "openai" "gpt-4" "v2" 2 true) ∧
  ∃ entry,
    (PromptService.getPromptById promptId db).1
    = Returned (Some (Prompt.mk 1 1 1 "Test" "test" "openai" "gpt-4" "v2" 2 true,
                      Some entry)) ∧
    PromptVersion.version entry = 2 ∧ PromptVersion.body entry = "v2".
Proof.
  intros db promptId.
  assert (ledgerConsistent db) as Hdb.
  { exact (updatePrompt_consistent _ promptId
             (UpdatePromptInput.mk None None None (Some "v2"))
             (createPrompt_consistent _ (ProjectId.mk 1 1 "user")
                (CreatePromptInput.mk "Test" "test" "openai" "gpt-4" "v1")
                (empty_consistent [] []))). }
  split; [exact Hdb|]. split; [reflexivity|].
  destruct (getPromptById_current db promptId _ Hdb eq_refl)
    as (entry & Hrun & _ & Hversion & _ & _ & Hbody & _).
  exists entry. by rewrite Hrun.
Defined.

(** What the unique indexes ask of a row to insert. *)
Lemma nameAndSlugFree_held projectId name slug db :
  nameHeld (ProjectId.tenantId projectId) (ProjectId.id projectId) name
    (prompts db) ∨
  slugHeld (ProjectId.tenantId projectId) (ProjectId.id projectId) slug
    (prompts db)
  ↔ ¬ nameAndSlugFree projectId name slug db.
Proof.
  unfold nameHeld, slugHeld, nameAndSlugFree, promptInProject.
  rewrite !Exists_exists. split.
  - intros [(p & Hp & Ht & Hpr & Hname)|(p & Hp & Ht & Hpr & Hslug)] Hfree;
      destruct (Hfree p Hp (conj Ht Hpr)); done.
  - intros Hnot.
    destruct (decide (Exists (λ p, Prompt.tenantId p = ProjectId.tenantId projectId ∧
                                   Prompt.projectId p = ProjectId.id projectId ∧
                                   (Prompt.name p = name ∨ Prompt.slug p = slug))
                        (prompts db))) as [Hheld|Hnone].
    + apply Exists_exists in Hheld as (p & Hp & Ht & Hpr & [Hname|Hslug]);
        [left|right]; by exists p.
    + exfalso. apply Hnot. intros p Hp [Ht Hpr].
      rewrite Exists_exists in Hnone.
      split; intros Heq; apply Hnone; exists p; tauto.
Qed.

(** X11.  [createPrompt] on consistent tables.  When a prompt of the
    tenant and project holds the name or the slug, the database rejects
    the insert: the call throws and nothing is written.  Otherwise the
    prompt row is inserted with a new id at version 1 and active, with one
    ledger entry of version 1 that holds the input and one router at
    version 1, and nothing else is written; the prompt is then found by
    its id with that entry as current version, served with that entry,
    found by its slug, and listed with the prompts of the project that
    were listed before. *)
Theorem createPrompt_spec db projectId input :
  ledgerConsistent db →
  (¬ nameAndSlugFree projectId (CreatePromptInput.name input)
       (CreatePromptInput.slug input) db →
   PromptService.createPrompt projectId input db
   = (Thrown uniqueConstraintFailed, db)) ∧
  (nameAndSlugFree projectId (CreatePromptInput.name input)
     (CreatePromptInput.slug input) db →
   ∃ prompt entry router db',
    PromptService.createPrompt projectId input db = (Returned prompt, db') ∧
    prompt
    = Prompt.mk (next_id (prompts db)) (ProjectId.tenantId projectId)
        (ProjectId.id projectId) (CreatePromptInput.name input)
        (CreatePromptInput.slug input) (CreatePromptInput.provider input)
        (CreatePromptInput.model input) (CreatePromptInput.body input) 1 true ∧
    entry
    = PromptVersion.mk (next_id (promptVersions db)) (Prompt.id prompt)
        (ProjectId.tenantId projectId) (ProjectId.id projectId) 1
        (CreatePromptInput.name input) (CreatePromptInput.provider input)
        (CreatePromptInput.model input) (CreatePromptInput.body input)
        (CreatePromptInput.slug input) ∧
    router
    = PromptRouter.mk (next_id (promptRouters db)) (Prompt.id prompt)
        (ProjectId.tenantId projectId) (ProjectId.id projectId) 1 ∧
    db' = mkDB (prompts db ++ [prompt]) (promptVersions db ++ [entry])
            (promptRouters db ++ [router]) (dataSets db) (dataSetRecords db) ∧
    let promptId := EntityId.new (Prompt.id prompt) projectId in
    PromptService.getPromptById promptId db'
    = (Returned (Some (prompt, Some entry)), db') ∧
    PromptService.getActivePromptVersion promptId db'
    = (Returned (Some entry), db') ∧
    PromptService.getPromptBySlug projectId (CreatePromptInput.slug input) db'
    = (Returned (Some prompt), db') ∧
    ∃ listed listed',
      PromptService.listPrompts projectId db = (Returned listed, db) ∧
      PromptService.listPrompts projectId db' = (Returned listed', db') ∧
      listed' ≡ₚ prompt :: listed).
Proof.
  intros Hdb.
  pose proof (nameAndSlugFree_held projectId (CreatePromptInput.name input)
                (CreatePromptInput.slug input) db) as Hguard.
  split.
  { intros Hheld. unfold PromptService.createPrompt. step_M.
    by rewrite decide_True by by apply Hguard. }
  intros Hfree.
  set (prompt :=
    Prompt.mk (next_id (prompts db)) (ProjectId.tenantId projectId)
      (ProjectId.id projectId) (CreatePromptInput.name input)
      (CreatePromptInput.slug input) (CreatePromptInput.provider input)
      (CreatePromptInput.model input) (CreatePromptInput.body input) 1 true).
  set (entry :=
    PromptVersion.mk (next_id (promptVersions db)) (Prompt.id prompt)
      (ProjectId.tenantId projectId) (ProjectId.id projectId) 1
      (CreatePromptInput.name input) (CreatePromptInput.provider input)
      (CreatePromptInput.model input) (CreatePromptInput.body input)
      (CreatePromptInput.slug input)).
  set (router :=
    PromptRouter.mk (next_id (promptRouters db)) (Prompt.id prompt)
      (ProjectId.tenantId projectId) (ProjectId.id projectId) 1).
  set (db' := mkDB (prompts db ++ [prompt]) (promptVersions db ++ [entry])
                (promptRouters db ++ [router]) (dataSets db) (dataSetRecords db)).
  assert (PromptService.createPrompt projectId input db = (Returned prompt, db'))
    as Hrun.
  { unfold PromptService.createPrompt. step_M.
    by rewrite decide_False by (rewrite Hguard; tauto). }
  exists prompt, entry, router, db'. split; [exact Hrun|].
  do 4 (split; [reflexivity|]).
  intros promptId.
  assert (ledgerConsistent db') as Hdb'.
  { pose proof (createPrompt_consistent db projectId input Hdb) as Hkept.
    by rewrite Hrun in Hkept. }
  assert (∀ p, p ∈ prompts db → Prompt.id p ≠ Prompt.id prompt) as Hnew.
  { intros p Hp Heq. pose proof (next_id_fresh (prompts db) p Hp) as Hlt.
    simpl in Hlt, Heq. lia. }
  assert (select_first (toWhereClause promptId) (prompts db') = Some prompt)
    as Hfound.
  { apply select_first_snoc_None; [|done].
    apply select_first_None. intros p Hp (_ & _ & Hid). by apply (Hnew p). }
  assert (versionOfPrompt promptId entry) as Hof by done.
  assert (entry ∈ promptVersions db') as Hentry.
  { apply elem_of_app. right. by apply list_elem_of_singleton. }
  pose proof (findPromptVersion_unique db' promptId entry Hdb' Hentry Hof)
    as Hversion.
  change (PromptVersion.version entry) with 1 in Hversion.
  assert (select_first (routerOfPrompt promptId) (promptRouters db')
          = Some router) as Hrouter.
  { apply select_first_snoc_None; [|done].
    apply select_first_None. intros r Hr (Hrid & _).
    destruct (routers_serve db Hdb r Hr) as (v & Hv & (Hvid & _)).
    destruct (entries_owned db Hdb v Hv) as (p & Hp & (Hpid & _) & _).
    apply (Hnew p Hp). simpl in *. congruence. }
  split; [|split; [|split]].
  - unfold PromptService.getPromptById. step_M_plain.
    rewrite Hfound. cbv beta iota.
    exact (f_equal (λ found, (Returned (Some (prompt, found)), db')) Hversion).
  - unfold PromptService.getActivePromptVersion. step_M_plain.
    rewrite Hrouter. cbv beta iota.
    exact (f_equal (λ found, (Returned found, db')) Hversion).
  - unfold PromptService.getPromptBySlug. step_M. do 2 f_equal.
    apply select_first_snoc_None; [|done].
    apply select_first_None. intros p Hp (Hslug & Hin).
    by destruct (Hfree p Hp Hin).
  - eexists _, _. split; [reflexivity|]. split; [reflexivity|].
    simpl. rewrite filter_app, filter_cons_True by done.
    rewrite filter_nil. by rewrite Permutation_app_comm.
Qed.

(** A witness for [createPrompt_spec]: a second prompt of a project, and
    a third that the index on the name rejects. *)
Lemma createPrompt_spec_witness :
  let db :=
    mkDB [Prompt.mk 1 1 1 "Test" "test" "openai" "gpt-4" "v1" 1 true]
         [PromptVersion.mk 1 1 1 1 1 "Test" "openai" "gpt-4" "v1" "test"]
         [PromptRouter.mk 1 1 1 1 1] [] [] in
  let projectId := ProjectId.mk 1 1 "user" in
  let input := CreatePromptInput.mk "Other" "other" "openai" "gpt-4" "{}" in
  ledgerConsistent db ∧
  nameAndSlugFree projectId "Other" "other" db ∧
  (∃ prompt db',
     PromptService.createPrompt projectId input db = (Returned prompt, db') ∧
     Prompt.id prompt = 2 ∧
     PromptService.getPromptBySlug projectId "other" db'
     = (Returned (Some prompt), db')) ∧
  PromptService.createPrompt projectId
    (CreatePromptInput.mk "Test" "other" "openai" "gpt-4" "{}") db
  = (Thrown uniqueConstraintFailed, db).
Proof.
  intros db projectId input.
  assert (ledgerConsistent db) as Hdb.
  { exact (createPrompt_consistent _ projectId
             (CreatePromptInput.mk "Test" "test" "openai" "gpt-4" "v1")
             (empty_consistent [] [])). }
  assert (nameAndSlugFree projectId "Other" "other" db) as Hfree.
  { intros p Hp _. apply list_elem_of_singleton in Hp as ->. done. }
  split; [exact Hdb|]. split; [exact Hfree|]. split.
  - destruct (createPrompt_spec db projectId input Hdb) as [_ Hinserted].
    destruct (Hinserted Hfree)
      as (prompt & entry & router & db' & Hrun & -> & _ & _ & _ & _ & _ & Hslug & _).
    eexists _, db'. split; [exact Hrun|]. split; [reflexivity|exact Hslug].
  - destruct (createPrompt_spec db projectId
                (CreatePromptInput.mk "Test" "other" "openai" "gpt-4" "{}") Hdb)
      as [Hrejected _].
    apply Hrejected. intros Hnone.
    by destruct (Hnone (Prompt.mk 1 1 1 "Test" "test" "openai" "gpt-4" "v1" 1 true)
                   ltac:(by apply list_elem_of_singleton) ltac:(done)).
Defined.

End LedgerConsistency.

(** ** Renaming and deactivating a prompt (PromptService) *)

Section PromptRows.
Import PromptRepository.

(** X12.  [renamePrompt] throws "Prompt not found" when [findPromptById]
    finds nothing, and "Slug already in use" when the first prompt of the
    project that holds the slug of the new name has another id.  Otherwise
    it writes the name and the slug; the database rejects the write when
    another prompt of the tenant and project holds the new name or the
    slug, and the call throws.  In the three cases nothing is written.
    Else it returns the prompt row with the new name and the slug of the
    new name, every other column as it was.  Only rows of that id change,
    and neither the ledger nor the routers do: the entries keep the name
    and the slug they were written with.  Renaming a prompt to a name with
    its own slug is allowed. *)
Theorem renamePrompt_spec db promptId name :
  let slug := generateSlug name in
  let written existing :=
    if decide
         (nameHeld (EntityId.tenantId promptId) (EntityId.projectId promptId)
            name (otherPrompts promptId (prompts db)) ∨
          slugHeld (EntityId.tenantId promptId) (EntityId.projectId promptId)
            slug (otherPrompts promptId (prompts db)))
    then (Thrown uniqueConstraintFailed, db)
    else (Returned (setPromptName name slug existing),
          set_prompts (update_where (toWhereClause promptId)
                         (setPromptName name slug)) db) in
  match select_first (toWhereClause promptId) (prompts db) with
  | None =>
      PromptService.renamePrompt promptId name db
      = (Thrown "Prompt not found", db)
  | Some existing =>
      match select_first (slugWhereClause (EntityId.getProjectId promptId) slug)
              (prompts db) with
      | Some conflict =>
          Prompt.id conflict ≠ EntityId.id promptId ∧
          PromptService.renamePrompt promptId name db
          = (Thrown "Slug already in use", db)
          ∨
          Prompt.id conflict = EntityId.id promptId ∧
          PromptService.renamePrompt promptId name db = written existing
      | None =>
          PromptService.renamePrompt promptId name db = written existing
      end
  end ∧
  promptVersions (PromptService.renamePrompt promptId name db).2
  = promptVersions db ∧
  promptRouters (PromptService.renamePrompt promptId name db).2
  = promptRouters db ∧
  (∀ i p, prompts db !! i = Some p → ¬ toWhereClause promptId p →
     prompts (PromptService.renamePrompt promptId name db).2 !! i = Some p) ∧
  isSlug slug.
Proof.
  intros slug written.
  assert (∀ existing,
            select_first (toWhereClause promptId) (prompts db) = Some existing →
            select_first (toWhereClause promptId)
              (update_where (toWhereClause promptId) (setPromptName name slug)
                 (prompts db))
            = Some (setPromptName name slug existing)) as Hreread.
  { intros existing Hfound.
    rewrite select_first_update_where by done. rewrite Hfound. simpl.
    apply select_first_Some in Hfound as [Hwhere _].
    by rewrite decide_True. }
  assert (∀ i p, prompts db !! i = Some p → ¬ toWhereClause promptId p →
            update_where (toWhereClause promptId) (setPromptName name slug)
              (prompts db) !! i = Some p) as Hothers.
  { intros i p Hi Hp. by apply update_where_other. }
  unfold PromptService.renamePrompt. fold slug. step_M.
  destruct (select_first (toWhereClause promptId) (prompts db))
    as [existing|] eqn:Hfound.
  2: { split; [done|]. split; [done|]. split; [done|].
       split; [by intros|apply generateSlug_isSlug]. }
  specialize (Hreread existing eq_refl).
  pose proof (select_first_Exists _ _ _ Hfound) as Hrow.
  assert (∀ c : Outcome Prompt.t * DB,
            c = written existing →
            promptVersions c.2 = promptVersions db ∧
            promptRouters c.2 = promptRouters db ∧
            (∀ i p, prompts db !! i = Some p → ¬ toWhereClause promptId p →
               prompts c.2 !! i = Some p)) as Hframe.
  { intros c ->. unfold written. destruct (decide _); simpl; [done|].
    split; [done|]. split; [done|]. exact Hothers. }
  destruct (select_first (slugWhereClause _ slug) (prompts db)) as [conflict|];
    simpl.
  - destruct (decide (Prompt.id conflict ≠ EntityId.id promptId))
      as [Hother|Hsame%dec_stable]; simpl.
    + split; [by left|]. split; [done|]. split; [done|].
      split; [by intros|apply generateSlug_isSlug].
    + match goal with
      | |- (_ ∨ _ ∧ ?c = _) ∧ _ =>
          assert (c = written existing) as Hrun
      end.
      { unfold written.
        destruct (decide (nameHeld _ _ _ _ ∨ slugHeld _ _ _ _)) as [Hheld|Hfree].
        - by rewrite decide_True.
        - rewrite decide_False by tauto. simpl. by rewrite Hreread. }
      rewrite Hrun. split; [by right|].
      destruct (Hframe _ eq_refl) as (? & ? & ?).
      split; [done|]. split; [done|]. split; [done|apply generateSlug_isSlug].
  - match goal with
    | |- ?c = _ ∧ _ => assert (c = written existing) as Hrun
    end.
    { unfold written.
      destruct (decide (nameHeld _ _ _ _ ∨ slugHeld _ _ _ _)) as [Hheld|Hfree].
      - by rewrite decide_True.
      - rewrite decide_False by tauto. simpl. by rewrite Hreread. }
    rewrite Hrun. split; [done|].
    destruct (Hframe _ eq_refl) as (? & ? & ?).
    split; [done|]. split; [done|]. split; [done|apply generateSlug_isSlug].
Qed.

Lemma filter_update_where_out {A} (P Q : A → Prop)
    `{!∀ r, Decision (P r)} `{!∀ r, Decision (Q r)} (set : A → A)
    (table : list A) :
  (∀ r, Q r → ¬ P (set r)) →
  filter P (update_where Q set table)
  = filter (λ r, ¬ Q r) (filter P table).
Proof.
  intros Hout. unfold update_where.
  induction table as [|r table IH]; [done|].
  rewrite fmap_cons, !filter_cons, IH.
  destruct (decide (Q r)) as [HQ|HQ].
  - rewrite decide_False by by apply Hout.
    destruct (decide (P r)); [|done].
    by rewrite filter_cons_False by by intros [].
  - destruct (decide (P r)); [|done]. by rewrite filter_cons_True.
Qed.

(** X13.  [deactivatePrompt] never throws, not even for a prompt that does
    not exist, and writes the [isActive] column of the rows of that id only.
    Afterwards [listPrompts] leaves the prompt out, while [findPromptById]
    still finds it, now inactive, and [getActivePromptVersion] serves what
    it served before; deactivating again changes none of the columns
    modelled. *)
Theorem deactivatePrompt_spec db promptId :
  let db' :=
    set_prompts (update_where (toWhereClause promptId) setPromptInactive) db in
  PromptService.deactivatePrompt promptId db = (Returned tt, db') ∧
  PromptService.deactivatePrompt promptId db' = (Returned tt, db') ∧
  (∀ projectId, ∃ listed,
     PromptService.listPrompts projectId db = (Returned listed, db) ∧
     PromptService.listPrompts projectId db'
     = (Returned (filter (λ p, ¬ toWhereClause promptId p) listed), db')) ∧
  (∃ found,
     findPromptById promptId db = (Returned found, db) ∧
     findPromptById promptId db'
     = (Returned (setPromptInactive <$> found), db')) ∧
  (∃ served,
     PromptService.getActivePromptVersion promptId db = (Returned served, db) ∧
     PromptService.getActivePromptVersion promptId db' = (Returned served, db')).
Proof.
  intros db'. split; [done|]. split; [|split; [|split]].
  - unfold PromptService.deactivatePrompt, deactivatePrompt, execute.
    f_equal. unfold db', set_prompts. simpl. f_equal.
    unfold update_where. rewrite <-list_fmap_compose.
    apply list_fmap_ext. intros _ p _. simpl.
    destruct (decide (toWhereClause promptId p)); [|by rewrite decide_False].
    by rewrite decide_True.
  - intros projectId. eexists. split; [reflexivity|].
    unfold PromptService.listPrompts, findPrompts, query. f_equal. f_equal.
    unfold db', set_prompts. simpl.
    apply filter_update_where_out. intros p _ [_ Hactive].
    by specialize (Hactive eq_refl).
  - eexists. split; [reflexivity|].
    unfold findPromptById, query. f_equal. f_equal.
    unfold db', set_prompts. simpl.
    rewrite select_first_update_where by done.
    destruct (select_first (toWhereClause promptId) (prompts db))
      as [p|] eqn:Hfound; [|done].
    simpl. apply select_first_Some in Hfound as [Hwhere _].
    by rewrite decide_True.
  - exists (match select_first (routerOfPrompt promptId) (promptRouters db) with
            | None => None
            | Some router =>
                select_first
                  (λ v, versionOfPrompt promptId v ∧
                        PromptVersion.version v = PromptRouter.version router)
                  (promptVersions db)
            end).
    unfold PromptService.getActivePromptVersion. step_M_plain.
    change (promptRouters db') with (promptRouters db).
    by destruct (select_first (routerOfPrompt promptId) (promptRouters db)).
Qed.

End PromptRows.

(** ** Listing the ledger of a prompt (PromptService.listPromptVersions) *)

Section VersionList.
Import PromptRepository.

Lemma insert_desc_permutation {A} (key : A → Z) (x : A) (l : list A) :
  insert_desc key x l ≡ₚ x :: l.
Proof.
  induction l as [|y l IH]; [done|]. simpl.
  destruct (decide (key y < key x)); [done|].
  by rewrite IH, Permutation_swap.
Qed.

Lemma order_desc_permutation {A} (key : A → Z) (l : list A) :
  order_desc key l ≡ₚ l.
Proof.
  unfold order_desc. induction l as [|x l IH]; [done|]. simpl.
  by rewrite insert_desc_permutation, IH.
Qed.

Lemma insert_desc_sorted {A} (key : A → Z) (x : A) (l : list A) :
  StronglySorted (λ v w, key w ≤ key v) l →
  StronglySorted (λ v w, key w ≤ key v) (insert_desc key x l).
Proof.
  induction 1 as [|y l Hsorted IH Hy]; simpl.
  { repeat constructor. }
  destruct (decide (key y < key x)) as [Hlt|Hge].
  - constructor; [by constructor|].
    constructor; [lia|]. eapply Forall_impl; [exact Hy|]. simpl. intros; lia.
  - constructor; [done|].
    rewrite insert_desc_permutation. constructor; [lia|done].
Qed.

Lemma order_desc_sorted {A} (key : A → Z) (l : list A) :
  StronglySorted (λ v w, key w ≤ key v) (order_desc key l).
Proof.
  unfold order_desc. induction l as [|x l IH]; [constructor|].
  simpl. by apply insert_desc_sorted.
Qed.

(** X14.  [listPromptVersions] returns the ledger entries of the prompt,
    each once, the newest version first; and [getPromptVersion] reads from
    that list: it returns an entry of the list with the version asked for,
    and nothing exactly when the list has no entry of that version. *)
Theorem listPromptVersions_spec db promptId :
  ∃ versions,
    PromptService.listPromptVersions promptId db = (Returned versions, db) ∧
    versions ≡ₚ filter (versionOfPrompt promptId) (promptVersions db) ∧
    StronglySorted
      (λ v w, PromptVersion.version w ≤ PromptVersion.version v) versions ∧
    ∀ version,
      match PromptService.getPromptVersion
              (PromptVersionId.new version promptId) db with
      | (Returned (Some entry), db') =>
          db' = db ∧ entry ∈ versions ∧ PromptVersion.version entry = version
      | (Returned None, db') =>
          db' = db ∧ ∀ v, v ∈ versions → PromptVersion.version v ≠ version
      | (Thrown _, _) => False
      end.
Proof.
  exists (order_desc PromptVersion.version
            (filter (versionOfPrompt promptId) (promptVersions db))).
  split; [done|]. split; [apply order_desc_permutation|].
  split; [apply order_desc_sorted|].
  intros version.
  unfold PromptService.getPromptVersion, findPromptVersionOfId, query.
  destruct (select_first _ (promptVersions db)) as [entry|] eqn:Hfound.
  - apply select_first_Some in Hfound as [(? & ? & ? & ?) Hin].
    split; [done|]. split; [|done].
    rewrite order_desc_permutation. apply list_elem_of_filter.
    split; [|done]. by repeat split.
  - split; [done|]. intros v Hv Hversion.
    rewrite order_desc_permutation in Hv.
    apply list_elem_of_filter in Hv as [(? & ? & ?) Hv].
    apply (proj1 (select_first_None _ _) Hfound v Hv). by repeat split.
Qed.

End VersionList.

(** ** Errors (PromptService, DataSetService) *)

Section Errors.
Import PromptRepository DataSetRepository DataSetRecordRepository.

Lemma throwsBeforeWriting_fmap {A B} (f : A → B) (c : M A) :
  throwsBeforeWriting c → throwsBeforeWriting (f <$> c).
Proof.
  intros Hc db. specialize (Hc db). unfold fmap, M_fmap, mbind, M_bind, mret, M_ret.
  by destruct (c db) as [[a|message] db'].
Qed.

Ltac known_error :=
  split; [reflexivity|];
  unfold serviceErrors;
  repeat first [apply list_elem_of_here | apply list_elem_of_further].

Lemma updatePrompt_throws promptId input :
  throwsBeforeWriting (PromptService.updatePrompt promptId input).
Proof.
  intros db. unfold PromptService.updatePrompt. step_M.
  destruct (select_first (toWhereClause promptId) (prompts db)) as [head|];
    [|known_error].
  simpl. destruct (decide _) as [Hrejected|Hwritten]; [known_error|]. simpl.
  match goal with
  | |- context [PromptService.pointRouter ?p ?v ?d] =>
      destruct (pointRouter_spec p v d) as (? & -> & _)
  end.
  done.
Qed.

Lemma createPrompt_throws projectId input :
  throwsBeforeWriting (PromptService.createPrompt projectId input).
Proof.
  intros db. unfold PromptService.createPrompt. step_M.
  by destruct (decide _) as [Hrejected|Hwritten]; [known_error|].
Qed.

Lemma setRouterVersion_throws promptId version :
  throwsBeforeWriting (PromptService.setRouterVersion promptId version).
Proof.
  intros db. unfold PromptService.setRouterVersion. step_M.
  destruct (select_first _ (promptVersions db)) as [entry|]; [|known_error].
  by destruct (pointRouter_spec promptId version db) as (? & -> & _).
Qed.

Lemma copyPrompt_throws fuel promptId :
  throwsBeforeWriting (PromptService.copyPrompt fuel promptId).
Proof.
  intros db. unfold PromptService.copyPrompt. step_M.
  destruct (select_first (toWhereClause promptId) (prompts db)) as [source|];
    [|known_error].
  pose proof (copyPromptLoop_spec fuel (EntityId.getProjectId promptId)
                source 1 db ltac:(lia)) as Hloop.
  change (copyName (Prompt.name source) 1) with (Prompt.name source +:+ " Copy")
    in Hloop.
  change (copySlug (Prompt.slug source) 1) with (Prompt.slug source +:+ "-copy")
    in Hloop.
  destruct (PromptService.copyPromptLoop _ _ _ _ _ _ _)
    as [[[[newName newSlug]|]|] db1] eqn:Hprobes;
    destruct Hloop as [Hloop Hsame]; simpl in Hloop, Hsame; subst db1;
    [|done..].
  simpl. by destruct (decide _) as [Hrejected|Hwritten]; [known_error|].
Qed.

Lemma renamePrompt_throws promptId name :
  throwsBeforeWriting (PromptService.renamePrompt promptId name).
Proof.
  intros db. unfold PromptService.renamePrompt. step_M.
  destruct (select_first (toWhereClause promptId) (prompts db))
    as [existing|] eqn:Hfound; [|known_error].
  assert (select_first (toWhereClause promptId)
            (update_where (toWhereClause promptId)
               (setPromptName name (generateSlug name)) (prompts db))
          = Some (setPromptName name (generateSlug name) existing)) as Hreread.
  { rewrite select_first_update_where by done. rewrite Hfound. simpl.
    apply select_first_Some in Hfound as [Hwhere _].
    by rewrite decide_True. }
  destruct (select_first (slugWhereClause _ _) (prompts db)) as [conflict|];
    simpl.
  - destruct (decide (Prompt.id conflict ≠ EntityId.id promptId));
      [known_error|].
    simpl. destruct (decide _) as [Hrejected|Hwritten]; [known_error|].
    simpl. by rewrite Hreread.
  - destruct (decide _) as [Hrejected|Hwritten]; [known_error|].
    simpl. by rewrite Hreread.
Qed.

Lemma createDataSetRecord_throws entityId variables :
  throwsBeforeWriting (DataSetService.createDataSetRecord entityId variables).
Proof.
  intros db. pose proof (createDataSetRecord_run entityId variables db) as Hrun.
  destruct (select_first _ (dataSets db)); rewrite Hrun; [done|known_error].
Qed.

Lemma addLogsToDataSet_throws logService entityId logIds :
  throwsBeforeWriting (DataSetService.addLogsToDataSet logService entityId logIds).
Proof.
  intros db. unfold DataSetService.addLogsToDataSet. step_M.
  destruct (select_first _ (dataSets db)) as [dataset|]; [|known_error].
  destruct logService as [getLogVariables|]; [|known_error].
  destruct (DataSetService.addLogsLoop _ _ _ _ _) as [[schema newRecords] skipped].
  destruct (decide (0 < length newRecords)%nat); [|done].
  simpl. by destruct (decide (Z.of_nat (length newRecords) = 0)).
Qed.

(** X15.  Every error of the two services is raised before the method
    has written anything: a call that throws leaves the database as it
    was.  The error is one the service raises itself, with one of the
    messages "Prompt not found", "Version not found", "Source prompt not
    found", "Slug already in use", "Dataset not found" and "Log service
    unavailable", or it is the error of the database for the first write
    of [createPrompt], [updatePrompt], [copyPrompt] or [renamePrompt],
    which a unique index of the Prompts table rejects.  The errors
    "Failed to create record" and "Failed to retrieve updated prompt",
    which would follow a write, are never raised. *)
Theorem errors_before_writes scope op :
  throwsBeforeWriting (run scope op) ∧
  ∀ fuel context input,
    throwsBeforeWriting (DataSetService.createDataSet fuel context input).
Proof.
  split.
  2: { intros fuel context input db. unfold DataSetService.createDataSet.
       step_M.
       pose proof (createDataSetLoop_spec fuel context
                     (generateSlug (CreateDataSetInput.name input)) 1 db
                     ltac:(lia)) as [Hloop _].
       change (dataSetSlug (generateSlug (CreateDataSetInput.name input)) 1)
         with (generateSlug (CreateDataSetInput.name input)) in Hloop.
       by destruct (DataSetService.createDataSetLoop _ _ _ _ _ _)
         as [[[slug|]|] db1]. }
  destruct op; unfold run; apply throwsBeforeWriting_fmap;
    [apply createPrompt_throws|apply updatePrompt_throws| | | | | | | | | |apply setRouterVersion_throws
     |apply copyPrompt_throws|apply renamePrompt_throws| |
     |apply createDataSetRecord_throws| | | |apply addLogsToDataSet_throws];
    intros db;
    try (unfold PromptService.createPrompt, PromptService.getPromptById,
      PromptService.getPromptVersion, PromptService.getPromptVersionById,
      PromptService.listPromptVersions, PromptService.listPrompts,
      PromptService.deactivatePrompt, PromptService.getPromptBySlug,
      PromptService.getActivePromptVersion, PromptService.getActiveRouterVersion,
      DataSetService.getDataSetById, DataSetService.deleteDataSet,
      DataSetService.listDataSetRecords,
      DataSetService.listDataSetRecordsPaginated;
      step_M; repeat case_match; done).
  by rewrite deleteDataSetRecords_run.
Qed.

End Errors.

(** ** Deleting a dataset (DataSetService.deleteDataSet) *)

Section DeleteDataSet.
Import DataSetRepository DataSetRecordRepository.

Lemma findById_deleted entityId (table : list DataSet.t) :
  select_first (λ d, toWhereClause entityId d ∧ DataSet.isDeleted d = false)
    (update_where (toWhereClause entityId) setDataSetDeleted table)
  = None.
Proof.
  apply select_first_None.
  intros d' (d & Hd & ->)%elem_of_update_where [Hwhere Hlive].
  destruct (decide (toWhereClause entityId d)); [done|].
  by destruct Hlive.
Qed.

(** X16.  [deleteDataSet] never throws and writes the [isDeleted] column of
    the dataset rows of that id only; the record counter and the records
    stay. Afterwards [getDataSetById] finds nothing, [createDataSetRecord]
    and [addLogsToDataSet] throw "Dataset not found", while
    [listDataSetRecords] still lists the records and [deleteDataSetRecords]
    still deletes them; deleting the dataset again changes none of the
    columns modelled. *)
Theorem deleteDataSet_spec db entityId :
  let db' :=
    set_dataSets (update_where (toWhereClause entityId) setDataSetDeleted) db in
  DataSetService.deleteDataSet entityId db = (Returned tt, db') ∧
  DataSetService.deleteDataSet entityId db' = (Returned tt, db') ∧
  DataSetService.getDataSetById entityId db' = (Returned None, db') ∧
  (∀ variables,
     DataSetService.createDataSetRecord entityId variables db'
     = (Thrown "Dataset not found", db')) ∧
  (∀ logService logIds,
     DataSetService.addLogsToDataSet logService entityId logIds db'
     = (Thrown "Dataset not found", db')) ∧
  (DataSetService.listDataSetRecords entityId db').1
  = (DataSetService.listDataSetRecords entityId db).1 ∧
  (∀ recordIds,
     (DataSetService.deleteDataSetRecords entityId recordIds db').1
     = (DataSetService.deleteDataSetRecords entityId recordIds db).1) ∧
  DataSet.countOfRecords <$> dataSets db' = DataSet.countOfRecords <$> dataSets db.
Proof.
  intros db'.
  assert (select_first
            (λ d, toWhereClause entityId d ∧ DataSet.isDeleted d = false)
            (dataSets db') = None) as Hgone by apply findById_deleted.
  split; [done|]. split; [|split; [|split; [|split; [|split; [|split]]]]].
  - unfold DataSetService.deleteDataSet, softDelete, execute.
    f_equal. unfold db', set_dataSets. simpl. f_equal.
    unfold update_where. rewrite <-list_fmap_compose.
    apply list_fmap_ext. intros _ d _. simpl.
    destruct (decide (toWhereClause entityId d)); [|by rewrite decide_False].
    by rewrite decide_True.
  - unfold DataSetService.getDataSetById. step_M_plain. by rewrite Hgone.
  - intros variables.
    pose proof (createDataSetRecord_run entityId variables db') as Hrun.
    by rewrite Hgone in Hrun.
  - intros logService logIds.
    unfold DataSetService.addLogsToDataSet. step_M_plain. by rewrite Hgone.
  - done.
  - intros recordIds. by rewrite !deleteDataSetRecords_run.
  - unfold db', set_dataSets. simpl. by apply update_where_key.
Qed.

End DeleteDataSet.

(** ** Records of a dataset (DataSetService) *)

Section Records.
Import DataSetRepository DataSetRecordRepository.

Lemma update_where_id {A} (P : A → Prop) `{!∀ r, Decision (P r)}
    (set : A → A) (table : list A) :
  (∀ r, P r → set r = r) → update_where P set table = table.
Proof.
  intros Hset. unfold update_where. rewrite <-(list_fmap_id table) at 2.
  apply list_fmap_ext. intros _ r _. simpl.
  destruct (decide (P r)); [by apply Hset|done].
Qed.

Lemma filter_update_where_disjoint {A} (P Q : A → Prop)
    `{!∀ r, Decision (P r)} `{!∀ r, Decision (Q r)} (set : A → A)
    (table : list A) :
  (∀ r, Q r → ¬ P r ∧ ¬ P (set r)) →
  filter P (update_where Q set table) = filter P table.
Proof.
  intros Hdisjoint. unfold update_where.
  induction table as [|r table IH]; [done|].
  rewrite fmap_cons, !filter_cons, IH.
  destruct (decide (Q r)) as [HQ|HQ]; [|done].
  destruct (Hdisjoint r HQ). by rewrite !decide_False.
Qed.

Lemma live_after_softDelete entityId recordIds (table : list DataSetRecord.t) :
  filter (liveRecordOf entityId)
    (update_where (softDeleteWhere entityId recordIds) setRecordDeleted table)
  = filter (λ r, DataSetRecord.id r ∉ recordIds)
      (filter (liveRecordOf entityId) table).
Proof.
  rewrite filter_update_where_out.
  - rewrite !list_filter_filter. apply list_filter_iff.
    intros r. unfold softDeleteWhere, liveRecordOf. tauto.
  - intros r _ (_ & _ & _ & Hlive). done.
Qed.

Lemma softDelete_again entityId recordIds (table : list DataSetRecord.t) :
  filter (softDeleteWhere entityId recordIds)
    (update_where (softDeleteWhere entityId recordIds) setRecordDeleted table)
  = [].
Proof.
  apply filter_none.
  intros r' (r & Hr & ->)%elem_of_update_where Hwhere.
  destruct (decide (softDeleteWhere entityId recordIds r)).
  - by destruct Hwhere as (_ & _ & _ & _ & Hlive).
  - done.
Qed.

(** X17.  [deleteDataSetRecords] returns the number of records that leave
    the list of the dataset: afterwards [listDataSetRecords] returns the
    list it returned before without the records whose id was given, in the
    same order.  Deleting the same ids again deletes nothing and leaves the
    database as it is, and the records of every other dataset are listed as
    before. *)
Theorem deleteDataSetRecords_listing db entityId recordIds :
  ∃ records deleted db',
    DataSetService.listDataSetRecords entityId db = (Returned records, db) ∧
    DataSetService.deleteDataSetRecords entityId recordIds db
    = (Returned deleted, db') ∧
    DataSetService.listDataSetRecords entityId db'
    = (Returned (filter (λ r, DataSetRecord.id r ∉ recordIds) records), db') ∧
    deleted
    = Z.of_nat (length records)
      - Z.of_nat (length (filter (λ r, DataSetRecord.id r ∉ recordIds) records)) ∧
    DataSetService.deleteDataSetRecords entityId recordIds db'
    = (Returned 0, db') ∧
    ∀ other,
      (EntityId.id other, EntityId.tenantId other, EntityId.projectId other)
      ≠ (EntityId.id entityId, EntityId.tenantId entityId,
         EntityId.projectId entityId) →
      (DataSetService.listDataSetRecords other db').1
      = (DataSetService.listDataSetRecords other db).1.
Proof.
  pose proof (deleteDataSetRecords_run entityId recordIds db) as Hrun.
  cbv zeta in Hrun.
  set (deleted := Z.of_nat (length (filter (softDeleteWhere entityId recordIds)
                                      (dataSetRecords db)))) in *.
  set (db' := mkDB _ _ _ _ _) in Hrun.
  exists (reverse (filter (liveRecordOf entityId) (dataSetRecords db))),
    deleted, db'.
  split; [done|]. split; [done|].
  assert (filter (liveRecordOf entityId) (dataSetRecords db')
          = filter (λ r, DataSetRecord.id r ∉ recordIds)
              (filter (liveRecordOf entityId) (dataSetRecords db))) as Hlive
    by apply live_after_softDelete.
  split; [|split; [|split]].
  - unfold DataSetService.listDataSetRecords. step_M_plain.
    by rewrite Hlive, filter_reverse.
  - rewrite filter_reverse, !length_reverse. subst deleted.
    pose proof (filter_app_complement (λ r, DataSetRecord.id r ∈ recordIds)
                  (filter (liveRecordOf entityId) (dataSetRecords db)))
      as Hsplit.
    apply Permutation_length in Hsplit. rewrite length_app in Hsplit.
    rewrite (list_filter_filter (λ r, DataSetRecord.id r ∈ recordIds)) in Hsplit.
    rewrite (list_filter_iff (softDeleteWhere entityId recordIds)
               (λ r, DataSetRecord.id r ∈ recordIds ∧ liveRecordOf entityId r))
      by (intros r; unfold softDeleteWhere, liveRecordOf; tauto).
    lia.
  - pose proof (deleteDataSetRecords_run entityId recordIds db') as Hagain.
    cbv zeta in Hagain.
    assert (filter (softDeleteWhere entityId recordIds) (dataSetRecords db') = [])
      as Hnone by apply softDelete_again.
    rewrite Hnone in Hagain. simpl in Hagain. rewrite Hagain.
    f_equal. unfold db'. f_equal.
    + apply update_where_id. intros d _. destruct d.
      unfold setCountOfRecords. simpl. f_equal. lia.
    + apply update_where_none. intros r Hr Hwhere.
      assert (r ∈ filter (softDeleteWhere entityId recordIds) (dataSetRecords db'))
        as Hin by by apply list_elem_of_filter.
      rewrite Hnone in Hin. by apply not_elem_of_nil in Hin.
  - intros other Hother. unfold DataSetService.listDataSetRecords.
    step_M_plain. simpl. do 2 f_equal.
    apply filter_update_where_disjoint.
    intros r (Ht & Hp & Hd & _). simpl.
    split; intros (Ht' & Hp' & Hd' & _); apply Hother; simpl in *; congruence.
Qed.

Lemma typeAt_mergeField_other schema path type path' :
  path ≠ "__proto__" → path ≠ path' →
  typeAt (mergeField schema path type) path' = typeAt schema path'.
Proof.
  intros Hproto Hne. unfold mergeField. cbv zeta.
  destruct (negb _); [by rewrite typeAt_setField, decide_False|].
  destruct (_ && _); [by rewrite typeAt_setField, decide_False|done].
Qed.

Lemma mergeField_covers schema path type :
  path ≠ "__proto__" →
  typeAt (mergeField schema path type) path = Some type ∨
  typeAt (mergeField schema path type) path = Some "mixed".
Proof.
  intros Hproto. unfold mergeField. cbv zeta.
  destruct (negb (truthy (getField schema path))) eqn:Hempty.
  { left. by rewrite typeAt_setField, decide_True. }
  destruct (differsFrom (typeProperty (getField schema path)) type
            && differsFrom (typeProperty (getField schema path)) "mixed")
    eqn:Hwiden.
  { right. by rewrite typeAt_setField, decide_True. }
  unfold typeAt. unfold getField in Hwiden.
  destruct (fields schema !! path) as [[| | | | |entries]|] eqn:Hfield;
    try done.
  - simpl in Hwiden. destruct (entry "type" entries) as [[| | |t| |]|];
      try done.
    simpl in Hwiden. apply andb_false_iff in Hwiden as [Hsame|Hsame];
      apply bool_decide_eq_false, dec_stable in Hsame; subst; auto.
  - destruct (protoType schema);
      repeat case_decide; try done.
Qed.

Lemma mergeSchema_covers schema variables :
  map_Forall
    (λ path type,
       typeAt (mergeSchema schema variables) path = Some type ∨
       typeAt (mergeSchema schema variables) path = Some "mixed")
    (collectFields variables "").
Proof.
  unfold mergeSchema.
  pose proof (collectFields_collected variables "") as Hnames. revert Hnames.
  apply (map_fold_weak_ind (λ schema' collected,
    map_Forall collectedName collected →
    map_Forall
      (λ path type,
         typeAt schema' path = Some type ∨ typeAt schema' path = Some "mixed")
      collected)).
  { intros _. apply map_Forall_empty. }
  intros path type collected schema' Hfresh IH Hnames.
  apply map_Forall_insert in Hnames as [(_ & Hproto & _) Hnames]; [|done].
  apply map_Forall_insert; [done|]. split; [by apply mergeField_covers|].
  intros path' type' Hpath'.
  rewrite typeAt_mergeField_other; [by apply IH|done|].
  intros ->. by rewrite Hfresh in Hpath'.
Qed.

(** X18.  [createDataSetRecord] on a dataset that [getDataSetById] finds:
    the record holds the payload, is found under its id, and is listed
    with the records that were listed, each of them once; and the schema
    that the dataset row then stores has, at every path [collectFields]
    finds in the payload, the type found there or "mixed". *)
Theorem createDataSetRecord_listing db entityId variables dataset :
  DataSetService.getDataSetById entityId db = (Returned (Some dataset), db) →
  ∃ record records listed db',
    DataSetService.listDataSetRecords entityId db = (Returned records, db) ∧
    DataSetService.createDataSetRecord entityId variables db
    = (Returned record, db') ∧
    DataSetRecord.variables record = variables ∧
    DataSetService.listDataSetRecords entityId db' = (Returned listed, db') ∧
    listed ≡ₚ record :: records ∧
    DataSetRecordRepository.findById
      (EntityId.mk (DataSetRecord.id record) (EntityId.projectId entityId)
         (EntityId.tenantId entityId) (EntityId.userId entityId)) db'
    = (Returned (Some record), db') ∧
    ∀ i d, dataSets db' !! i = Some d → toWhereClause entityId d →
      map_Forall
        (λ path type,
           typeAt (parseSchema (DataSet.schema d)) path = Some type ∨
           typeAt (parseSchema (DataSet.schema d)) path = Some "mixed")
        (collectFields variables "").
Proof.
  intros Hfound. unfold DataSetService.getDataSetById in Hfound.
  autounfold with repository in Hfound. unfold query in Hfound.
  injection Hfound as Hfound.
  pose proof (createDataSetRecord_run entityId variables db) as Hrun.
  rewrite Hfound in Hrun. cbv zeta in Hrun.
  set (record := DataSetRecord.mk (next_id (dataSetRecords db)) _ _ _ _ _) in Hrun.
  set (merged := mergeSchema (parseSchema (DataSet.schema dataset)) variables)
    in Hrun.
  set (db' := mkDB _ _ _ _ _) in Hrun.
  exists record, (reverse (filter (liveRecordOf entityId) (dataSetRecords db))),
    (reverse (filter (liveRecordOf entityId) (dataSetRecords db'))), db'.
  split; [done|]. split; [done|]. split; [done|]. split; [done|].
  split; [|split].
  - unfold db'. simpl dataSetRecords.
    by rewrite filter_app, filter_cons_True, reverse_app by done.
  - step_M_plain. do 2 f_equal. unfold db'. simpl dataSetRecords.
    apply select_first_snoc_None; [|done].
    apply select_first_None. intros r Hr [(_ & _ & Hid) _].
    pose proof (next_id_fresh (dataSetRecords db) r Hr) as Hlt.
    simpl in Hlt, Hid. lia.
  - intros i d Hi Hd. unfold db' in Hi. simpl in Hi.
    unfold update_where in Hi. rewrite !list_lookup_fmap in Hi.
    destruct (dataSets db !! i) as [d0|]; [|done]. simpl in Hi.
    injection Hi as <-.
    destruct (decide (toWhereClause entityId d0)) as [Hd0|Hd0].
    + rewrite decide_True by done. simpl.
      pose proof (mergeSchema_covers (parseSchema (DataSet.schema dataset))
                    variables) as Hcovers. fold merged in Hcovers.
      intros path type Hpath. specialize (Hcovers path type Hpath).
      unfold typeAt in *. simpl. by rewrite spread_map_to_list.
    + by rewrite decide_False in Hd.
Qed.

(** A witness for [createDataSetRecord_listing]: a second record of a
    dataset. *)
Lemma createDataSetRecord_listing_witness :
  let first := DataSetRecord.mk 1 1 1 1 (JObj [("age", JNum 30)]) false in
  let db :=
    mkDB [] [] []
      [DataSet.mk 1 1 1 "Test" "test" false 1
         (TextJson (JObj [("fields",
            JObj [("age", JObj [("type", JStr "number")])])]))]
      [first] in
  let entityId := EntityId.mk 1 1 1 "user" in
  let variables := JObj [("age", JStr "thirty")] in
  DataSetService.getDataSetById entityId db
  = (Returned (head (dataSets db)), db) ∧
  ∃ record listed db',
    DataSetService.createDataSetRecord entityId variables db
    = (Returned record, db') ∧
    DataSetService.listDataSetRecords entityId db' = (Returned listed, db') ∧
    listed ≡ₚ [record; first] ∧
    (λ d, typeAt (parseSchema (DataSet.schema d)) "age") <$> dataSets db'
    = [Some "mixed"].
Proof.
  intros first db entityId variables.
  assert (DataSetService.getDataSetById entityId db
          = (Returned (head (dataSets db)), db)) as Hfound by reflexivity.
  split; [exact Hfound|].
  destruct (createDataSetRecord_listing db entityId variables _ Hfound)
    as (record & records & listed & db' & Hlist & Hrun & _ & Hlisted & Hperm & _).
  exists record, listed, db'. split; [exact Hrun|].
  injection Hlist as <-. split; [exact Hlisted|]. split; [exact Hperm|].
  vm_compute in Hrun. injection Hrun as _ <-. by vm_compute.
Defined.

End Records.

(** ** Adding logs to a dataset (DataSetService.addLogsToDataSet) *)

Section AddLogs.
Import DataSetRepository DataSetRecordRepository.

(** What [addLogsToDataSet] does for a dataset it finds, with a log
    service. *)
Lemma addLogsToDataSet_run (getLogVariables : LogService) entityId logIds db
    dataset :
  select_first (λ d, toWhereClause entityId d ∧ DataSet.isDeleted d = false)
    (dataSets db) = Some dataset →
  let accepted :=
    acceptedVariables
      ((λ logId, getLogVariables (EntityId.tenantId entityId)
                   (EntityId.projectId entityId) logId) <$> logIds) in
  let rows :=
    imap (λ i variables,
            DataSetRecord.mk (next_id (dataSetRecords db) + Z.of_nat i)
              (EntityId.tenantId entityId) (EntityId.projectId entityId)
              (EntityId.id entityId) variables false) accepted in
  DataSetService.addLogsToDataSet (Some getLogVariables) entityId logIds db
  = (Returned (Z.of_nat (length accepted),
               Z.of_nat (length logIds) - Z.of_nat (length accepted)),
     match accepted with
     | [] => db
     | _ =>
         mkDB (prompts db) (promptVersions db) (promptRouters db)
           (update_where (toWhereClause entityId)
              (setSchema (stringifySchema
                 (foldl mergeSchema (parseSchema (DataSet.schema dataset))
                    accepted)))
              (update_where (toWhereClause entityId)
                 (setCountOfRecords (λ c, c + Z.of_nat (length accepted)))
                 (dataSets db)))
           (dataSetRecords db ++ rows)
     end).
Proof.
  intros Hfound accepted rows.
  unfold DataSetService.addLogsToDataSet. step_M. rewrite Hfound.
  rewrite addLogsLoop_spec. fold accepted.
  change ([] ++ (DataSetService.newRecord entityId <$> accepted))
    with (DataSetService.newRecord entityId <$> accepted).
  rewrite length_fmap, length_fmap, Z.add_0_l.
  destruct accepted as [|variables accepted'] eqn:Haccepted; [done|].
  rewrite decide_True by (simpl; lia).
  rewrite (decide_False (P:=Z.of_nat (length (variables :: accepted')) = 0))
    by (simpl; lia).
  simpl. do 2 f_equal. unfold set_dataSetRecords. simpl. do 3 f_equal.
  subst rows. simpl. by rewrite imap_fmap.
Qed.

Lemma acceptedVariables_length results :
  (length (acceptedVariables results) ≤ length results)%nat.
Proof.
  induction results as [|result results IH]; [done|].
  rewrite acceptedVariables_cons.
  destruct result as [variables|]; [destruct (truthy (Value variables))|];
    simpl; lia.
Qed.

(** X19.  [addLogsToDataSet] throws "Dataset not found" when [findById]
    finds no dataset, before it looks at the log service, and "Log service
    unavailable" when the service was built without a bucket.  Otherwise it
    returns: [added] counts the logs whose variables were fetched and are
    truthy, [skipped] the other log ids, and the two add up to the number of
    log ids.  With nothing added the database stays as it is; else one
    record per added log is appended, in the order of the log ids, with the
    variables of the log, the record counter of the dataset grows by
    [added], and its schema becomes the stored schema merged with the
    variables of the added logs. *)
Theorem addLogsToDataSet_spec logService entityId logIds db :
  match select_first
          (λ d, toWhereClause entityId d ∧ DataSet.isDeleted d = false)
          (dataSets db) with
  | None =>
      DataSetService.addLogsToDataSet logService entityId logIds db
      = (Thrown "Dataset not found", db)
  | Some dataset =>
      match logService with
      | None =>
          DataSetService.addLogsToDataSet logService entityId logIds db
          = (Thrown "Log service unavailable", db)
      | Some getLogVariables =>
          let accepted :=
            acceptedVariables
              ((λ logId, getLogVariables (EntityId.tenantId entityId)
                           (EntityId.projectId entityId) logId) <$> logIds) in
          let added := Z.of_nat (length accepted) in
          ∃ skipped db',
            DataSetService.addLogsToDataSet logService entityId logIds db
            = (Returned (added, skipped), db') ∧
            0 ≤ skipped ∧ added + skipped = Z.of_nat (length logIds) ∧
            (added = 0 → db' = db) ∧
            (∃ rows,
               dataSetRecords db' = dataSetRecords db ++ rows ∧
               DataSetRecord.variables <$> rows = accepted ∧
               Forall (liveRecordOf entityId) rows) ∧
            ∀ i d, dataSets db !! i = Some d →
              ∃ d', dataSets db' !! i = Some d' ∧
                DataSet.countOfRecords d'
                = DataSet.countOfRecords d
                  + (if decide (toWhereClause entityId d) then added else 0) ∧
                (toWhereClause entityId d → 0 < added →
                 DataSet.schema d'
                 = stringifySchema
                     (foldl mergeSchema (parseSchema (DataSet.schema dataset))
                        accepted))
      end
  end.
Proof.
  destruct (select_first _ (dataSets db)) as [dataset|] eqn:Hfound.
  2: { unfold DataSetService.addLogsToDataSet. step_M. by rewrite Hfound. }
  destruct logService as [getLogVariables|].
  2: { unfold DataSetService.addLogsToDataSet. step_M. by rewrite Hfound. }
  intros accepted added.
  pose proof (addLogsToDataSet_run getLogVariables entityId logIds db dataset
                Hfound) as Hrun.
  cbv zeta in Hrun. fold accepted in Hrun.
  pose proof (acceptedVariables_length
                ((λ logId, getLogVariables (EntityId.tenantId entityId)
                             (EntityId.projectId entityId) logId) <$> logIds))
    as Hlength.
  fold accepted in Hlength. rewrite length_fmap in Hlength.
  eexists _, _. split; [exact Hrun|].
  split; [lia|]. split; [unfold added; lia|].
  destruct accepted as [|variables accepted'] eqn:Haccepted.
  - split; [done|]. split.
    + exists []. by rewrite app_nil_r.
    + intros i d Hi. exists d. split; [done|].
      split; [destruct (decide _); unfold added; simpl; lia|].
      unfold added. simpl. lia.
  - split; [unfold added; simpl; lia|]. split.
    + eexists. split; [reflexivity|]. split.
      * rewrite fmap_imap. apply list_eq. intros i.
        rewrite list_lookup_imap.
        by destruct ((variables :: accepted') !! i).
      * apply Forall_forall. intros r (i & v & -> & _)%elem_of_lookup_imap.
        done.
    + intros i d Hi. simpl. unfold update_where.
      rewrite !list_lookup_fmap, Hi. simpl. eexists. split; [reflexivity|].
      destruct (decide (toWhereClause entityId d)) as [Hd|Hd].
      * rewrite decide_True by done. simpl. split; [done|]. done.
      * rewrite decide_False by done. split; [lia|done].
Qed.

(** The rows that [addLogsToDataSet] appends, with the counter update
    that goes with them. *)
Lemma appended_counterExact db entityId schema (accepted : list json) :
  let rows :=
    imap (λ i variables,
            DataSetRecord.mk (next_id (dataSetRecords db) + Z.of_nat i)
              (EntityId.tenantId entityId) (EntityId.projectId entityId)
              (EntityId.id entityId) variables false) accepted in
  counterExact db →
  counterExact
    (mkDB (prompts db) (promptVersions db) (promptRouters db)
       (update_where (toWhereClause entityId) (setSchema schema)
          (update_where (toWhereClause entityId)
             (setCountOfRecords (λ c, c + Z.of_nat (length accepted)))
             (dataSets db)))
       (dataSetRecords db ++ rows)).
Proof.
  intros rows Hexact d'. simpl dataSets. intros Hd'.
  apply elem_of_update_where in Hd' as (d1 & Hd1 & ->).
  apply elem_of_update_where in Hd1 as (d & Hd & ->).
  specialize (Hexact d Hd). unfold liveRecordsOf in *. simpl dataSetRecords.
  rewrite filter_app, length_app.
  assert (∀ r, r ∈ rows →
            liveRecordOf (entityIdOf d) r ↔ toWhereClause entityId d) as Hrows.
  { intros r (i & v & -> & _)%elem_of_lookup_imap.
    by apply liveRecordOf_row. }
  destruct (decide (toWhereClause entityId d)) as [Hwhere|Hwhere].
  - rewrite (decide_True (P:=toWhereClause entityId (setCountOfRecords _ d)))
      by done.
    change (entityIdOf (setSchema _ (setCountOfRecords _ d)))
      with (entityIdOf d).
    change (DataSet.countOfRecords (setSchema _ (setCountOfRecords _ d)))
      with (DataSet.countOfRecords d + Z.of_nat (length accepted)).
    rewrite (filter_all (liveRecordOf (entityIdOf d)) rows).
    + subst rows. rewrite length_imap. lia.
    + apply Forall_forall. intros r Hr. by apply Hrows.
  - rewrite (decide_False (P:=toWhereClause entityId d)) by done.
    rewrite (filter_none (liveRecordOf (entityIdOf d)) rows).
    + rewrite Hexact. simpl. lia.
    + intros r Hr. by rewrite Hrows.
Qed.

(** X20.  [addLogsToDataSet] keeps the record counter exact: from a database
    in which every dataset row counts its live records it leaves such a
    database, whatever the log service returns and whether it returns or
    throws. *)
Theorem addLogsToDataSet_exact logService entityId logIds db :
  counterExact db →
  counterExact
    (DataSetService.addLogsToDataSet logService entityId logIds db).2.
Proof.
  intros Hexact.
  destruct (select_first
              (λ d, toWhereClause entityId d ∧ DataSet.isDeleted d = false)
              (dataSets db)) as [dataset|] eqn:Hfound.
  2: { unfold DataSetService.addLogsToDataSet. step_M. by rewrite Hfound. }
  destruct logService as [getLogVariables|].
  2: { unfold DataSetService.addLogsToDataSet. step_M. by rewrite Hfound. }
  rewrite (addLogsToDataSet_run getLogVariables entityId logIds db dataset Hfound).
  cbv zeta.
  destruct (acceptedVariables _) as [|variables accepted'] eqn:Haccepted;
    [done|].
  by apply appended_counterExact.
Qed.

(** A witness for [addLogsToDataSet_exact]: three logs, of which one has
    no variables. *)
Lemma addLogsToDataSet_exact_witness :
  let db :=
    mkDB [] [] []
      [DataSet.mk 1 1 1 "Test" "test" false 1 (TextJson (JObj []))]
      [DataSetRecord.mk 1 1 1 1 (JObj []) false] in
  let entityId := EntityId.mk 1 1 1 "user" in
  let logService : LogService :=
    λ _ _ logId,
      if decide (logId = 2) then None else Some (JObj [("log", JNum logId)]) in
  counterExact db ∧
  counterExact
    (DataSetService.addLogsToDataSet (Some logService) entityId [1; 2; 3] db).2 ∧
  (DataSetService.addLogsToDataSet (Some logService) entityId [1; 2; 3] db).1
  = Returned (2, 1) ∧
  DataSet.countOfRecords
    <$> dataSets
          (DataSetService.addLogsToDataSet (Some logService) entityId [1; 2; 3]
             db).2
  = [3].
Proof.
  intros db entityId logService.
  assert (counterExact db) as Hexact.
  { intros d Hd. apply list_elem_of_singleton in Hd as ->. reflexivity. }
  split; [exact Hexact|]. split; [|split; vm_compute; reflexivity].
  exact (addLogsToDataSet_exact (Some logService) entityId [1; 2; 3] db Hexact).
Defined.

End AddLogs.

(** ** The pages of a dataset (DataSetService.listDataSetRecordsPaginated) *)

Section Pages.
Import DataSetRepository DataSetRecordRepository.

Lemma pages_take {A} (l : list A) (size pages : nat) :
  concat ((λ i, take size (drop (i * size) l)) <$> seq 0 pages)
  = take (pages * size) l.
Proof.
  induction pages as [|pages IH]; [done|].
  rewrite seq_S, fmap_app, concat_app, IH. simpl.
  rewrite app_nil_r, take_take_drop. f_equal. lia.
Qed.

Lemma pageRecords_eq entityId pageSize page db :
  pageRecords entityId pageSize page db
  = take (Z.to_nat pageSize)
      (drop (Z.to_nat ((page - 1) * pageSize))
         (reverse (filter (liveRecordOf entityId) (dataSetRecords db)))).
Proof. reflexivity. Qed.

(** X21.  The pages of a dataset cut the list of its records: with a page
    size of at least 1, the pages 1 to [totalPages], one after the other,
    are the list that [listDataSetRecords] returns; each of them holds a
    record, all but the last hold [pageSize] records, and a page after the
    last is empty. *)
Theorem pages_partition db entityId pageSize :
  1 ≤ pageSize →
  ∃ records,
    DataSetService.listDataSetRecords entityId db = (Returned records, db) ∧
    let totalPages := Math_ceil_div (Z.of_nat (length records)) pageSize in
    concat ((λ page, pageRecords entityId pageSize page db) <$> seqZ 1 totalPages)
    = records ∧
    (∀ page, 1 ≤ page < totalPages →
       Z.of_nat (length (pageRecords entityId pageSize page db)) = pageSize) ∧
    (0 < totalPages →
     0 < Z.of_nat (length (pageRecords entityId pageSize totalPages db))
       ≤ pageSize) ∧
    (∀ page, totalPages < page → pageRecords entityId pageSize page db = []).
Proof.
  intros Hsize.
  set (records := reverse (filter (liveRecordOf entityId) (dataSetRecords db))).
  exists records. split; [done|]. intros totalPages.
  pose proof (Math_ceil_div_spec (Z.of_nat (length records)) pageSize
                ltac:(lia)) as Hpages.
  fold totalPages in Hpages.
  assert (0 ≤ totalPages) as Hnonneg by nia.
  split; [|split; [|split]].
  - unfold seqZ. rewrite <-list_fmap_compose.
    erewrite list_fmap_ext.
    + rewrite (pages_take records (Z.to_nat pageSize) (Z.to_nat totalPages)).
      apply take_ge. nia.
    + intros _ i _. simpl. rewrite pageRecords_eq. fold records.
      do 2 f_equal. nia.
  - intros page Hpage. rewrite pageRecords_eq. fold records.
    rewrite length_take, length_drop. nia.
  - intros Hsome. rewrite pageRecords_eq. fold records.
    rewrite length_take, length_drop. nia.
  - intros page Hpage. rewrite pageRecords_eq. fold records.
    rewrite drop_ge; [by rewrite take_nil|]. nia.
Qed.

(** A witness for [pages_partition]: five records on pages of two. *)
Lemma pages_partition_witness :
  let record i := DataSetRecord.mk i 1 1 1 (JObj [("index", JNum i)]) false in
  let db :=
    mkDB [] [] []
      [DataSet.mk 1 1 1 "Test Dataset" "test-dataset" false 5 (TextJson (JObj []))]
      [record 1; record 2; record 3; record 4; record 5] in
  let entityId := EntityId.mk 1 1 1 "" in
  1 ≤ 2 ∧
  ∃ records,
    DataSetService.listDataSetRecords entityId db = (Returned records, db) ∧
    concat ((λ page, pageRecords entityId 2 page db) <$> [1; 2; 3]) = records ∧
    pageRecords entityId 2 3 db = [record 1] ∧
    pageRecords entityId 2 4 db = [].
Proof.
  intros record db entityId.
  assert (1 ≤ 2) as Hsize by lia.
  split; [exact Hsize|].
  destruct (pages_partition db entityId 2 Hsize)
    as (records & Hlist & Hconcat & _ & _ & Hbeyond).
  exists records. split; [exact Hlist|].
  injection Hlist as <-. split; [exact Hconcat|].
  split; [reflexivity|]. apply Hbeyond. by vm_compute.
Defined.

End Pages.

(** ** The record counter of a dataset row (DataSetRepository) *)

Section RecordCount.
Import DataSetRepository.

Lemma update_where_compose {A} (P : A → Prop) `{!∀ r, Decision (P r)}
    (set1 set2 : A → A) (table : list A) :
  (∀ r, P r → P (set1 r)) →
  update_where P set2 (update_where P set1 table)
  = update_where P (set2 ∘ set1) table.
Proof.
  intros Hkeeps. unfold update_where. rewrite <-list_fmap_compose.
  apply list_fmap_ext. intros _ r _. simpl.
  destruct (decide (P r)) as [HP|HP].
  - by rewrite decide_True by by apply Hkeeps.
  - by rewrite decide_False.
Qed.

Lemma update_where_ext_set {A} (P : A → Prop) `{!∀ r, Decision (P r)}
    (set1 set2 : A → A) (table : list A) :
  (∀ r, set1 r = set2 r) →
  update_where P set1 table = update_where P set2 table.
Proof.
  intros Hset. unfold update_where. apply list_fmap_ext. intros _ r _.
  simpl. by rewrite Hset.
Qed.

Lemma setCountOfRecords_add a b :
  setCountOfRecords (λ c, c + b) ∘ setCountOfRecords (λ c, c + a)
  = setCountOfRecords (λ c, c + a + b).
Proof. done. Qed.

Lemma incrementRecordCountBy_run entityId amount db :
  incrementRecordCountBy entityId amount db
  = (Returned tt,
     set_dataSets
       (update_where (toWhereClause entityId)
          (setCountOfRecords (λ c, c + amount))) db).
Proof.
  unfold incrementRecordCountBy.
  destruct (decide (amount = 0)) as [->|]; [|done].
  unfold mret, M_ret. f_equal. destruct db. unfold set_dataSets. simpl.
  f_equal. symmetry. apply update_where_id.
  intros d _. destruct d. unfold setCountOfRecords. simpl. f_equal. lia.
Qed.

(** X22.  The three counter updates of [DataSetRepository] add to the
    [countOfRecords] column of the dataset rows of the id given, deleted or
    not, and to nothing else; the counter is not kept from going below zero.
    So two updates in a row amount to one update by the sum, the steps by
    one are [incrementRecordCountBy] with 1 and -1, and a decrement undoes
    an increment.  (The [updatedAt] column, which every update stamps, is
    outside the model.) *)
Theorem recordCount_compose db entityId a b :
  (∀ i d, dataSets db !! i = Some d →
     dataSets (incrementRecordCountBy entityId a db).2 !! i
     = Some (if decide (toWhereClause entityId d)
             then setCountOfRecords (λ c, c + a) d else d)) ∧
  (incrementRecordCountBy entityId a;; incrementRecordCountBy entityId b) db
  = incrementRecordCountBy entityId (a + b) db ∧
  incrementRecordCount entityId db = incrementRecordCountBy entityId 1 db ∧
  decrementRecordCount entityId db = incrementRecordCountBy entityId (-1) db ∧
  (incrementRecordCount entityId;; decrementRecordCount entityId) db
  = (Returned tt, db).
Proof.
  split; [|split; [|split; [|split]]].
  - intros i d Hi. rewrite incrementRecordCountBy_run. simpl.
    unfold update_where. by rewrite list_lookup_fmap, Hi.
  - unfold mbind, M_bind. rewrite !incrementRecordCountBy_run.
    unfold set_dataSets. simpl. do 2 f_equal.
    rewrite update_where_compose by done.
    rewrite setCountOfRecords_add.
    apply update_where_ext_set. intros d. destruct d.
    unfold setCountOfRecords. simpl. f_equal. lia.
  - by rewrite incrementRecordCountBy_run.
  - by rewrite incrementRecordCountBy_run.
  - unfold mbind, M_bind, incrementRecordCount, decrementRecordCount, execute.
    f_equal. destruct db. unfold set_dataSets. simpl. f_equal.
    rewrite update_where_compose by done.
    apply update_where_id. intros d _. destruct d.
    unfold setCountOfRecords. simpl. f_equal. lia.
Qed.

End RecordCount.

(** ** Consistency of the dataset tables (DataSetService) *)

Section DataSetConsistency.
Import DataSetRepository DataSetRecordRepository.

(** Dataset rows rewritten in columns other than the id, the tenant, the
    project and the slug, and not brought back from deletion; record rows
    rewritten in columns other than the id and the owner; and new records
    of existing datasets under new ids. *)
Lemma consistent_rewrite db (g : DataSet.t → DataSet.t)
    (h : DataSetRecord.t → DataSetRecord.t) (rows : list DataSetRecord.t) :
  let db' :=
    mkDB (prompts db) (promptVersions db) (promptRouters db)
      (g <$> dataSets db) ((h <$> dataSetRecords db) ++ rows) in
  dataSetsConsistent db →
  (∀ d, DataSet.id (g d) = DataSet.id d ∧
        DataSet.tenantId (g d) = DataSet.tenantId d ∧
        DataSet.projectId (g d) = DataSet.projectId d ∧
        DataSet.slug (g d) = DataSet.slug d ∧
        (DataSet.isDeleted (g d) = false → DataSet.isDeleted d = false)) →
  (∀ r, DataSetRecord.id (h r) = DataSetRecord.id r ∧
        DataSetRecord.dataSetId (h r) = DataSetRecord.dataSetId r ∧
        DataSetRecord.tenantId (h r) = DataSetRecord.tenantId r ∧
        DataSetRecord.projectId (h r) = DataSetRecord.projectId r) →
  NoDup ((DataSetRecord.id <$> dataSetRecords db)
         ++ (DataSetRecord.id <$> rows)) →
  (∀ r, r ∈ rows →
     ∃ d, d ∈ dataSets db ∧
       DataSetRecord.dataSetId r = DataSet.id d ∧
       DataSetRecord.tenantId r = DataSet.tenantId d ∧
       DataSetRecord.projectId r = DataSet.projectId d) →
  counterExact db' →
  dataSetsConsistent db'.
Proof.
  intros db' [Hids Hrids _ Howned Hslugs] Hg Hh Hnew Hrows Hexact.
  split; simpl.
  - assert (DataSet.id <$> (g <$> dataSets db) = DataSet.id <$> dataSets db)
      as ->; [|done].
    rewrite <-list_fmap_compose. apply list_fmap_ext. intros _ d _. apply Hg.
  - assert (DataSetRecord.id <$> (h <$> dataSetRecords db)
            = DataSetRecord.id <$> dataSetRecords db) as Hsame.
    { rewrite <-list_fmap_compose. apply list_fmap_ext. intros _ r _.
      apply Hh. }
    by rewrite fmap_app, Hsame.
  - exact Hexact.
  - intros r' Hr'. apply elem_of_app in Hr' as [Hr'|Hr'].
    + apply list_elem_of_fmap in Hr' as (r & -> & Hr).
      destruct (Howned r Hr) as (d & Hd & Hid & Ht & Hp).
      exists (g d). split; [by apply list_elem_of_fmap_2|].
      destruct (Hg d) as (-> & -> & -> & _), (Hh r) as (_ & -> & -> & ->).
      done.
    + destruct (Hrows r' Hr') as (d & Hd & Hid & Ht & Hp).
      exists (g d). split; [by apply list_elem_of_fmap_2|].
      by destruct (Hg d) as (-> & -> & -> & _).
  - intros i j d1' d2' Hi Hj Hlive1 Hlive2 Ht Hp Hslug.
    rewrite list_lookup_fmap in Hi, Hj.
    destruct (dataSets db !! i) as [d1|] eqn:Hi1; [|done].
    destruct (dataSets db !! j) as [d2|] eqn:Hj2; [|done].
    simpl in Hi, Hj. injection Hi as <-. injection Hj as <-.
    destruct (Hg d1) as (_ & Ht1 & Hp1 & Hs1 & Hl1).
    destruct (Hg d2) as (_ & Ht2 & Hp2 & Hs2 & Hl2).
    apply (Hslugs i j d1 d2); auto; congruence.
Qed.

Lemma consistent_append db (g : DataSet.t → DataSet.t)
    (rows : list DataSetRecord.t) :
  let db' :=
    mkDB (prompts db) (promptVersions db) (promptRouters db)
      (g <$> dataSets db) (dataSetRecords db ++ rows) in
  dataSetsConsistent db →
  (∀ d, DataSet.id (g d) = DataSet.id d ∧
        DataSet.tenantId (g d) = DataSet.tenantId d ∧
        DataSet.projectId (g d) = DataSet.projectId d ∧
        DataSet.slug (g d) = DataSet.slug d ∧
        (DataSet.isDeleted (g d) = false → DataSet.isDeleted d = false)) →
  NoDup ((DataSetRecord.id <$> dataSetRecords db)
         ++ (DataSetRecord.id <$> rows)) →
  (∀ r, r ∈ rows →
     ∃ d, d ∈ dataSets db ∧
       DataSetRecord.dataSetId r = DataSet.id d ∧
       DataSetRecord.tenantId r = DataSet.tenantId d ∧
       DataSetRecord.projectId r = DataSet.projectId d) →
  counterExact db' →
  dataSetsConsistent db'.
Proof.
  intros db' Hdb Hg Hnew Hrows Hexact.
  pose proof (consistent_rewrite db g id rows) as Hstep.
  cbv zeta in Hstep. rewrite list_fmap_id in Hstep. by apply Hstep.
Qed.

(** The two updates of the dataset table that [createDataSetRecord] and
    [addLogsToDataSet] make, as one rewriting of the rows. *)
Lemma update_where_twice {A} (P : A → Prop) `{!∀ r, Decision (P r)}
    (set1 set2 : A → A) (table : list A) :
  update_where P set2 (update_where P set1 table)
  = (λ r, if decide (P r)
          then (let r' := set1 r in if decide (P r') then set2 r' else r')
          else r) <$> table.
Proof.
  unfold update_where. rewrite <-list_fmap_compose.
  apply list_fmap_ext. intros _ r _. simpl.
  destruct (decide (P r)) as [Hr|Hr]; [done|by rewrite decide_False].
Qed.

Lemma NoDup_numbered {A} (ids : list Z) (first : Z) (l : list A) :
  NoDup ids → (∀ i, i ∈ ids → i < first) →
  NoDup (ids ++ imap (λ i _, first + Z.of_nat i) l).
Proof.
  intros Hnodup Hbelow. apply NoDup_app. split; [done|]. split.
  - intros i Hi (k & x & -> & _)%elem_of_lookup_imap.
    specialize (Hbelow _ Hi). lia.
  - apply NoDup_alt. intros i j x Hi Hj.
    rewrite list_lookup_imap in Hi, Hj.
    destruct (l !! i); [|done]. destruct (l !! j); [|done].
    simpl in Hi, Hj. injection Hi as <-. injection Hj as Hj. lia.
Qed.

Lemma findById_owner entityId db dataset :
  select_first (λ d, toWhereClause entityId d ∧ DataSet.isDeleted d = false)
    (dataSets db) = Some dataset →
  dataset ∈ dataSets db ∧
  EntityId.id entityId = DataSet.id dataset ∧
  EntityId.tenantId entityId = DataSet.tenantId dataset ∧
  EntityId.projectId entityId = DataSet.projectId dataset.
Proof.
  intros (((Ht & Hp & Hid) & _) & Hin)%select_first_Some.
  simpl in Ht, Hp, Hid. by rewrite Ht, Hp, Hid.
Qed.

Lemma createDataSet_consistent db fuel context input :
  dataSetsConsistent db →
  dataSetsConsistent (DataSetService.createDataSet fuel context input db).2.
Proof.
  intros Hdb. set (baseSlug := generateSlug (CreateDataSetInput.name input)).
  unfold DataSetService.createDataSet. fold baseSlug. step_M.
  pose proof (createDataSetLoop_spec fuel context baseSlug 1 db ltac:(lia))
    as [Hloop Hsame].
  change (dataSetSlug baseSlug 1) with baseSlug in Hloop, Hsame.
  destruct (DataSetService.createDataSetLoop _ _ _ _ _ _)
    as [[[slug|]|] db1]; simpl in Hloop, Hsame; subst db1; [|done|done].
  destruct Hloop as (N & _ & -> & Hfree & _). simpl.
  set (dataset := DataSet.mk (next_id (dataSets db))
        (TenantProjectContext.tenantId context)
        (TenantProjectContext.projectId context)
        (CreateDataSetInput.name input) (dataSetSlug baseSlug N) false 0
        (default (TextJson (JObj [])) (CreateDataSetInput.schema input))).
  destruct Hdb as [Hids Hrids Hexact Howned Hslugs].
  assert (∀ d, d ∈ dataSets db → DataSet.id d ≠ DataSet.id dataset) as Hfresh.
  { intros d Hd Heq. pose proof (next_id_fresh (dataSets db) d Hd) as Hlt.
    simpl in Hlt, Heq. lia. }
  split; simpl.
  - exact (NoDup_next_id (dataSets db) dataset eq_refl Hids).
  - exact Hrids.
  - intros d Hd. unfold liveRecordsOf. simpl dataSetRecords.
    apply elem_of_app in Hd as [Hd|Hd]; [by apply Hexact|].
    apply list_elem_of_singleton in Hd as ->.
    rewrite filter_none; [done|].
    intros r Hr (_ & _ & Hid & _).
    destruct (Howned r Hr) as (d & Hd & Hid' & _).
    apply (Hfresh d Hd). simpl in *. congruence.
  - intros r Hr. destruct (Howned r Hr) as (d & Hd & Hrow).
    exists d. split; [|done]. apply elem_of_app. by left.
  - assert (∀ i d, dataSets db !! i = Some d →
              DataSet.isDeleted d = false →
              DataSet.tenantId d = DataSet.tenantId dataset →
              DataSet.projectId d = DataSet.projectId dataset →
              DataSet.slug d = DataSet.slug dataset → False) as Hnew.
    { intros i d Hi Hlive Ht Hp Hslug. apply Hfree.
      exists d. split; [by eapply list_elem_of_lookup_2|done]. }
    intros i j d d' Hi Hj Hlive Hlive' Ht Hp Hslug.
    apply lookup_snoc_cases in Hi as [Hi|[-> ->]];
      apply lookup_snoc_cases in Hj as [Hj|[-> ->]].
    + by apply (Hslugs i j d d').
    + by destruct (Hnew i d Hi).
    + by destruct (Hnew j d' Hj).
    + done.
Qed.

Lemma deleteDataSet_consistent db entityId :
  dataSetsConsistent db →
  dataSetsConsistent (DataSetService.deleteDataSet entityId db).2.
Proof.
  intros Hdb.
  pose proof (consistent_append db
                (λ d, if decide (toWhereClause entityId d)
                      then setDataSetDeleted d else d) [] Hdb) as Hstep.
  cbv zeta in Hstep. rewrite !app_nil_r in Hstep.
  apply Hstep; clear Hstep.
  - intros d. by destruct (decide (toWhereClause entityId d)).
  - apply Hdb.
  - intros r Hr. by apply not_elem_of_nil in Hr.
  - intros d' (d & -> & Hd)%list_elem_of_fmap.
    pose proof (counters_exact db Hdb d Hd) as Hexact.
    by destruct (decide (toWhereClause entityId d)).
Qed.

Lemma createDataSetRecord_consistent db entityId variables :
  dataSetsConsistent db →
  dataSetsConsistent
    (DataSetService.createDataSetRecord entityId variables db).2.
Proof.
  intros Hdb.
  pose proof (createDataSetRecord_exact entityId variables db
                (counters_exact db Hdb)) as Hexact.
  pose proof (createDataSetRecord_run entityId variables db) as Hrun.
  destruct (select_first _ (dataSets db)) as [dataset|] eqn:Hfound;
    [|by rewrite Hrun].
  cbv zeta in Hrun. rewrite Hrun in Hexact |- *. simpl in Hexact |- *.
  rewrite update_where_twice in Hexact |- *.
  apply findById_owner in Hfound as (Hin & Hid & Ht & Hp).
  apply (consistent_append db _ [_] Hdb); [ | | |exact Hexact].
  - intros d. destruct (decide (toWhereClause entityId d)); [|done].
    cbv zeta. by destruct (decide _).
  - rewrite <-fmap_app.
    exact (NoDup_next_id (dataSetRecords db)
             (DataSetRecord.mk (next_id (dataSetRecords db))
                (EntityId.tenantId entityId) (EntityId.projectId entityId)
                (EntityId.id entityId) variables false)
             eq_refl (record_ids db Hdb)).
  - intros r ->%list_elem_of_singleton. by exists dataset.
Qed.

Lemma deleteDataSetRecords_consistent db entityId recordIds :
  dataSetsConsistent db →
  dataSetsConsistent
    (DataSetService.deleteDataSetRecords entityId recordIds db).2.
Proof.
  intros Hdb.
  pose proof (deleteDataSetRecords_exact entityId recordIds db
                (counters_exact db Hdb)) as Hexact.
  rewrite deleteDataSetRecords_run in Hexact |- *.
  cbv zeta in Hexact |- *. simpl in Hexact |- *.
  unfold update_where in Hexact |- *.
  rewrite <-(app_nil_r (_ <$> dataSetRecords db)) in Hexact |- *.
  apply (consistent_rewrite db _ _ [] Hdb); [ | | | |exact Hexact].
  - intros d. by destruct (decide (toWhereClause entityId d)).
  - intros r. by destruct (decide (softDeleteWhere entityId recordIds r)).
  - rewrite app_nil_r. apply Hdb.
  - intros r Hr. by apply not_elem_of_nil in Hr.
Qed.

Lemma addLogsToDataSet_consistent db logService entityId logIds :
  dataSetsConsistent db →
  dataSetsConsistent
    (DataSetService.addLogsToDataSet logService entityId logIds db).2.
Proof.
  intros Hdb.
  destruct (select_first
              (λ d, toWhereClause entityId d ∧ DataSet.isDeleted d = false)
              (dataSets db)) as [dataset|] eqn:Hfound.
  2: { unfold DataSetService.addLogsToDataSet. step_M. by rewrite Hfound. }
  destruct logService as [getLogVariables|].
  2: { unfold DataSetService.addLogsToDataSet. step_M. by rewrite Hfound. }
  rewrite (addLogsToDataSet_run getLogVariables entityId logIds db dataset
             Hfound).
  cbv zeta.
  destruct (acceptedVariables _) as [|variables accepted'] eqn:Haccepted;
    [done|].
  pose proof (appended_counterExact db entityId
                (stringifySchema
                   (foldl mergeSchema (parseSchema (DataSet.schema dataset))
                      (variables :: accepted')))
                (variables :: accepted') (counters_exact db Hdb)) as Hexact.
  cbv zeta in Hexact.
  set (accepted := variables :: accepted') in *.
  set (rows := imap _ accepted) in *.
  simpl in Hexact |- *.
  rewrite update_where_twice in Hexact |- *.
  apply findById_owner in Hfound as (Hin & Hid & Ht & Hp).
  apply (consistent_append db _ rows Hdb); [ | | |exact Hexact].
  - intros d. destruct (decide (toWhereClause entityId d)); [|done].
    cbv zeta. by destruct (decide _).
  - unfold rows. rewrite fmap_imap.
    apply (NoDup_numbered _ (next_id (dataSetRecords db)) accepted).
    + apply Hdb.
    + intros i (r & -> & Hr)%list_elem_of_fmap.
      exact (next_id_fresh (dataSetRecords db) r Hr).
  - intros r (i & v & -> & _)%elem_of_lookup_imap. by exists dataset.
Qed.

(** X23.  The write methods of [DataSetService] keep the dataset tables
    consistent.  From a database in which the ids of the dataset rows and of
    the record rows are not repeated, every dataset row counts its live
    records, every record belongs to a dataset row, and no two dataset rows
    of a tenant and project that are not deleted hold the same slug, any
    sequence of calls of [createDataSet], [deleteDataSet],
    [createDataSetRecord], [deleteDataSetRecords] and [addLogsToDataSet],
    with any arguments and whether they return or throw, leaves such a
    database. *)
Theorem dataSet_consistency db calls :
  dataSetsConsistent db → dataSetsConsistent (runDataSetCalls db calls).
Proof.
  revert db. induction calls as [|call calls IH]; intros db Hdb; [done|].
  apply IH. destruct call; simpl.
  - by apply createDataSet_consistent.
  - by apply deleteDataSet_consistent.
  - by apply createDataSetRecord_consistent.
  - by apply deleteDataSetRecords_consistent.
  - by apply addLogsToDataSet_consistent.
Qed.

Lemma no_dataSets_consistent prompts promptVersions promptRouters :
  dataSetsConsistent (mkDB prompts promptVersions promptRouters [] []).
Proof.
  split; simpl; try apply NoDup_nil_2.
  - intros d Hd. by apply not_elem_of_nil in Hd.
  - intros r Hr. by apply not_elem_of_nil in Hr.
  - intros i j d d' Hi. done.
Qed.

(** A witness for [dataSet_consistency]: two datasets of one name, records
    added by hand and from logs, a record and a dataset deleted. *)
Lemma dataSet_consistency_witness :
  let db := mkDB [] [] [] [] [] in
  let context := TenantProjectContext.mk 1 1 in
  let logService : LogService :=
    λ _ _ logId,
      if decide (logId = 2) then None else Some (JObj [("log", JNum logId)]) in
  let calls :=
    [CallCreateDataSet 5 context (CreateDataSetInput.mk "My set" None);
     CallCreateDataSet 5 context (CreateDataSetInput.mk "my SET" None);
     CallCreateDataSetRecord (EntityId.mk 1 1 1 "user") (JObj [("q", JStr "a")]);
     CallAddLogsToDataSet (Some logService) (EntityId.mk 2 1 1 "user") [1; 2; 3];
     CallDeleteDataSetRecords (EntityId.mk 2 1 1 "user") [2; 7];
     CallDeleteDataSet (EntityId.mk 1 1 1 "user")] in
  dataSetsConsistent db ∧
  dataSetsConsistent (runDataSetCalls db calls) ∧
  (λ d, (DataSet.slug d, DataSet.isDeleted d, DataSet.countOfRecords d))
    <$> dataSets (runDataSetCalls db calls)
  = [("my-set", true, 1); ("my-set-2", false, 1)].
Proof.
  intros db context logService calls.
  pose proof (no_dataSets_consistent [] [] []) as Hdb.
  split; [exact Hdb|]. split; [|vm_compute; reflexivity].
  exact (dataSet_consistency db calls Hdb).
Defined.

End DataSetConsistency.

(** ** Batches of records (DataSetRecordRepository.listBatchByDataSet) *)

Section Batches.
Import DataSetRecordRepository.

Lemma insert_asc_permutation {A} (key : A → Z) (x : A) (l : list A) :
  insert_asc key x l ≡ₚ x :: l.
Proof.
  induction l as [|y l IH]; [done|]. simpl.
  destruct (decide (key x < key y)); [done|].
  by rewrite IH, Permutation_swap.
Qed.

Lemma order_asc_permutation {A} (key : A → Z) (l : list A) :
  order_asc key l ≡ₚ l.
Proof.
  unfold order_asc. induction l as [|x l IH]; [done|]. simpl.
  by rewrite insert_asc_permutation, IH.
Qed.

Lemma insert_asc_sorted {A} (key : A → Z) (x : A) (l : list A) :
  StronglySorted (λ v w, key v ≤ key w) l →
  StronglySorted (λ v w, key v ≤ key w) (insert_asc key x l).
Proof.
  induction 1 as [|y l Hsorted IH Hy]; simpl.
  { repeat constructor. }
  destruct (decide (key x < key y)) as [Hlt|Hge].
  - constructor; [by constructor|].
    constructor; [lia|]. eapply Forall_impl; [exact Hy|]. simpl. intros; lia.
  - constructor; [done|].
    rewrite insert_asc_permutation. constructor; [lia|done].
Qed.

Lemma order_asc_sorted {A} (key : A → Z) (l : list A) :
  StronglySorted (λ v w, key v ≤ key w) (order_asc key l).
Proof.
  unfold order_asc. induction l as [|x l IH]; [constructor|].
  simpl. by apply insert_asc_sorted.
Qed.

Lemma insert_asc_first {A} (key : A → Z) (x : A) (l : list A) :
  Forall (λ y, key x < key y) l → insert_asc key x l = x :: l.
Proof.
  destruct 1 as [|y l Hy _]; [done|]. simpl. by rewrite decide_True.
Qed.

(** On a list in ascending order, a condition can be applied before or
    after a row is put in its place. *)
Lemma filter_insert_asc {A} (key : A → Z) (Q : A → Prop)
    `{!∀ r, Decision (Q r)} (x : A) (l : list A) :
  StronglySorted (λ v w, key v ≤ key w) l →
  filter Q (insert_asc key x l)
  = if decide (Q x) then insert_asc key x (filter Q l) else filter Q l.
Proof.
  induction 1 as [|y l Hsorted IH Hy]; simpl.
  { rewrite filter_cons, filter_nil. by destruct (decide (Q x)). }
  destruct (decide (key x < key y)) as [Hlt|Hge].
  - rewrite (filter_cons _ x). destruct (decide (Q x)) as [Hx|Hx]; [|done].
    rewrite insert_asc_first; [done|].
    apply Forall_forall. intros z [_ Hz]%list_elem_of_filter.
    apply elem_of_cons in Hz as [->|Hz]; [done|].
    rewrite Forall_forall in Hy. specialize (Hy z Hz). simpl in Hy. lia.
  - rewrite (filter_cons _ y (insert_asc _ _ _)), (filter_cons _ y l), IH.
    destruct (decide (Q x)), (decide (Q y)); try done.
    simpl. by rewrite decide_False.
Qed.

Lemma filter_order_asc {A} (key : A → Z) (Q : A → Prop)
    `{!∀ r, Decision (Q r)} (l : list A) :
  order_asc key (filter Q l) = filter Q (order_asc key l).
Proof.
  unfold order_asc. induction l as [|x l IH]; [done|].
  simpl foldr at 2. rewrite filter_insert_asc by apply order_asc_sorted.
  rewrite filter_cons. destruct (decide (Q x)); [|done].
  simpl. by rewrite IH.
Qed.

(** In ascending order without repeated keys, the rows whose key is
    greater than that of the [n]-th row are the rows after it. *)
Lemma filter_after {A} (key : A → Z) (l : list A) (n : nat) (r : A) :
  StronglySorted (λ v w, key v ≤ key w) l → NoDup (key <$> l) →
  l !! n = Some r →
  filter (λ x, key r < key x) l = drop (S n) l.
Proof.
  intros Hsorted. revert n.
  induction Hsorted as [|y l Hsorted IH Hy]; intros n Hnodup Hn; [done|].
  rewrite fmap_cons in Hnodup. apply NoDup_cons in Hnodup as [Hnew Hnodup].
  rewrite Forall_forall in Hy.
  destruct n as [|n]; simpl in Hn.
  - injection Hn as ->. rewrite filter_cons_False by lia. simpl. rewrite drop_0.
    apply filter_all, Forall_forall. intros z Hz.
    specialize (Hy z Hz). simpl in Hy.
    assert (key z ≠ key r); [|lia].
    intros Heq. apply Hnew. rewrite <-Heq. by apply list_elem_of_fmap_2.
  - pose proof (Hy r (list_elem_of_lookup_2 _ _ _ Hn)) as Hle. simpl in Hle.
    rewrite filter_cons_False by lia. by apply IH.
Qed.

Lemma sorted_strictly {A} (key : A → Z) (l : list A) :
  StronglySorted (λ v w, key v ≤ key w) l → NoDup (key <$> l) →
  StronglySorted (λ v w, key v < key w) l.
Proof.
  induction 1 as [|y l Hsorted IH Hy]; intros Hnodup; [constructor|].
  rewrite fmap_cons in Hnodup. apply NoDup_cons in Hnodup as [Hnew Hnodup].
  constructor; [by apply IH|].
  rewrite Forall_forall in Hy |- *. intros z Hz.
  specialize (Hy z Hz). simpl in Hy.
  assert (key z ≠ key y); [|lia].
  intros Heq. apply Hnew. rewrite <-Heq. by apply list_elem_of_fmap_2.
Qed.

(** X24.  [listBatchByDataSet] walks the live records of a dataset in the
    order of their ids.  When no two record rows share an id, there is one
    list [all] of the live records of the dataset, each once, in strictly
    ascending order of the id, such that the call without [afterId] returns
    the first [limit] rows of [all], and the call with [afterId] the id of
    the [n]-th row of [all] returns the first [limit] of the rows after it.
    A negative [limit] is no limit.  The database stays as it is. *)
Theorem listBatchByDataSet_walk db entityId limit :
  NoDup (DataSetRecord.id <$> dataSetRecords db) →
  ∃ all,
    all ≡ₚ filter (liveRecordOf entityId) (dataSetRecords db) ∧
    StronglySorted (λ r r', DataSetRecord.id r < DataSetRecord.id r') all ∧
    listBatchByDataSet entityId limit None db
    = (Returned (limit_rows limit all), db) ∧
    ∀ n r, all !! n = Some r →
      listBatchByDataSet entityId limit (Some (DataSetRecord.id r)) db
      = (Returned (limit_rows limit (drop (S n) all)), db).
Proof.
  intros Hnodup.
  set (all := order_asc DataSetRecord.id
                (filter (liveRecordOf entityId) (dataSetRecords db))).
  assert (all ≡ₚ filter (liveRecordOf entityId) (dataSetRecords db)) as Hperm
    by apply order_asc_permutation.
  assert (NoDup (DataSetRecord.id <$> all)) as Hall.
  { rewrite Hperm. eapply sublist_NoDup; [exact Hnodup|].
    apply fmap_sublist, sublist_filter. }
  pose proof (order_asc_sorted DataSetRecord.id
                (filter (liveRecordOf entityId) (dataSetRecords db)))
    as Hsorted.
  fold all in Hsorted.
  exists all. split; [done|]. split; [by apply sorted_strictly|]. split.
  - unfold listBatchByDataSet, query. do 3 f_equal. unfold all. f_equal.
    apply list_filter_iff. intros r. simpl. tauto.
  - intros n r Hn. unfold listBatchByDataSet, query. do 3 f_equal.
    rewrite <-(filter_after DataSetRecord.id all n r Hsorted Hall Hn).
    unfold all. rewrite <-filter_order_asc, list_filter_filter.
    f_equal. apply list_filter_iff. intros r'. simpl. tauto.
Qed.

(** A witness for [listBatchByDataSet_walk]: five records, of which one is
    deleted and one belongs to another dataset, read in batches of two. *)
Lemma listBatchByDataSet_walk_witness :
  let record id dataSetId isDeleted :=
    DataSetRecord.mk id 1 1 dataSetId (JObj []) isDeleted in
  let db :=
    mkDB [] [] [] []
      [record 5 7 false; record 2 8 false; record 3 7 true;
       record 4 7 false; record 1 7 false] in
  let entityId := EntityId.mk 7 1 1 "user" in
  NoDup (DataSetRecord.id <$> dataSetRecords db) ∧
  (∃ all,
     all ≡ₚ filter (liveRecordOf entityId) (dataSetRecords db) ∧
     listBatchByDataSet entityId 2 None db
     = (Returned (limit_rows 2 all), db) ∧
     ∀ n r, all !! n = Some r →
       listBatchByDataSet entityId 2 (Some (DataSetRecord.id r)) db
       = (Returned (limit_rows 2 (drop (S n) all)), db)) ∧
  (listBatchByDataSet entityId 2 None db).1
  = Returned [record 1 7 false; record 4 7 false] ∧
  (listBatchByDataSet entityId 2 (Some 4) db).1
  = Returned [record 5 7 false] ∧
  (listBatchByDataSet entityId 2 (Some 5) db).1 = Returned [].
Proof.
  intros record db entityId.
  assert (NoDup (DataSetRecord.id <$> dataSetRecords db)) as Hnodup.
  { apply (bool_decide_unpack _). vm_compute. exact I. }
  split; [exact Hnodup|]. split; [|by vm_compute].
  destruct (listBatchByDataSet_walk db entityId 2 Hnodup)
    as (all & Hperm & _ & Hfirst & Hnext).
  by exists all.
Defined.

End Batches.

(** ** The keys of the Prompts table (PromptService) *)

Section PromptKeys.
Import PromptRepository.














End PromptKeys.
